(** * util/parse.py: parsing of the intermediary files

    A shallow embedding of [src/util/parse.py] and of the parts of the
    Python standard library that decide what its four functions return:
    the record splitter of the [csv] module with the default [excel]
    dialect, [csv.DictReader], [str.split], [glob.iglob] on the pattern
    [<dir>/*.json], [os.path.basename] and [os.path.splitext].

    Dictionaries are [gmap]s, sets are [gset]s, exceptions are values of
    [exception] carried by [res].  A text stream is the list of the lines
    it gives.  Paths are POSIX paths, the file system does not change
    while a generator runs, and [details_dir] has no glob metacharacters.
    Strings are sequences of 8-bit characters.

    The definitions come first, the proofs after them. *)

From Stdlib Require Import Ascii String.
From stdpp Require Import gmap strings list fin_maps.

#[local] Set Warnings "-clear-no-such-hyp".

(** ** Exceptions *)

Inductive exception :=
| CsvError (msg : string)
| KeyError (key : string)
| AttributeError
| IndexError
| TypeError
| OSError
| UnicodeDecodeError
| JSONDecodeError.

Inductive res (A : Type) :=
| Ok (a : A)
| Raise (e : exception).
Arguments Ok {A} a.
Arguments Raise {A} e.

Definition res_bind {A B} (f : A → res B) (x : res A) : res B :=
  match x with
  | Ok a => f a
  | Raise e => Raise e
  end.

#[global] Instance res_mbind : MBind res := @res_bind.
#[global] Instance res_mret : MRet res := @Ok.

(** ** [str.split(sep)] with a one-character separator *)

(** Every occurrence of [sep] ends a piece; the result is never empty. *)
Fixpoint split (sep : ascii) (s : string) : list string :=
  match s with
  | "" => [""]
  | String c s' =>
      if bool_decide (c = sep) then "" :: split sep s'
      else match split sep s' with
           | piece :: pieces => String c piece :: pieces
           | [] => [String c ""]
           end
  end.

(** ** The [csv] reader (Modules/_csv.c) *)

Inductive ParserState :=
| START_RECORD | START_FIELD | ESCAPED_CHAR | IN_FIELD
| IN_QUOTED_FIELD | ESCAPE_IN_QUOTED_FIELD | QUOTE_IN_QUOTED_FIELD
| EAT_CRNL | AFTER_ESCAPED_CRNL.

#[global] Instance ParserState_eq_dec : EqDecision ParserState.
Proof. solve_decision. Defined.

Inductive QuoteStyle := QUOTE_MINIMAL | QUOTE_ALL | QUOTE_NONNUMERIC | QUOTE_NONE.

#[global] Instance QuoteStyle_eq_dec : EqDecision QuoteStyle.
Proof. solve_decision. Defined.

Record Dialect := {
  delimiter : ascii;
  quotechar : option ascii;
  escapechar : option ascii;
  doublequote : bool;
  skipinitialspace : bool;
  strict : bool;
  quoting : QuoteStyle
}.

(** [csv.excel], the dialect both reader calls of parse.py get by default.
    The quote character is the double quote, code 34. *)
Definition excel : Dialect := {|
  delimiter := ","%char;
  quotechar := Some "034"%char;
  escapechar := None;
  doublequote := true;
  skipinitialspace := false;
  strict := false;
  quoting := QUOTE_MINIMAL
|}.

(** [csv.field_size_limit()], never changed by parse.py. *)
Definition field_limit : N := 131072.

Definition LF : ascii := "010"%char.
Definition CR : ascii := "013"%char.

Record ReaderObj := {
  state : ParserState;
  fields : list string;
  field : string
}.

Definition parse_reset : ReaderObj :=
  {| state := START_RECORD; fields := []; field := "" |}.

Definition set_state (self : ReaderObj) (s : ParserState) : ReaderObj :=
  {| state := s; fields := fields self; field := field self |}.

Definition parse_save_field (self : ReaderObj) : ReaderObj :=
  {| state := state self; fields := fields self ++ [field self]; field := "" |}.

Definition parse_add_char (self : ReaderObj) (c : ascii) : res ReaderObj :=
  if (field_limit <=? N.of_nat (String.length (field self)))%N
  then Raise (CsvError "field larger than field limit")
  else Ok {| state := state self; fields := fields self;
             field := field self +:+ String c "" |}.

Definition is_char (o : option ascii) (c : ascii) : bool :=
  match o with
  | Some d => bool_decide (c = d)
  | None => false
  end.

Definition is_newline (c : ascii) : bool :=
  bool_decide (c = LF) || bool_decide (c = CR).

(** The body of [case IN_FIELD] of [parse_process_char], shared with
    [AFTER_ESCAPED_CRNL], which falls through to it. *)
Definition process_in_field (dialect : Dialect) (self : ReaderObj)
    (c : option ascii) : res ReaderObj :=
  match c with
  | None => Ok (set_state (parse_save_field self) START_RECORD)
  | Some c =>
      if is_newline c then Ok (set_state (parse_save_field self) EAT_CRNL)
      else if is_char (escapechar dialect) c then Ok (set_state self ESCAPED_CHAR)
      else if bool_decide (c = delimiter dialect)
      then Ok (set_state (parse_save_field self) START_FIELD)
      else parse_add_char self c
  end.

(** The body of [case START_FIELD], which [START_RECORD] falls through to. *)
Definition process_start_field (dialect : Dialect) (self : ReaderObj)
    (c : option ascii) : res ReaderObj :=
  match c with
  | None => Ok (set_state (parse_save_field self) START_RECORD)
  | Some c =>
      if is_newline c then Ok (set_state (parse_save_field self) EAT_CRNL)
      else if is_char (quotechar dialect) c
                && negb (bool_decide (quoting dialect = QUOTE_NONE))
      then Ok (set_state self IN_QUOTED_FIELD)
      else if is_char (escapechar dialect) c then Ok (set_state self ESCAPED_CHAR)
      else if bool_decide (c = " "%char) && skipinitialspace dialect then Ok self
      else if bool_decide (c = delimiter dialect) then Ok (parse_save_field self)
      else self' ← parse_add_char self c; Ok (set_state self' IN_FIELD)
  end.

(** [parse_process_char]; the end-of-line marker the reader feeds after
    each line is [None], as in Python 3.11 and later, where a NUL in the
    line is a character like any other. *)
Definition parse_process_char (dialect : Dialect) (self : ReaderObj)
    (c : option ascii) : res ReaderObj :=
  match state self with
  | START_RECORD =>
      match c with
      | None => Ok self
      | Some c' =>
          if is_newline c' then Ok (set_state self EAT_CRNL)
          else process_start_field dialect (set_state self START_FIELD) c
      end
  | START_FIELD => process_start_field dialect self c
  | ESCAPED_CHAR =>
      match c with
      | None => self' ← parse_add_char self LF; Ok (set_state self' IN_FIELD)
      | Some c' =>
          if is_newline c'
          then self' ← parse_add_char self c'; Ok (set_state self' AFTER_ESCAPED_CRNL)
          else self' ← parse_add_char self c'; Ok (set_state self' IN_FIELD)
      end
  | AFTER_ESCAPED_CRNL =>
      match c with
      | None => Ok self
      | Some _ => process_in_field dialect self c
      end
  | IN_FIELD => process_in_field dialect self c
  | IN_QUOTED_FIELD =>
      match c with
      | None => Ok self
      | Some c' =>
          if is_char (escapechar dialect) c' then Ok (set_state self ESCAPE_IN_QUOTED_FIELD)
          else if is_char (quotechar dialect) c'
                    && negb (bool_decide (quoting dialect = QUOTE_NONE))
          then if doublequote dialect then Ok (set_state self QUOTE_IN_QUOTED_FIELD)
               else Ok (set_state self IN_FIELD)
          else parse_add_char self c'
      end
  | ESCAPE_IN_QUOTED_FIELD =>
      self' ← parse_add_char self (default LF c); Ok (set_state self' IN_QUOTED_FIELD)
  | QUOTE_IN_QUOTED_FIELD =>
      match c with
      | None => Ok (set_state (parse_save_field self) START_RECORD)
      | Some c' =>
          if negb (bool_decide (quoting dialect = QUOTE_NONE))
             && is_char (quotechar dialect) c'
          then self' ← parse_add_char self c'; Ok (set_state self' IN_QUOTED_FIELD)
          else if bool_decide (c' = delimiter dialect)
          then Ok (set_state (parse_save_field self) START_FIELD)
          else if is_newline c' then Ok (set_state (parse_save_field self) EAT_CRNL)
          else if negb (strict dialect)
          then self' ← parse_add_char self c'; Ok (set_state self' IN_FIELD)
          else Raise (CsvError "delimiter expected after quotechar")
      end
  | EAT_CRNL =>
      match c with
      | None => Ok (set_state self START_RECORD)
      | Some c' =>
          if is_newline c' then Ok self
          else Raise (CsvError "new-line character seen in unquoted field")
      end
  end.

(** The [while (linelen--)] loop of [Reader_iternext] over one line. *)
Fixpoint process_line (dialect : Dialect) (self : ReaderObj) (line : string)
    : res ReaderObj :=
  match line with
  | "" => Ok self
  | String c rest =>
      self' ← parse_process_char dialect self (Some c);
      process_line dialect self' rest
  end.

(** What [Reader_iternext] does when the underlying iterator is exhausted:
    a pending field is flushed as a last record. *)
Definition pending (self : ReaderObj) : bool :=
  negb (bool_decide (field self = "")) || bool_decide (state self = IN_QUOTED_FIELD).

(** [Reader_iternext]: one [next()] on the reader.  The input is the list
    of lines the stream still has to give.  [Ok None] is StopIteration,
    [Ok (Some (row, rest))] a record together with the unread lines. *)
Fixpoint Reader_iternext (dialect : Dialect) (self : ReaderObj)
    (input_iter : list string) : res (option (list string * list string)) :=
  match input_iter with
  | [] =>
      if pending self then
        if strict dialect then Raise (CsvError "unexpected end of data")
        else Ok (Some (fields (parse_save_field self), []))
      else Ok None
  | lineobj :: rest =>
      self1 ← process_line dialect self lineobj;
      self2 ← parse_process_char dialect self1 None;
      if bool_decide (state self2 = START_RECORD) then Ok (Some (fields self2, rest))
      else Reader_iternext dialect self2 rest
  end.

(** [for row in csv.reader(input_file): acc = body(acc, row)], with the
    reader object threaded through the lines.  An exception of the reader
    or of the body ends the loop where it is raised. *)
Fixpoint for_each_row {A} (dialect : Dialect) (body : A → list string → res A)
    (self : ReaderObj) (input_iter : list string) (acc : A) : res A :=
  match input_iter with
  | [] =>
      if pending self then
        if strict dialect then Raise (CsvError "unexpected end of data")
        else body acc (fields (parse_save_field self))
      else Ok acc
  | lineobj :: rest =>
      self1 ← process_line dialect self lineobj;
      self2 ← parse_process_char dialect self1 None;
      if bool_decide (state self2 = START_RECORD) then
        acc' ← body acc (fields self2);
        for_each_row dialect body parse_reset rest acc'
      else for_each_row dialect body self2 rest acc
  end.

(** [list(csv.reader(input_file))] *)
Definition collect (rows : list (list string)) (row : list string)
    : res (list (list string)) :=
  Ok (rows ++ [row]).

Definition csv_rows (input_file : list string) : res (list (list string)) :=
  for_each_row excel collect parse_reset input_file [].

(** ** Text streams *)

(** Iterating an [IO[str]] gives its lines, each with its line feed; a last
    line without one is given as it is. *)
Fixpoint readlines_from (line : string) (text : string) : list string :=
  match text with
  | "" => if bool_decide (line = "") then [] else [line]
  | String c text' =>
      if bool_decide (c = LF) then (line +:+ String c "") :: readlines_from "" text'
      else readlines_from (line +:+ String c "") text'
  end.

Definition readlines (text : string) : list string := readlines_from "" text.

(** ** [csv.DictReader] *)

(** The values a row dictionary holds: a field, [None] (the [restval] of a
    column a short row lacks), or the list of surplus fields kept under
    the [restkey]. *)
Inductive value :=
| VNone
| VStr (s : string)
| VList (l : list string).

(** The dictionary of one row.  Its keys are the field names and, for a
    long row, the [restkey], which is Python's [None]. *)
Definition DictReader_row (fieldnames row : list string) : gmap (option string) value :=
  let d := foldl (λ d kv, <[Some kv.1 := VStr kv.2]> d) ∅ (zip fieldnames row) in
  let lf := length fieldnames in
  let lr := length row in
  if bool_decide (lf < lr) then <[None := VList (drop lf row)]> d
  else if bool_decide (lr < lf)
  then foldl (λ d key, <[Some key := VNone]> d) d (drop lr fieldnames)
  else d.

(** [row[key]] *)
Definition getitem (d : gmap (option string) value) (key : string) : res value :=
  match d !! Some key with
  | Some v => Ok v
  | None => Raise (KeyError key)
  end.

(** [v.split(',')]: only [str] has the method. *)
Definition value_split (v : value) : res (list string) :=
  match v with
  | VStr s => Ok (split ","%char s)
  | _ => Raise AttributeError
  end.

(** A value used as a dictionary key: [None] and strings are hashable,
    lists are not. *)
Definition as_key (v : value) : res (option string) :=
  match v with
  | VNone => Ok None
  | VStr s => Ok (Some s)
  | VList _ => Raise TypeError
  end.

(** One turn of the comprehension of [parse_package_to_repos_file] on the
    rows of the plain reader underneath the [DictReader]: the first row
    becomes [fieldnames], empty rows are passed over, any other row adds
    its entry.  The key expression is evaluated before the value
    expression (Python 3.8 and later), and the key is hashed when the
    entry is stored. *)
Definition package_to_repos_body
    (acc : option (list string) * gmap (option string) (list string))
    (row : list string)
    : res (option (list string) * gmap (option string) (list string)) :=
  match acc.1 with
  | None => Ok (Some row, acc.2)
  | Some fieldnames =>
      match row with
      | [] => Ok acc
      | _ =>
          let d := DictReader_row fieldnames row in
          package ← getitem d "package";
          all_repos ← getitem d "all_repos";
          repos ← value_split all_repos;
          key ← as_key package;
          Ok (Some fieldnames, <[key := repos]> acc.2)
      end
  end.

Definition parse_package_to_repos_file (input_file : list string)
    : res (gmap (option string) (list string)) :=
  acc ← for_each_row excel package_to_repos_body parse_reset input_file (None, ∅);
  Ok acc.2.

(** ** [invert_mapping] and [parse_repo_to_package_file] *)

(** [d.setdefault(key, dflt)]: the value under [key], bound to [dflt]
    first when the key is new. *)
Definition setdefault `{Countable K} {V} (key : K) (dflt : V) (d : gmap K V)
    : V * gmap K V :=
  match d !! key with
  | Some v => (v, d)
  | None => (dflt, <[key := dflt]> d)
  end.

(** [result.setdefault(repo, set()).add(package)]: the set is shared with
    the dictionary, so adding to it updates the binding of [repo]. *)
Definition setdefault_add `{Countable R, Countable P}
    (result : gmap R (gset P)) (repo : R) (package : P) : gmap R (gset P) :=
  let '(s, result) := setdefault repo ∅ result in
  <[repo := s ∪ {[package]}]> result.

(** The two loops of [invert_mapping] over [packages.items()]. *)
Definition invert_items `{Countable R, Countable P}
    (items : list (P * list R)) : gmap R (gset P) :=
  foldl (λ result item,
           foldl (λ result repo, setdefault_add result repo item.1) result item.2)
        ∅ items.

Definition invert_mapping `{Countable R, Countable P}
    (packages : gmap P (list R)) : gmap R (gset P) :=
  invert_items (map_to_list packages).

Definition repo_to_package_body (result : gmap string (gset string))
    (row : list string) : res (gmap string (gset string)) :=
  match row !! 1 with
  | None => Raise IndexError
  | Some repo =>
      match row !! 0 with
      | None => Raise IndexError
      | Some package => Ok (setdefault_add result repo package)
      end
  end.

Definition parse_repo_to_package_file (input_file : list string)
    : res (gmap string (gset string)) :=
  for_each_row excel repo_to_package_body parse_reset input_file ∅.

(** ** Paths: [str.rfind], slices, [os.path.basename], [os.path.splitext] *)

(** [s.rfind(c)], with [None] for Python's [-1]. *)
Fixpoint rfind (c : ascii) (s : string) : option nat :=
  match s with
  | "" => None
  | String d s' =>
      match rfind c s' with
      | Some i => Some (S i)
      | None => if bool_decide (d = c) then Some 0 else None
      end
  end.

(** [s[:n]] and [s[n:]] *)
Fixpoint str_take (n : nat) (s : string) : string :=
  match n, s with
  | S n', String c s' => String c (str_take n' s')
  | _, _ => ""
  end.

Fixpoint str_drop (n : nat) (s : string) : string :=
  match n, s with
  | S n', String _ s' => str_drop n' s'
  | _, _ => s
  end.

(** posixpath.basename: [i = p.rfind('/') + 1; return p[i:]] *)
Definition basename (p : string) : string :=
  match rfind "/"%char p with
  | Some sepIndex => str_drop (S sepIndex) p
  | None => p
  end.

(** The loop of genericpath._splitext that skips leading dots: it looks at
    the [n] characters from [filenameIndex] on and reports whether one of
    them is not a dot. *)
Fixpoint has_non_dot (n : nat) (s : string) : bool :=
  match n, s with
  | S n', String c s' => if bool_decide (c = "."%char) then has_non_dot n' s' else true
  | _, _ => false
  end.

(** posixpath.splitext *)
Definition splitext (p : string) : string * string :=
  match rfind "."%char p with
  | None => (p, "")
  | Some dotIndex =>
      let filenameIndex := from_option S 0 (rfind "/"%char p) in
      if bool_decide (filenameIndex ≤ dotIndex)
         && has_non_dot (dotIndex - filenameIndex) (str_drop filenameIndex p)
      then (str_take dotIndex p, str_drop dotIndex p)
      else (p, "")
  end.

(** ** [glob.iglob] on [<details_dir>/*.json] *)

(** fnmatch on a name, for patterns made of [*], [?] and literal
    characters (no bracket expressions). *)
Fixpoint fnmatch (pat : string) (name : string) : bool :=
  match pat with
  | "" => bool_decide (name = "")
  | String p pat' =>
      if bool_decide (p = "*"%char) then
        (fix star (name : string) : bool :=
           fnmatch pat' name
           || match name with
              | "" => false
              | String _ name' => star name'
              end) name
      else match name with
           | "" => false
           | String c name' =>
               (bool_decide (p = "?"%char) || bool_decide (p = c)) && fnmatch pat' name'
           end
  end.

(** glob._ishidden: names that start with a dot are left out by a pattern
    that does not start with one. *)
Definition ishidden (name : string) : bool :=
  match name with
  | String c _ => bool_decide (c = "."%char)
  | "" => false
  end.

(** What a path resolves to.  A regular file either cannot be opened, or
    opens and cannot be decoded as text, or opens and reads as a text. *)
Inductive contents :=
| NoPermission
| Undecodable
| Text (s : string).

Inductive node :=
| RegularFile (c : contents)
| Directory
| Special.

(** The file system the generator runs on: the names [os.scandir] lists in
    a directory ([None] when it cannot be listed, which glob passes over in
    silence) and what a path resolves to ([None] when nothing is there). *)
Record filesystem := {
  scandir : string → option (list string);
  resolve : string → option node
}.

(** os.path.isfile *)
Definition isfile (fs : filesystem) (path : string) : bool :=
  match resolve fs path with
  | Some (RegularFile _) => true
  | _ => false
  end.

(** [open(path, 'r')]: the text its [read()] gives, [None] when the bytes
    do not decode.  Only regular files can be opened for reading here. *)
Definition open_file (fs : filesystem) (path : string) : res (option string) :=
  match resolve fs path with
  | Some (RegularFile (Text s)) => Ok (Some s)
  | Some (RegularFile Undecodable) => Ok None
  | _ => Raise OSError
  end.

(** os.path.join of a directory that does not end with a slash and a name. *)
Definition join (dirname name : string) : string := dirname +:+ "/" +:+ name.

(** The names glob keeps of a directory listing for the pattern [*.json]. *)
Definition glob_match (name : string) : bool :=
  negb (ishidden name) && fnmatch "*.json" name.

(** [glob.iglob('{}/*.json'.format(details_dir))], for a [details_dir]
    that glob takes as it is written ([literal_dir] below: no pattern
    character in it, not empty, no slash at its end): the directory is
    listed once, and the names the pattern keeps are joined to it, in
    listing order.  The statements that read the listing off [scandir]
    assume such a directory. *)
Definition iglob (fs : filesystem) (details_dir : string) : list string :=
  match scandir fs details_dir with
  | Some names => join details_dir <$> filter (λ name, glob_match name = true) names
  | None => []
  end.

(** ** [parse_package_details] as a generator *)

Inductive event :=
| EvOpen (path : string)
| EvRead (path : string)
| EvClose (path : string).

(** A generator object: not started, suspended at the [yield] inside the
    [with] block (holding [details_file] and the paths still to visit), or
    finished. *)
Inductive generator :=
| Created (details_dir : string)
| Suspended (details_file : string) (paths : list string)
| Finished.

Inductive outcome (J : Type) :=
| Yield (package_name : string) (package_details : J)
| StopIteration
| Raised (e : exception).
Arguments Yield {J} package_name package_details.
Arguments StopIteration {J}.
Arguments Raised {J} e.

Section details.
Context {J : Type}.
(** [json.loads]: the parsed value, or [None] for a JSONDecodeError. *)
Variable json_loads : string → option J.
Variable fs : filesystem.

(** [json.load(details_file)]: read the whole file, then parse it. *)
Definition json_load (details_file : option string) : res J :=
  match details_file with
  | None => Raise UnicodeDecodeError
  | Some s =>
      match json_loads s with
      | Some package_details => Ok package_details
      | None => Raise JSONDecodeError
      end
  end.

(** The [for] loop from the path it is about to take up to the next
    [yield], the end of the loop, or an exception.  An exception inside
    the [with] block closes the file on its way out. *)
Fixpoint run_loop (paths : list string) : list event * outcome J * generator :=
  match paths with
  | [] => ([], StopIteration, Finished)
  | path :: paths' =>
      if isfile fs path then
        match open_file fs path with
        | Raise e => ([], Raised e, Finished)
        | Ok details_file =>
            let filename := basename path in
            let package_name := (splitext filename).1 in
            match json_load details_file with
            | Ok package_details =>
                ([EvOpen path; EvRead path],
                 Yield package_name package_details,
                 Suspended path paths')
            | Raise e =>
                ([EvOpen path; EvRead path; EvClose path], Raised e, Finished)
            end
        end
      else run_loop paths'
  end.

(** [next(gen)] *)
Definition next (gen : generator) : list event * outcome J * generator :=
  match gen with
  | Created details_dir => run_loop (iglob fs details_dir)
  | Suspended details_file paths =>
      let '(evs, out, gen') := run_loop paths in
      (EvClose details_file :: evs, out, gen')
  | Finished => ([], StopIteration, Finished)
  end.

(** [gen.close()], also what dropping the generator does: GeneratorExit
    is raised at the [yield], and the [with] block closes the file. *)
Definition close (gen : generator) : list event * generator :=
  match gen with
  | Suspended details_file _ => ([EvClose details_file], Finished)
  | _ => ([], Finished)
  end.

(** [n] calls of [next], with the events and outcomes in order. *)
Fixpoint iterate (n : nat) (gen : generator)
    : list event * list (outcome J) * generator :=
  match n with
  | 0 => ([], [], gen)
  | S n' =>
      let '(evs, out, gen1) := next gen in
      let '(evs', outs, gen2) := iterate n' gen1 in
      (evs ++ evs', out :: outs, gen2)
  end.

(** The file the generator holds open. *)
Definition held (gen : generator) : list string :=
  match gen with
  | Suspended details_file _ => [details_file]
  | _ => []
  end.
End details.

Definition parse_package_details (details_dir : string) : generator :=
  Created details_dir.

(** The handles a trace leaves open, when it starts from [opened]. *)
Fixpoint open_after (opened : list string) (trace : list event) : list string :=
  match trace with
  | [] => opened
  | EvOpen path :: trace' => open_after (opened ++ [path]) trace'
  | EvRead _ :: trace' => open_after opened trace'
  | EvClose path :: trace' =>
      open_after (filter (λ p, p ≠ path) opened) trace'
  end.

(** ** Parsed JSON, and a reader for JSON texts

    [ParsedJSON] of parse.py.  The theorems about [parse_package_details]
    hold for any [json_loads]; [loads] below is the one the examples run
    with.  It reads the JSON grammar as Python's decoder does, without the
    [\u] escapes and the constants [NaN] and [Infinity]; a number with a
    fraction or an exponent is kept as its lexeme. *)

#[local] Set Warnings "-register-all".

Inductive json :=
| JNull
| JBool (b : bool)
| JInt (z : Z)
| JFloat (lexeme : string)
| JStr (s : string)
| JArr (items : list json)
| JObj (members : list (string * json)).

Definition is_ws (c : ascii) : bool :=
  bool_decide (c = " "%char) || bool_decide (c = "009"%char) || is_newline c.

Fixpoint skip_ws (s : string) : string :=
  match s with
  | String c s' => if is_ws c then skip_ws s' else s
  | "" => ""
  end.

Definition next_char (s : string) : option (ascii * string) :=
  match skip_ws s with
  | String c r => Some (c, r)
  | "" => None
  end.

Definition is_digit (c : ascii) : bool :=
  bool_decide (48 ≤ nat_of_ascii c) && bool_decide (nat_of_ascii c ≤ 57).

Fixpoint scan_digits (s : string) : string * string :=
  match s with
  | String c s' =>
      if is_digit c then let '(ds, r) := scan_digits s' in (String c ds, r)
      else ("", s)
  | "" => ("", "")
  end.

Fixpoint digits_value (acc : Z) (ds : string) : Z :=
  match ds with
  | String c ds' => digits_value (10 * acc + Z.of_nat (nat_of_ascii c - 48)) ds'
  | "" => acc
  end.

Definition scan_sign (signs : list ascii) (s : string) : string * string :=
  match s with
  | String c s' => if bool_decide (c ∈ signs) then (String c "", s') else ("", s)
  | "" => ("", "")
  end.

(** A number: an optional minus sign; a zero, or a nonzero digit and more
    digits; then optionally a dot and digits; then optionally [e] or [E],
    a sign and digits. *)
Definition scan_number (s : string) : option (json * string) :=
  let '(sign, s1) := scan_sign ["-"%char] s in
  let '(ds, s2) := scan_digits s1 in
  match ds with
  | "" => None
  | String d ds' =>
      let '(int, s2) :=
        if bool_decide (d = "0"%char) then ("0", ds' +:+ s2) else (ds, s2) in
      let '(frac, s3) :=
        match s2 with
        | String c r =>
            let '(fd, r') := scan_digits r in
            if bool_decide (c = "."%char) && negb (bool_decide (fd = ""))
            then (String c fd, r') else ("", s2)
        | "" => ("", s2)
        end in
      let '(exp, s4) :=
        match s3 with
        | String c r =>
            let '(sg, r1) := scan_sign ["-"%char; "+"%char] r in
            let '(ed, r2) := scan_digits r1 in
            if bool_decide (c ∈ ["e"%char; "E"%char]) && negb (bool_decide (ed = ""))
            then (String c (sg +:+ ed), r2) else ("", s3)
        | "" => ("", s3)
        end in
      if bool_decide (frac = "") && bool_decide (exp = "")
      then Some (JInt (if bool_decide (sign = "") then digits_value 0 int
                       else - digits_value 0 int), s4)
      else Some (JFloat (sign +:+ int +:+ frac +:+ exp), s4)
  end.

Definition unescape (c : ascii) : option ascii :=
  if bool_decide (c ∈ ["034"%char; "\"%char; "/"%char]) then Some c
  else if bool_decide (c = "b"%char) then Some "008"%char
  else if bool_decide (c = "f"%char) then Some "012"%char
  else if bool_decide (c = "n"%char) then Some LF
  else if bool_decide (c = "r"%char) then Some CR
  else if bool_decide (c = "t"%char) then Some "009"%char
  else None.

(** The characters of a string up to its closing quote. *)
Fixpoint scan_string (s : string) : option (string * string) :=
  match s with
  | "" => None
  | String c s' =>
      if bool_decide (c = "034"%char) then Some ("", s')
      else if bool_decide (c = "\"%char) then
        match s' with
        | String e s'' =>
            match unescape e, scan_string s'' with
            | Some c', Some (str, r) => Some (String c' str, r)
            | _, _ => None
            end
        | "" => None
        end
      else if bool_decide (nat_of_ascii c < 32) then None
      else match scan_string s' with
           | Some (str, r) => Some (String c str, r)
           | None => None
           end
  end.

(** [d[k] = v] on a dictionary kept in insertion order. *)
Fixpoint obj_set (k : string) (v : json) (members : list (string * json))
    : list (string * json) :=
  match members with
  | [] => [(k, v)]
  | (k', v') :: members' =>
      if bool_decide (k' = k) then (k, v) :: members'
      else (k', v') :: obj_set k v members'
  end.

Definition expect (word : string) (v : json) (s : string) : option (json * string) :=
  if bool_decide (str_take (String.length word) s = word)
  then Some (v, str_drop (String.length word) s) else None.

Fixpoint parse_value (fuel : nat) (s : string) : option (json * string) :=
  match fuel with
  | 0 => None
  | S fuel' =>
      match next_char s with
      | None => None
      | Some (c, r) =>
          if bool_decide (c = "{"%char) then
            match next_char r with
            | Some (c', r') =>
                if bool_decide (c' = "}"%char) then Some (JObj [], r')
                else parse_members fuel' [] r
            | None => None
            end
          else if bool_decide (c = "["%char) then
            match next_char r with
            | Some (c', r') =>
                if bool_decide (c' = "]"%char) then Some (JArr [], r')
                else parse_elements fuel' [] r
            | None => None
            end
          else if bool_decide (c = "034"%char) then
            match scan_string r with
            | Some (str, r') => Some (JStr str, r')
            | None => None
            end
          else if bool_decide (c = "n"%char) then expect "ull" JNull r
          else if bool_decide (c = "t"%char) then expect "rue" (JBool true) r
          else if bool_decide (c = "f"%char) then expect "alse" (JBool false) r
          else scan_number (String c r)
      end
  end
with parse_elements (fuel : nat) (items : list json) (s : string)
    : option (json * string) :=
  match fuel with
  | 0 => None
  | S fuel' =>
      match parse_value fuel' s with
      | None => None
      | Some (v, r) =>
          match next_char r with
          | Some (c, r') =>
              if bool_decide (c = ","%char) then parse_elements fuel' (items ++ [v]) r'
              else if bool_decide (c = "]"%char) then Some (JArr (items ++ [v]), r')
              else None
          | None => None
          end
      end
  end
with parse_members (fuel : nat) (members : list (string * json)) (s : string)
    : option (json * string) :=
  match fuel with
  | 0 => None
  | S fuel' =>
      match next_char s with
      | Some (q, r) =>
          if bool_decide (q = "034"%char) then
            match scan_string r with
            | None => None
            | Some (k, r1) =>
                match next_char r1 with
                | Some (colon, r2) =>
                    if bool_decide (colon = ":"%char) then
                      match parse_value fuel' r2 with
                      | None => None
                      | Some (v, r3) =>
                          match next_char r3 with
                          | Some (c, r4) =>
                              if bool_decide (c = ","%char)
                              then parse_members fuel' (obj_set k v members) r4
                              else if bool_decide (c = "}"%char)
                              then Some (JObj (obj_set k v members), r4)
                              else None
                          | None => None
                          end
                      end
                    else None
                | None => None
                end
            end
          else None
      | None => None
      end
  end.

(** [json.loads]: one value, with nothing but white space after it. *)
Definition loads (s : string) : option json :=
  match parse_value (S (String.length s)) s with
  | Some (v, r) => if bool_decide (skip_ws r = "") then Some v else None
  | None => None
  end.

(** ** The texts and directories of the examples *)

Definition nl : string := String LF "".
Definition dq : string := String "034"%char "".

(** [package,all_repos\np1,r1,r2\np2,r2] *)
Definition csv_unquoted : string :=
  "package,all_repos" +:+ nl +:+ "p1,r1,r2" +:+ nl +:+ "p2,r2".

(** The same with the second field of the first row quoted. *)
Definition csv_quoted : string :=
  "package,all_repos" +:+ nl +:+ "p1," +:+ dq +:+ "r1,r2" +:+ dq +:+ nl +:+ "p2,r2".

(** [p1,r1\np1,r2\np2,r2] *)
Definition csv_pairs : string :=
  "p1,r1" +:+ nl +:+ "p1,r2" +:+ nl +:+ "p2,r2".

(** A directory [d] given by the files and subdirectories in it. *)
Definition directory (entries : list (string * node)) : filesystem := {|
  scandir := λ dir, if bool_decide (dir = "d") then Some (entries.*1) else None;
  resolve := λ path,
    (λ found : nat * (string * node), found.2.2)
      <$> list_find (λ e, join "d" e.1 = path) entries
|}.

(** ** Notions the statements below are written with *)

(** [for row in rows: acc = body(acc, row)] over rows that are already
    read. *)
Fixpoint fold_rows {A} (body : A → list string → res A)
    (rows : list (list string)) (acc : A) : res A :=
  match rows with
  | [] => Ok acc
  | row :: rows' => acc' ← body acc row; fold_rows body rows' acc'
  end.

(** [row[key]] for a row of the [DictReader] with the given field names. *)
Definition row_value (fieldnames row : list string) (key : string) : res value :=
  getitem (DictReader_row fieldnames row) key.

(** The key a row is entered under: [row['package']]. *)
Definition row_key (fieldnames row : list string) : res (option string) :=
  row_value fieldnames row "package" ≫= as_key.

(** The rows a [DictReader] gives dictionaries for: it passes over the
    empty ones. *)
Definition data_rows (rows : list (list string)) : list (list string) :=
  filter (λ row, row ≠ []) rows.

(** [sep.join(pieces)] *)
Fixpoint str_join (sep : string) (pieces : list string) : string :=
  match pieces with
  | [] => ""
  | [piece] => piece
  | piece :: pieces' => piece +:+ sep +:+ str_join sep pieces'
  end.

(** The characters of a string. *)
Fixpoint chars (s : string) : list ascii :=
  match s with
  | "" => []
  | String c s' => c :: chars s'
  end.

(** [setdefault_add] over (repository, package) pairs in order. *)
Definition add_pairs `{Countable R, Countable P}
    (pairs : list (R * P)) (result : gmap R (gset P)) : gmap R (gset P) :=
  foldl (λ result rp, setdefault_add result rp.1 rp.2) result pairs.

(** The (repository, package) pairs [invert_mapping] goes through. *)
Definition item_pairs {R P} (items : list (P * list R)) : list (R * P) :=
  items ≫= λ item, (λ repo, (repo, item.1)) <$> item.2.

(** The pair a row with two columns or more stands for in
    [parse_repo_to_package_file]. *)
Definition row_pair (row : list string) : option (string * string) :=
  repo ← row !! 1; package ← row !! 0; Some (repo, package).

(** The packages paired with [repo]. *)
Definition packages_of `{Countable R, Countable P}
    (repo : R) (pairs : list (R * P)) : gset P :=
  list_to_set (snd <$> filter (λ rp, rp.1 = repo) pairs).

(** [s.endswith(suffix)] and [s.startswith(prefix)] *)
Definition str_endswith (suffix s : string) : bool :=
  bool_decide (String.length suffix ≤ String.length s)
  && bool_decide (str_drop (String.length s - String.length suffix) s = suffix).

Definition str_startswith (prefix s : string) : bool :=
  bool_decide (str_take (String.length prefix) s = prefix).

(** The round trip of the specification on two texts: the inverse of what
    [parse_package_to_repos_file] reads from the first is what
    [parse_repo_to_package_file] reads from the second. *)
Definition roundtrip_agrees (text text' : string) : Prop :=
  ∃ packages repos,
    parse_package_to_repos_file (readlines text) = Ok packages
    ∧ parse_repo_to_package_file (readlines text') = Ok repos
    ∧ invert_mapping packages = (set_map Some <$> repos).

Section details_statements.
Context {J : Type} (json_loads : string → option J) (fs : filesystem).

(** The specification's reading of the handles: whenever a pair has just
    been produced, the trace so far leaves no file open. *)
Definition closed_before_yield (details_dir : string) : Prop :=
  ∀ n trace outs gen package_name package_details,
    iterate json_loads fs n (parse_package_details details_dir) = (trace, outs, gen) →
    last outs = Some (Yield package_name package_details) →
    open_after [] trace = [].

(** The specification's reading of the selection: every listed name that
    ends with [.json] and is a regular file with a JSON text comes out
    as a pair at some step. *)
Definition emits_every_json_file (details_dir : string) : Prop :=
  ∀ names name s package_details,
    scandir fs details_dir = Some names →
    name ∈ names →
    str_endswith ".json" name = true →
    resolve fs (join details_dir name) = Some (RegularFile (Text s)) →
    json_loads s = Some package_details →
    ∃ n, Yield (str_take (String.length name - 5) name) package_details
           ∈ (iterate json_loads fs n (parse_package_details details_dir)).1.2.

(** What visiting one regular file gives: its pair, or the exception of
    [open] or of [json.load]. *)
Definition visit (path : string) : res (string * J) :=
  details_file ← open_file fs path;
  package_details ← json_load json_loads details_file;
  Ok ((splitext (basename path)).1, package_details).

(** The pair of a listed name, as the amended selection has it: the name
    ends with [.json] and does not start with a dot, the path is a
    regular file, and the pair is the name without its last five
    characters with the parsed text. *)
Definition details_of (details_dir name : string) : option (string * J) :=
  if str_endswith ".json" name && negb (str_startswith "." name) then
    match resolve fs (join details_dir name) with
    | Some (RegularFile (Text s)) =>
        (λ package_details, (str_take (String.length name - 5) name, package_details))
          <$> json_loads s
    | _ => None
    end
  else None.

Definition yield_pair (found : string * J) : outcome J := Yield found.1 found.2.
End details_statements.

(** The events of a file that was opened, read and closed. *)
Definition visited_block (path : string) : list event :=
  [EvOpen path; EvRead path; EvClose path].

(** The events of a file that is opened and read, and still open. *)
Definition open_block (path : string) : list event :=
  [EvOpen path; EvRead path].

(** The key and the value the comprehension of
    [parse_package_to_repos_file] computes for a row. *)
Definition row_entry (fieldnames row : list string)
    : res (option string * list string) :=
  package ← row_value fieldnames row "package";
  all_repos ← row_value fieldnames row "all_repos";
  repos ← value_split all_repos;
  key ← as_key package;
  Ok (key, repos).

(** [d[e.1] = e.2] *)
Definition put `{Countable K} {V} (d : gmap K V) (e : K * V) : gmap K V :=
  <[e.1 := e.2]> d.

(** A row is entered as [e]: under its [package] value, with the pieces of
    its [all_repos] value. *)
Definition entry_of (header row : list string) (e : option string * list string)
    : Prop :=
  row_key header row = Ok e.1
  ∧ ∃ all_repos, row_value header row "all_repos" = Ok (VStr all_repos)
                 ∧ e.2 = split "," all_repos.

(** Values that are not the list kept under the [restkey]. *)
Definition plain (v : value) : Prop :=
  match v with
  | VList _ => False
  | _ => True
  end.

Definition plain_dict (d : gmap (option string) value) : Prop :=
  ∀ k v, d !! Some k = Some v → plain v.

(** A line without a line break inside. *)
Definition plain_line (line : string) : Prop :=
  Forall (λ c, is_newline c = false) (chars line).

(** The states the reader of the [excel] dialect can be in inside a line,
    with at most [n] characters in the field it is collecting. *)
Definition mid_line (n : nat) (self : ReaderObj) : Prop :=
  state self ∈ [START_RECORD; START_FIELD; IN_FIELD; IN_QUOTED_FIELD;
                QUOTE_IN_QUOTED_FIELD]
  ∧ String.length (field self) ≤ n.

#[global] Instance event_eq_dec : EqDecision event.
Proof. solve_decision. Defined.

(** How often an event occurs in a trace. *)
Definition occurrences (ev : event) (trace : list event) : nat :=
  length (filter (λ e, e = ev) trace).

Section generator_statements.
Context {J : Type} (json_loads : string → option J) (fs : filesystem).

(** The outcomes the paths still to visit give, up to the first exception;
    after them the generator is finished. *)
Fixpoint outcomes_of (paths : list string) : list (outcome J) :=
  match paths with
  | [] => []
  | path :: paths' =>
      if isfile fs path then
        match visit json_loads fs path with
        | Ok found => yield_pair found :: outcomes_of paths'
        | Raise e => [Raised e]
        end
      else outcomes_of paths'
  end.

(** The paths a generator has still to visit. *)
Definition remaining (gen : generator) : list string :=
  match gen with
  | Created details_dir => iglob fs details_dir
  | Suspended _ paths => paths
  | Finished => []
  end.

Definition is_yield (out : outcome J) : bool :=
  match out with
  | Yield _ _ => true
  | _ => false
  end.

(** What a run from [before] to [after] with the events [trace] keeps: the
    files opened so far are closed again, except the one [after] holds;
    they are among the paths [before] had to visit, in order; and the run
    has ended on a [yield] exactly when [after] holds a file, the one the
    yielded name comes from. *)
Definition trace_inv (before : generator) (trace : list event)
    (out : option (outcome J)) (after : generator) : Prop :=
  ∃ closed,
    (held before ≫= open_block) ++ trace
      = (closed ≫= visited_block) ++ (held after ≫= open_block)
    ∧ closed ++ held after ++ remaining after `sublist_of` held before ++ remaining before
    ∧ ∀ o, out = Some o →
        (is_yield o = true ↔ held after ≠ [])
        ∧ ∀ name v, o = Yield name v →
            ∃ path, held after = [path] ∧ name = (splitext (basename path)).1.
End generator_statements.

(** The directories of the examples. *)
Definition json_object_x1 : string := "{" +:+ dq +:+ "x" +:+ dq +:+ ":1}".

Definition dir_one : filesystem :=
  directory [("a.json", RegularFile (Text json_object_x1))].

Definition dir_hidden : filesystem :=
  directory [(".hidden.json", RegularFile (Text "1"))].

Definition dir_mixed : filesystem :=
  directory [("a.json", RegularFile (Text json_object_x1));
             ("sub.json", Directory);
             ("notes.txt", RegularFile (Text "x"));
             ("b.json", RegularFile (Text "[1,2,3]"))].

Definition dir_broken : filesystem :=
  directory [("a.json", RegularFile (Text json_object_x1));
             ("c.json", RegularFile (Text "{invalid}"));
             ("b.json", RegularFile (Text "[1,2,3]"))].

(** CSV texts of the examples: a header and four lines, one of them empty;
    a row with an empty [all_repos]; a header alone. *)
Definition csv_repeated : string :=
  "package,all_repos" +:+ nl +:+ "p,a" +:+ nl +:+ "q," +:+ dq +:+ "r2,r1,r2" +:+ dq
  +:+ nl +:+ nl +:+ "p,b".

Definition csv_empty_field : string :=
  "package,all_repos" +:+ nl +:+ "p,a" +:+ nl +:+ "p," +:+ nl +:+ "q,b".

Definition csv_header_only : string := "name,url" +:+ nl.

(** ** Notions of the further properties *)

(** A string without a comma, and a string without a double quote. *)
Definition comma_free (s : string) : Prop := ","%char ∉ chars s.

Definition unquoted (s : string) : Prop := "034"%char ∉ chars s.

(** What the reader keeps while it takes characters that are not the
    quote character: it is never inside a quoted field, and no field it
    has collected holds a comma. *)
Definition unquoted_inv (self : ReaderObj) : Prop :=
  state self ∈ [START_RECORD; START_FIELD; IN_FIELD; EAT_CRNL]
  ∧ Forall comma_free (fields self) ∧ comma_free (field self).

(** The text of a line the reader takes field by field: no quote
    character, no line break, shorter than the field limit. *)
Definition simple_body (body : string) : Prop :=
  Forall (λ c, c ≠ "034"%char ∧ is_newline c = false) (chars body)
  ∧ (N.of_nat (String.length body) < field_limit)%N.

(** The row of such a line: its pieces between the commas, and no field
    at all for a blank line. *)
Definition simple_row (body : string) : list string :=
  if bool_decide (body = "") then [] else split "," body.

(** A line of the stream with the given text: the text, with or without a
    line feed after it. *)
Definition line_of (body line : string) : Prop :=
  line = body ∨ line = body +:+ nl.

(** An error of the reader: [csv.Error] with some message. *)
Definition reader_error (e : exception) : Prop := ∃ message, e = CsvError message.

(** A line of a text stream: no line break but a line feed at its end. *)
Definition text_line (line : string) : Prop :=
  ∃ body, plain_line body ∧ (line = body ∨ line = body +:+ nl).

(** The reader between two lines: at the start of a record, or inside a
    quoted field of at most [n] characters. *)
Definition between_lines (n : nat) (self : ReaderObj) : Prop :=
  state self ∈ [START_RECORD; IN_QUOTED_FIELD] ∧ String.length (field self) ≤ n.

(** The path an event is about. *)
Definition event_path (ev : event) : string :=
  match ev with
  | EvOpen path | EvRead path | EvClose path => path
  end.

(** The package names among the outcomes of a run. *)
Definition yield_names {J} (outs : list (outcome J)) : list string :=
  omap (λ out, match out with Yield package_name _ => Some package_name | _ => None end) outs.

(** ** The directory the pattern names *)

(** glob.has_magic: the string holds one of the pattern characters [*],
    [?] and the opening bracket. *)
Definition has_magic (s : string) : bool :=
  existsb (λ c, bool_decide (c = "*"%char) || bool_decide (c = "?"%char)
                || bool_decide (c = "["%char)) (chars s).

(** [s.rstrip(c)] *)
Fixpoint rstrip (c : ascii) (s : string) : string :=
  match s with
  | "" => ""
  | String d s' =>
      match rstrip c s' with
      | "" => if bool_decide (d = c) then "" else String d ""
      | t => String d t
      end
  end.

(** posixpath.split: the path up to its last slash and the rest; the
    slashes at the end of the first part are dropped unless it is made of
    slashes only. *)
Definition path_split (p : string) : string * string :=
  let i := from_option S 0 (rfind "/"%char p) in
  let head := str_take i p in
  let tail := str_drop i p in
  (if negb (bool_decide (head = ""))
      && negb (forallb (λ c, bool_decide (c = "/"%char)) (chars head))
   then rstrip "/" head else head,
   tail).

(** The directory glob lists for the pattern [details_dir/*.json] of
    parse_package_details: the first part of the split pattern, when it
    holds no pattern character.  When it holds one, glob matches
    directories against it, and there is no single directory. *)
Definition glob_dirname (details_dir : string) : option string :=
  let dirname := (path_split (details_dir +:+ "/*.json")).1 in
  if has_magic dirname then None else Some dirname.

(** A directory glob takes as it is written: the directory it lists for
    the pattern is [details_dir] itself. *)
Definition literal_dir (details_dir : string) : Prop :=
  glob_dirname details_dir = Some details_dir.

(** * Proofs *)

(** Unfold the bind of [res]. *)
Ltac res_simpl := unfold mbind, res_mbind, res_bind in *; cbn [res_bind] in *.

Lemma res_bind_Ok {A B} (f : A → res B) (x : res A) b :
  x ≫= f = Ok b ↔ ∃ a, x = Ok a ∧ f a = Ok b.
Proof.
  destruct x as [a|e]; res_simpl.
  - split; [eauto|]. by intros (a' & [= <-] & ?).
  - split; [done|]. by intros (a' & ? & ?).
Qed.

Lemma fold_rows_app {A} (body : A → list string → res A) rows rows' acc :
  fold_rows body (rows ++ rows') acc = fold_rows body rows acc ≫= fold_rows body rows'.
Proof.
  revert acc. induction rows as [|row rows IH]; intros acc; [done|].
  cbn [fold_rows app]. destruct (body acc row) as [acc'|e]; res_simpl; [apply IH|done].
Qed.

(** ** Loops over the reader *)

Section reader.
Context {A : Type} (dialect : Dialect) (body : A → list string → res A).

Lemma pending_reset : pending parse_reset = false.
Proof. reflexivity. Qed.

(** The loop takes the rows one [next()] at a time. *)
Lemma for_each_row_next input : ∀ self acc,
  for_each_row dialect body self input acc
  = match Reader_iternext dialect self input with
    | Raise e => Raise e
    | Ok None => Ok acc
    | Ok (Some (row, rest)) =>
        acc' ← body acc row; for_each_row dialect body parse_reset rest acc'
    end.
Proof.
  induction input as [|line input IH]; intros self acc;
    cbn [for_each_row Reader_iternext].
  - destruct (pending self); [destruct (strict dialect); [done|]|done].
    destruct (body acc _) as [acc'|e]; res_simpl; [|done].
    cbn [for_each_row]. by rewrite pending_reset.
  - destruct (process_line dialect self line) as [self1|e]; [|done]. res_simpl.
    destruct (parse_process_char dialect self1 None) as [self2|e]; [|done].
    case_bool_decide; [done|apply IH].
Qed.

(** When the reader splits the input into rows, a loop over the reader
    is the loop over these rows. *)
Lemma for_each_row_rows input : ∀ self rows0 rows,
  for_each_row dialect collect self input rows0 = Ok rows →
  ∃ new, rows = rows0 ++ new
         ∧ ∀ acc, for_each_row dialect body self input acc = fold_rows body new acc.
Proof.
  induction input as [|line input IH]; intros self rows0 rows; cbn [for_each_row].
  - destruct (pending self); [destruct (strict dialect); [done|]|].
    + intros [= <-]. eexists [_]. split; [done|]. intros acc. cbn [fold_rows].
      by destruct (body acc _).
    + intros [= <-]. exists []. by rewrite app_nil_r.
  - destruct (process_line dialect self line) as [self1|e]; [|done]. res_simpl.
    destruct (parse_process_char dialect self1 None) as [self2|e]; [|done].
    case_bool_decide.
    + intros (new & -> & Hnew)%IH. exists (fields self2 :: new).
      split; [by rewrite <- app_assoc|]. intros acc. cbn [fold_rows].
      destruct (body acc (fields self2)); [apply Hnew|done].
    + apply IH.
Qed.

(** A loop over the reader that ends without an exception has gone
    through all the rows of the input. *)
Lemma for_each_row_Ok input : ∀ self acc r rows0,
  for_each_row dialect body self input acc = Ok r →
  ∃ new, for_each_row dialect collect self input rows0 = Ok (rows0 ++ new)
         ∧ fold_rows body new acc = Ok r.
Proof.
  induction input as [|line input IH]; intros self acc r rows0; cbn [for_each_row].
  - destruct (pending self); [destruct (strict dialect); [done|]|].
    + intros Hr. eexists [_]. split; [done|]. cbn [fold_rows]. by rewrite Hr.
    + intros [= <-]. exists []. by rewrite app_nil_r.
  - destruct (process_line dialect self line) as [self1|e]; [|done]. res_simpl.
    destruct (parse_process_char dialect self1 None) as [self2|e]; [|done].
    case_bool_decide.
    + destruct (body acc (fields self2)) as [acc'|e] eqn:Hbody; [|done].
      intros (new & Hnew & Hfold)%(IH _ _ _ (rows0 ++ [fields self2])).
      exists (fields self2 :: new). unfold collect at 1. cbn beta iota.
      rewrite Hnew, <- app_assoc. split; [done|].
      cbn [fold_rows]. by rewrite Hbody.
    + apply IH.
Qed.
End reader.

Lemma for_each_row_csv_rows {A} (body : A → list string → res A) input rows acc :
  csv_rows input = Ok rows →
  for_each_row excel body parse_reset input acc = fold_rows body rows acc.
Proof.
  intros (new & -> & Hnew)%(for_each_row_rows excel body). apply Hnew.
Qed.

Lemma for_each_row_Ok_csv_rows {A} (body : A → list string → res A) input acc r :
  for_each_row excel body parse_reset input acc = Ok r →
  ∃ rows, csv_rows input = Ok rows ∧ fold_rows body rows acc = Ok r.
Proof. intros (new & Hnew & Hfold)%(for_each_row_Ok excel body _ _ _ _ []). eauto. Qed.

Lemma fold_rows_invariant {A} (body : A → list string → res A) (I : A → Prop) rows :
  (∀ acc row acc', I acc → body acc row = Ok acc' → I acc') →
  ∀ acc r, I acc → fold_rows body rows acc = Ok r → I r.
Proof.
  intros Hbody. induction rows as [|row rows IH]; intros acc r Hacc; cbn [fold_rows].
  - by intros [= <-].
  - intros (acc' & Hrow & Hrest)%res_bind_Ok. eauto.
Qed.

(** ** [str.split] *)
Lemma split_nonempty sep s : split sep s ≠ [].
Proof.
  destruct s as [|c s]; cbn [split]; [done|].
  case_bool_decide; [done|]. by destruct (split sep s).
Qed.

Lemma split_empty sep : split sep "" = [""].
Proof. done. Qed.

Lemma str_join_cons sep piece pieces :
  pieces ≠ [] → str_join sep (piece :: pieces) = piece +:+ sep +:+ str_join sep pieces.
Proof. by destruct pieces. Qed.

Lemma str_join_split (sep : ascii) s : str_join (String sep "") (split sep s) = s.
Proof.
  induction s as [|c s IH]; [done|]. cbn [split].
  pose proof (split_nonempty sep s) as Hne.
  case_bool_decide as Hc.
  - subst c. rewrite str_join_cons, IH by done. done.
  - destruct (split sep s) as [|piece pieces]; [done|].
    destruct pieces as [|piece' pieces].
    + cbn in *. by rewrite IH.
    + rewrite str_join_cons in * by done. by rewrite <- IH.
Qed.

Lemma split_no_sep sep s : Forall (λ piece, sep ∉ chars piece) (split sep s).
Proof.
  induction s as [|c s IH]; cbn [split].
  - repeat constructor. cbn. apply not_elem_of_nil.
  - case_bool_decide as Hc.
    + constructor; [apply not_elem_of_nil | done].
    + destruct (split sep s) as [|piece pieces].
      * repeat constructor. cbn. rewrite elem_of_cons. intros [->|[]%elem_of_nil]. done.
      * inversion_clear IH as [|?? Hpiece Hpieces]. constructor; [|done].
        cbn. rewrite elem_of_cons. intros [->|?]; done.
Qed.

(** ** Rows of the [DictReader] *)
Section dict_row.
Implicit Types (d : gmap (option string) value) (fieldnames row : list string).

Lemma zip_rows_lookup (kvs : list (string * string)) d k :
  plain_dict d →
  let d' := foldl (λ d kv, <[Some kv.1 := VStr kv.2]> d) d kvs in
  plain_dict d' ∧ (k ∈ kvs.*1 ∨ is_Some (d !! Some k) → is_Some (d' !! Some k)).
Proof.
  revert d. induction kvs as [|[k' s] kvs IH]; intros d Hd; cbn [foldl].
  - split; [done|]. intros [[]%elem_of_nil|]; done.
  - destruct (IH (<[Some k' := VStr s]> d)) as [Hplain Hsome].
    { intros k0 v. rewrite lookup_insert. case_decide; [by intros [= <-]|apply Hd]. }
    split; [done|]. intros Hk. apply Hsome. cbn [fmap list_fmap fst] in Hk.
    rewrite lookup_insert. case_decide as Hkk; [right; eauto|].
    destruct Hk as [Hk|Hk]; [|by right].
    apply elem_of_cons in Hk as [->|Hk]; [done|by left].
Qed.

Lemma restval_lookup (keys : list string) d k :
  plain_dict d →
  let d' := foldl (λ d key, <[Some key := VNone]> d) d keys in
  plain_dict d' ∧ (k ∈ keys ∨ is_Some (d !! Some k) → is_Some (d' !! Some k)).
Proof.
  revert d. induction keys as [|k' keys IH]; intros d Hd; cbn [foldl].
  - split; [done|]. intros [[]%elem_of_nil|]; done.
  - destruct (IH (<[Some k' := VNone]> d)) as [Hplain Hsome].
    { intros k0 v. rewrite lookup_insert. case_decide; [by intros [= <-]|apply Hd]. }
    split; [done|]. intros Hk. apply Hsome.
    rewrite lookup_insert. case_decide as Hkk; [right; eauto|].
    destruct Hk as [Hk|Hk]; [|by right].
    apply elem_of_cons in Hk as [->|Hk]; [done|by left].
Qed.

Lemma fst_zip_take {A B} (l : list A) (k : list B) : (zip l k).*1 = take (length k) l.
Proof.
  revert k. induction l as [|x l IH]; intros [|y k]; cbn; try done.
  by rewrite <- IH.
Qed.

Lemma DictReader_row_lookup fieldnames row k :
  k ∈ fieldnames →
  ∃ v, DictReader_row fieldnames row !! Some k = Some v ∧ plain v.
Proof.
  intros Hk. unfold DictReader_row.
  destruct (zip_rows_lookup (zip fieldnames row) ∅ k) as [Hplain Hsome].
  { intros k0 v. by rewrite lookup_empty. }
  rewrite fst_zip_take in Hsome. cbn zeta in *.
  set (d := foldl _ ∅ (zip fieldnames row)) in *.
  assert (∀ d', plain_dict d' → is_Some (d' !! Some k) →
                ∃ v, d' !! Some k = Some v ∧ plain v) as Hfin.
  { intros d' Hd' [v Hv]. eauto. }
  case_bool_decide as Hlong; [|case_bool_decide as Hshort].
  - apply Hfin.
    + intros k0 v. rewrite lookup_insert_ne by done. apply Hplain.
    + rewrite lookup_insert_ne by done. apply Hsome. left.
      by rewrite take_ge by lia.
  - destruct (restval_lookup (drop (length row) fieldnames) d k Hplain) as [Hplain' Hsome'].
    apply Hfin; [done|]. apply Hsome'.
    rewrite <- (take_drop (length row) fieldnames) in Hk.
    apply elem_of_app in Hk as [Hk|Hk]; [right; apply Hsome|]; by left.
  - apply Hfin; [done|]. apply Hsome. left. by rewrite take_ge by lia.
Qed.

Lemma row_key_Ok fieldnames row :
  "package" ∈ fieldnames → ∃ key, row_key fieldnames row = Ok key.
Proof.
  intros (v & Hv & Hplain)%(DictReader_row_lookup _ row).
  unfold row_key, row_value, getitem. rewrite Hv. res_simpl.
  destruct v; [by eexists..|done].
Qed.
End dict_row.

(** ** The comprehension of [parse_package_to_repos_file] *)
Lemma package_to_repos_body_row fieldnames m row :
  row ≠ [] →
  package_to_repos_body (Some fieldnames, m) row
  = e ← row_entry fieldnames row; Ok (Some fieldnames, put m e).
Proof.
  intros Hrow. unfold package_to_repos_body, row_entry, row_key, row_value, put.
  cbn [fst snd]. destruct row as [|f row]; [done|]. res_simpl.
  destruct (getitem _ "package") as [package|]; [|done].
  destruct (getitem _ "all_repos") as [all_repos|]; [|done].
  destruct (value_split all_repos) as [repos|]; [|done].
  by destruct (as_key package).
Qed.

Lemma fold_rows_package_to_repos fieldnames rows : ∀ m entries,
  Forall2 (λ row e, row_entry fieldnames row = Ok e) (data_rows rows) entries →
  fold_rows package_to_repos_body rows (Some fieldnames, m)
  = Ok (Some fieldnames, foldl put m entries).
Proof.
  unfold data_rows. induction rows as [|row rows IH]; intros m entries Hentries.
  - apply Forall2_nil_inv_l in Hentries as ->. done.
  - cbn [fold_rows]. destruct (decide (row = [])) as [->|Hrow].
    + rewrite filter_cons_False in Hentries by naive_solver.
      cbn. by apply IH.
    + rewrite filter_cons_True in Hentries by done.
      apply Forall2_cons_inv_l in Hentries as (e & entries' & He & Hentries & ->).
      rewrite package_to_repos_body_row, He by done. res_simpl. cbn [foldl].
      by apply IH.
Qed.

Lemma fold_rows_package_to_repos_inv fieldnames rows : ∀ m r,
  fold_rows package_to_repos_body rows (Some fieldnames, m) = Ok r →
  ∃ entries,
    Forall2 (λ row e, row_entry fieldnames row = Ok e) (data_rows rows) entries
    ∧ r = (Some fieldnames, foldl put m entries).
Proof.
  unfold data_rows. induction rows as [|row rows IH]; intros m r; cbn [fold_rows].
  - intros [= <-]. exists []. split; [constructor|done].
  - destruct (decide (row = [])) as [->|Hrow].
    + rewrite filter_cons_False by naive_solver. cbn. apply IH.
    + rewrite filter_cons_True, package_to_repos_body_row by done.
      destruct (row_entry fieldnames row) as [e|] eqn:He; [|done]. res_simpl.
      intros (entries & Hentries & ->)%IH. exists (e :: entries).
      split; [by constructor|done].
Qed.

Lemma lookup_foldl_put `{Countable K} {V} (entries : list (K * V)) (m : gmap K V) k :
  foldl put m entries !! k
  = match last (filter (λ e, e.1 = k) entries) with
    | Some e => Some e.2
    | None => m !! k
    end.
Proof.
  revert m. induction entries as [|e entries IH]; intros m; [done|].
  cbn [foldl]. rewrite IH. unfold put. rewrite lookup_insert.
  destruct (decide (e.1 = k)) as [Hk|Hk].
  - rewrite filter_cons_True by done.
    rewrite last_cons. by destruct (last _).
  - by rewrite filter_cons_False by done.
Qed.

(** ** Adding pairs to a dictionary of sets *)

Section pairs.
Context `{Countable R, Countable P}.
Implicit Types (m : gmap R (gset P)) (pairs : list (R * P)).

Lemma lookup_setdefault_add m repo package r :
  setdefault_add m repo package !! r
  = if decide (repo = r) then Some (default ∅ (m !! repo) ∪ {[package]}) else m !! r.
Proof.
  unfold setdefault_add, setdefault.
  destruct (m !! repo) as [s|] eqn:Hrepo; simpl; rewrite lookup_insert;
    case_decide; try done.
  by rewrite lookup_insert_ne.
Qed.

Lemma elem_of_packages_of repo pairs p :
  p ∈ packages_of repo pairs ↔ (repo, p) ∈ pairs.
Proof.
  unfold packages_of. rewrite elem_of_list_to_set, list_elem_of_fmap. split.
  - intros [[r q] [Hp Hin]]. rewrite list_elem_of_filter in Hin.
    destruct Hin as [Hr Hin]. simpl in *. by subst.
  - intros Hin. exists (repo, p). split; [done|]. by apply list_elem_of_filter.
Qed.

Lemma packages_of_cons repo p pairs r :
  packages_of r ((repo, p) :: pairs)
  = (if decide (repo = r) then {[p]} else ∅) ∪ packages_of r pairs.
Proof.
  apply set_eq. intros q. rewrite elem_of_union, !elem_of_packages_of, elem_of_cons.
  case_decide; set_solver.
Qed.

Lemma packages_of_fresh r pairs : r ∉ pairs.*1 → packages_of r pairs = ∅.
Proof.
  intros Hr. apply set_eq. intros p. rewrite elem_of_packages_of. split.
  - intros Hin. destruct Hr. apply list_elem_of_fmap. by exists (r, p).
  - intros []%not_elem_of_empty.
Qed.

Lemma lookup_add_pairs pairs m r :
  add_pairs pairs m !! r
  = if decide (r ∈ pairs.*1) then Some (default ∅ (m !! r) ∪ packages_of r pairs)
    else m !! r.
Proof.
  revert m. induction pairs as [|[repo p] pairs IH]; intros m.
  - rewrite decide_False; [done|]. rewrite fmap_nil. apply not_elem_of_nil.
  - change (add_pairs ((repo, p) :: pairs) m)
      with (add_pairs pairs (setdefault_add m repo p)).
    rewrite IH, lookup_setdefault_add, packages_of_cons, fmap_cons.
    cbn [fst]. destruct (decide (repo = r)) as [->|Hne].
    + rewrite (decide_True (P := r ∈ r :: pairs.*1)) by apply list_elem_of_here.
      case_decide as Hin; cbn [default id]; f_equal; [set_solver|].
      rewrite (packages_of_fresh r pairs Hin). set_solver.
    + destruct (decide (r ∈ pairs.*1)) as [Hin|Hin].
      * rewrite decide_True by (by apply list_elem_of_further).
        f_equal. set_solver.
      * rewrite decide_False; [done|]. intros [?|?]%elem_of_cons; congruence.
Qed.

Lemma add_pairs_app pairs pairs' m :
  add_pairs (pairs ++ pairs') m = add_pairs pairs' (add_pairs pairs m).
Proof. apply foldl_app. Qed.

Lemma invert_items_add_pairs (items : list (P * list R)) :
  invert_items items = add_pairs (item_pairs items) ∅.
Proof.
  unfold invert_items. generalize (∅ : gmap R (gset P)).
  induction items as [|[p repos] items IH]; intros m; [done|].
  simpl. rewrite IH. unfold item_pairs. simpl. rewrite add_pairs_app. f_equal.
  clear. revert m. induction repos as [|r repos IH]; intros m; [done|].
  simpl. by rewrite IH.
Qed.

Lemma elem_of_item_pairs (items : list (P * list R)) r p :
  (r, p) ∈ item_pairs items ↔ ∃ repos, (p, repos) ∈ items ∧ r ∈ repos.
Proof.
  unfold item_pairs. rewrite list_elem_of_bind. split.
  - intros [[q repos] [Hin Hitem]]. simpl in *.
    apply list_elem_of_fmap in Hin as [r' [[= -> ->] Hr]]. eauto.
  - intros [repos [Hitem Hr]]. exists (p, repos). split; [|done].
    simpl. apply list_elem_of_fmap. eauto.
Qed.

Lemma lookup_invert_mapping (packages : gmap P (list R)) r :
  invert_mapping packages !! r
  = if decide (∃ p repos, packages !! p = Some repos ∧ r ∈ repos)
    then Some (packages_of r (item_pairs (map_to_list packages)))
    else None.
Proof.
  unfold invert_mapping. rewrite invert_items_add_pairs, lookup_add_pairs.
  rewrite lookup_empty. simpl.
  assert (r ∈ (item_pairs (map_to_list packages)).*1
          ↔ ∃ p repos, packages !! p = Some repos ∧ r ∈ repos) as Hiff.
  { rewrite list_elem_of_fmap. split.
    - intros [[r' p] [-> Hin]]. apply elem_of_item_pairs in Hin as [repos [Hin Hr]].
      apply elem_of_map_to_list in Hin. eauto.
    - intros (p & repos & Hp & Hr). exists (r, p). split; [done|].
      apply elem_of_item_pairs. exists repos. by rewrite elem_of_map_to_list. }
  destruct (decide (r ∈ (item_pairs (map_to_list packages)).*1)) as [Hin|Hin].
  - rewrite decide_True by by apply Hiff. f_equal. set_solver.
  - rewrite decide_False; [done|]. by rewrite <- Hiff.
Qed.
End pairs.

(** ** Strings and paths *)
Lemma append_empty_l t : "" +:+ t = t.
Proof. reflexivity. Qed.

Lemma append_String c s t : String c s +:+ t = String c (s +:+ t).
Proof. reflexivity. Qed.

Lemma str_length_app s t : String.length (s +:+ t) = String.length s + String.length t.
Proof. induction s as [|c s IH]; simpl; [done|by rewrite IH]. Qed.

Lemma str_drop_app s t : str_drop (String.length s) (s +:+ t) = t.
Proof. induction s as [|c s IH]; [by destruct t|done]. Qed.

Lemma str_take_app s t : str_take (String.length s) (s +:+ t) = s.
Proof. induction s as [|c s IH]; simpl; [by destruct t|by rewrite IH]. Qed.

Lemma str_take_drop n s : str_take n s +:+ str_drop n s = s.
Proof.
  revert s. induction n as [|n IH]; intros [|c s]; try done.
  change (String c (str_take n s +:+ str_drop n s) = String c s). by rewrite IH.
Qed.

Lemma length_str_drop n s : String.length (str_drop n s) = String.length s - n.
Proof. revert s. induction n as [|n IH]; intros [|c s]; simpl; try done. Qed.

Lemma length_str_take n s : n ≤ String.length s → String.length (str_take n s) = n.
Proof.
  revert s. induction n as [|n IH]; intros [|c s]; simpl; try done; try lia.
  intros Hn. rewrite IH; lia.
Qed.

Lemma chars_app s t : chars (s +:+ t) = chars s ++ chars t.
Proof. induction s as [|c s IH]; simpl; [done|by rewrite IH]. Qed.

Lemma str_endswith_true suffix s :
  str_endswith suffix s = true ↔ ∃ stem, s = stem +:+ suffix.
Proof.
  unfold str_endswith. rewrite andb_true_iff, !bool_decide_eq_true. split.
  - intros [Hlen Hdrop]. exists (str_take (String.length s - String.length suffix) s).
    rewrite <- Hdrop at 2. by rewrite str_take_drop.
  - intros [stem ->]. rewrite str_length_app. split; [lia|].
    replace (String.length stem + String.length suffix - String.length suffix)
      with (String.length stem) by lia.
    apply str_drop_app.
Qed.

Lemma str_startswith_dot name : str_startswith "." name = ishidden name.
Proof.
  unfold str_startswith. destruct name as [|c name]; [done|]. cbn.
  destruct name; apply bool_decide_ext; split; intros H; try congruence.
Qed.

Lemma rfind_None c s : rfind c s = None ↔ c ∉ chars s.
Proof.
  induction s as [|d s IH]; simpl.
  - split; [intros _; apply not_elem_of_nil|done].
  - rewrite not_elem_of_cons, <- IH. destruct (rfind c s) as [i|].
    + split; [done|]. by intros [_ ?].
    + case_bool_decide; split; try done. by intros [? _].
Qed.

Lemma rfind_app c s t :
  rfind c (s +:+ t)
  = match rfind c t with
    | Some i => Some (String.length s + i)
    | None => rfind c s
    end.
Proof.
  induction s as [|d s IH]; [rewrite append_empty_l; by destruct (rfind c t)|].
  rewrite append_String. simpl. rewrite IH. by destruct (rfind c t).
Qed.

Lemma str_drop_sep dirname c name :
  str_drop (S (String.length dirname)) (dirname +:+ String c name) = name.
Proof. induction dirname as [|d dirname IH]; [by destruct name|apply IH]. Qed.

Lemma basename_join dirname name : "/"%char ∉ chars name → basename (join dirname name) = name.
Proof.
  intros Hname%rfind_None. unfold basename, join. rewrite rfind_app.
  change ("/" +:+ name) with (String "/" name).
  assert (rfind "/" (String "/" name) = Some 0) as ->.
  { simpl. by rewrite Hname. }
  rewrite Nat.add_0_r. apply str_drop_sep.
Qed.

Lemma splitext_json stem :
  "/"%char ∉ chars (stem +:+ ".json") →
  ishidden (stem +:+ ".json") = false →
  splitext (stem +:+ ".json") = (stem, ".json").
Proof.
  intros Hslash%rfind_None Hhidden. unfold splitext.
  rewrite Hslash, rfind_app.
  assert (rfind "." ".json" = Some 0) as -> by done.
  rewrite Nat.add_0_r, str_take_app, str_drop_app.
  cbn [from_option]. rewrite Nat.sub_0_r, bool_decide_eq_true_2 by lia.
  destruct stem as [|c stem]; [done|].
  rewrite append_String in *. simpl in *. by rewrite Hhidden.
Qed.

(** ** The pattern [*.json] *)
Lemma fnmatch_json_literal name : fnmatch ".json" name = bool_decide (name = ".json").
Proof.
  destruct name as [|c1 [|c2 [|c3 [|c4 [|c5 [|c6 name]]]]]]; cbn;
    repeat (case_bool_decide; cbn; try done); subst; try done; congruence.
Qed.

Lemma fnmatch_star pat name :
  fnmatch (String "*" pat) name
  = fnmatch pat name
    || match name with
       | "" => false
       | String _ name' => fnmatch (String "*" pat) name'
       end.
Proof. by destruct name. Qed.

Lemma fnmatch_star_json name :
  fnmatch "*.json" name = true ↔ ∃ stem, name = stem +:+ ".json".
Proof.
  induction name as [|c name IH]; rewrite fnmatch_star, fnmatch_json_literal.
  - rewrite orb_false_r, bool_decide_eq_true. split; [done|]. by intros [[|??] ?].
  - rewrite orb_true_iff, IH, bool_decide_eq_true. split.
    + intros [->|[stem ->]]; [by exists ""|by exists (String c stem)].
    + intros [[|d stem] Heq]; [by left|]. right. exists stem.
      rewrite append_String in Heq. by injection Heq.
Qed.

Lemma glob_match_spec name :
  glob_match name = str_endswith ".json" name && negb (str_startswith "." name).
Proof.
  unfold glob_match. rewrite str_startswith_dot, andb_comm. f_equal.
  apply eq_true_iff_eq. by rewrite fnmatch_star_json, str_endswith_true.
Qed.

(** ** One line of CSV *)

Lemma parse_add_char_Ok self c n :
  String.length (field self) ≤ n → (N.of_nat n < field_limit)%N →
  parse_add_char self c
  = Ok {| state := state self; fields := fields self; field := field self +:+ String c "" |}.
Proof.
  intros Hlen Hn. unfold parse_add_char.
  destruct (N.leb_spec field_limit (N.of_nat (String.length (field self)))); [lia|done].
Qed.

Lemma length_snoc s c : String.length (s +:+ String c "") = S (String.length s).
Proof. rewrite str_length_app. cbn. lia. Qed.

Ltac mid_line_solve :=
  split; [cbn; set_solver | cbn; rewrite ?length_snoc; lia].

Lemma parse_process_char_plain n self c :
  mid_line n self → is_newline c = false → (N.of_nat n < field_limit)%N →
  ∃ self', parse_process_char excel self (Some c) = Ok self'
           ∧ mid_line (S n) self' ∧ state self' ≠ START_RECORD.
Proof.
  intros [Hstate Hlen] Hc Hn. destruct self as [st fs f]. cbn in Hstate, Hlen.
  unfold parse_process_char, process_start_field, process_in_field. cbn -[parse_add_char].
  rewrite Hc.
  repeat (apply elem_of_cons in Hstate as [->|Hstate]); [..|by apply elem_of_nil in Hstate];
    cbn -[parse_add_char]; rewrite ?Hc; cbn -[parse_add_char];
    repeat (case_bool_decide; cbn -[parse_add_char]);
    rewrite ?(parse_add_char_Ok _ _ n) by done; cbn;
    (eexists; split; [done|]; split; [mid_line_solve|done]).
Qed.

Lemma process_line_plain line : ∀ n self,
  mid_line n self → plain_line line →
  (N.of_nat (n + String.length line) ≤ field_limit)%N →
  ∃ self', process_line excel self line = Ok self'
           ∧ mid_line (n + String.length line) self'
           ∧ (line = "" → self' = self)
           ∧ (line ≠ "" → state self' ≠ START_RECORD).
Proof.
  induction line as [|c line IH]; intros n self Hself Hplain Hn.
  - exists self. rewrite Nat.add_0_r. split; [done|]. split; [done|].
    split; [done|]. intros Hne. by destruct Hne.
  - apply Forall_cons in Hplain as [Hc Hplain]. cbn [String.length] in *.
    destruct (parse_process_char_plain n self c Hself Hc) as (self1 & Hstep & Hself1 & Hne);
      [lia|].
    cbn [process_line]. rewrite Hstep. res_simpl.
    destruct (IH (S n) self1 Hself1 Hplain) as (self' & Hrest & Hself' & Hsame & Hne');
      [lia|].
    exists self'. rewrite Hrest, Nat.add_succ_r. split; [done|]. split; [done|].
    split; [done|]. intros _. destruct line; [by rewrite Hsame|by apply Hne'].
Qed.

Lemma process_line_app self line line' :
  process_line excel self (line +:+ line')
  = process_line excel self line ≫= λ self', process_line excel self' line'.
Proof.
  revert self. induction line as [|c line IH]; intros self; [done|].
  rewrite append_String. cbn [process_line].
  destruct (parse_process_char excel self (Some c)); res_simpl; [apply IH|done].
Qed.

(** A reader that has taken a line without line breaks, with or without its
    line feed, gives one row and is at the end of the input. *)
Lemma one_line_one_row line (ending : string) :
  plain_line line → (N.of_nat (String.length line) < field_limit)%N →
  ending = "" ∨ ending = nl →
  ∃ row, ∀ A (body : A → list string → res A) acc,
    for_each_row excel body parse_reset [line +:+ ending] acc = body acc row.
Proof.
  intros Hplain Hlen Hending.
  destruct (process_line_plain line 0 parse_reset) as (self1 & Hline & [Hstate Hfield] & _);
    [split; [set_solver|done]|done|cbn; lia|].
  cbn [Nat.add] in Hfield.
  assert (∃ self2, process_line excel parse_reset (line +:+ ending) = Ok self2
                   ∧ ((∃ self3, parse_process_char excel self2 None = Ok self3
                                ∧ state self3 = START_RECORD)
                      ∨ (parse_process_char excel self2 None = Ok self2
                         ∧ state self2 = IN_QUOTED_FIELD))) as (self2 & Hself2 & Hend).
  { rewrite process_line_app, Hline. res_simpl. destruct self1 as [st fs f].
    cbn in Hstate, Hfield. destruct Hending as [->| ->]; cbn -[parse_add_char].
    - eexists. split; [done|].
      repeat (apply elem_of_cons in Hstate as [->|Hstate]);
        [..|by apply elem_of_nil in Hstate];
        cbn; try (left; eexists; split; done). by right.
    - unfold parse_process_char, process_start_field, process_in_field.
      repeat (apply elem_of_cons in Hstate as [->|Hstate]);
        [..|by apply elem_of_nil in Hstate];
        cbn -[parse_add_char];
        rewrite ?(parse_add_char_Ok _ _ (String.length line)) by done; cbn;
        (eexists; split; [done|]); cbn; try (left; eexists; split; done). by right. }
  destruct Hend as [(self3 & Hself3 & Hstart)|[Hsame Hquoted]].
  - exists (fields self3). intros A body acc. cbn [for_each_row].
    rewrite Hself2. res_simpl. rewrite Hself3, Hstart. cbn.
    by destruct (body acc (fields self3)).
  - exists (fields (parse_save_field self2)). intros A body acc. cbn [for_each_row].
    rewrite Hself2. res_simpl. rewrite Hsame, Hquoted. cbn.
    unfold pending. rewrite Hquoted.
    rewrite bool_decide_eq_false_2, (bool_decide_eq_true_2 (_ = IN_QUOTED_FIELD)) by done.
    by rewrite orb_true_r.
Qed.

Lemma append_empty_r s : s +:+ "" = s.
Proof. induction s as [|c s IH]; [done|]. by rewrite append_String, IH. Qed.

Lemma append_assoc s t u : (s +:+ t) +:+ u = s +:+ t +:+ u.
Proof. induction s as [|c s IH]; [done|]. by rewrite !append_String, IH. Qed.

Lemma readlines_from_plain line : ∀ prefix,
  plain_line line →
  readlines_from prefix (line +:+ nl) = [prefix +:+ line +:+ nl]
  ∧ readlines_from prefix line
    = if bool_decide (prefix +:+ line = "") then [] else [prefix +:+ line].
Proof.
  induction line as [|c line IH]; intros prefix Hplain.
  - rewrite append_empty_l, append_empty_r. unfold nl. cbn [readlines_from].
    by rewrite !bool_decide_eq_true_2 by done.
  - apply Forall_cons in Hplain as [Hc Hplain]. rewrite append_String.
    cbn [readlines_from]. apply orb_false_iff in Hc as [Hc _]. rewrite Hc.
    destruct (IH (prefix +:+ String c "") Hplain) as [-> ->].
    by rewrite !append_assoc.
Qed.

Lemma header_line_gives_empty_mapping line :
  plain_line line → (N.of_nat (String.length line) < field_limit)%N →
  parse_package_to_repos_file (readlines (line +:+ nl)) = Ok ∅
  ∧ parse_package_to_repos_file (readlines line) = Ok ∅.
Proof.
  intros Hplain Hlen. unfold readlines.
  destruct (readlines_from_plain line "" Hplain) as [-> ->]. rewrite !append_empty_l.
  unfold parse_package_to_repos_file. split.
  - destruct (one_line_one_row line nl Hplain Hlen) as [row ->]; [by right|done].
  - case_bool_decide; [done|].
    destruct (one_line_one_row line "" Hplain Hlen) as [row Hrow]; [by left|].
    rewrite append_empty_r in Hrow. by rewrite Hrow.
Qed.

(** ** [parse_repo_to_package_file] on rows *)
Lemma repo_to_package_body_short m row :
  length row < 2 → repo_to_package_body m row = Raise IndexError.
Proof.
  intros Hlen. unfold repo_to_package_body.
  by rewrite (lookup_ge_None_2 row 1) by lia.
Qed.

Lemma repo_to_package_body_pair m row :
  2 ≤ length row →
  ∃ rp, row_pair row = Some rp
        ∧ repo_to_package_body m row = Ok (setdefault_add m rp.1 rp.2).
Proof.
  intros Hlen. destruct row as [|package [|repo row]]; cbn in Hlen; try lia.
  by exists (repo, package).
Qed.

Lemma fold_rows_repo_short rows : ∀ m,
  Exists (λ row, length row < 2) rows →
  fold_rows repo_to_package_body rows m = Raise IndexError.
Proof.
  induction rows as [|row rows IH]; intros m Hshort; [by apply Exists_nil in Hshort|].
  cbn [fold_rows]. destruct (decide (length row < 2)) as [Hrow|Hrow].
  - by rewrite repo_to_package_body_short.
  - destruct (repo_to_package_body_pair m row) as (rp & _ & ->); [lia|].
    res_simpl. apply IH. by apply Exists_cons in Hshort as [?|?].
Qed.

Lemma fold_rows_repo_pairs rows : ∀ m,
  Forall (λ row, 2 ≤ length row) rows →
  fold_rows repo_to_package_body rows m = Ok (add_pairs (omap row_pair rows) m).
Proof.
  induction rows as [|row rows IH]; intros m Hrows; [done|].
  apply Forall_cons in Hrows as [Hrow Hrows]. cbn [fold_rows omap list_omap].
  destruct (repo_to_package_body_pair m row) as (rp & -> & ->); [done|].
  res_simpl. by rewrite IH.
Qed.

Lemma elem_of_row_pairs (rows : list (list string)) (repo package : string) :
  (repo, package) ∈ omap row_pair rows
  ↔ ∃ row, row ∈ rows ∧ row !! 1 = Some repo ∧ row !! 0 = Some package.
Proof.
  rewrite list_elem_of_omap. unfold row_pair. split.
  - intros (row & Hrow & Hpair). exists row. split; [done|].
    destruct (row !! 1) as [r|]; [|done]. destruct (row !! 0) as [p|]; [|done].
    cbn in Hpair. by injection Hpair as -> ->.
  - intros (row & Hrow & Hrepo & Hpackage). exists row. split; [done|].
    by rewrite Hrepo, Hpackage.
Qed.

Lemma setdefault_add_new `{Countable R, Countable P} (m : gmap R (gset P)) repo package :
  m !! repo = None → setdefault_add m repo package = <[repo := {[package]}]> m.
Proof.
  intros Hnew. unfold setdefault_add, setdefault. rewrite Hnew, insert_insert_eq.
  f_equal. set_solver.
Qed.

Lemma setdefault_add_old `{Countable R, Countable P} (m : gmap R (gset P)) repo package s :
  m !! repo = Some s → setdefault_add m repo package = <[repo := s ∪ {[package]}]> m.
Proof. intros Hold. unfold setdefault_add, setdefault. by rewrite Hold. Qed.

Lemma elem_of_add_pairs `{Countable R, Countable P} (pairs : list (R * P)) repo package :
  (∃ s, add_pairs pairs ∅ !! repo = Some s ∧ package ∈ s) ↔ (repo, package) ∈ pairs.
Proof.
  rewrite lookup_add_pairs, lookup_empty. cbn [default]. split.
  - intros (s & Hs & Hp). case_decide; [|done]. injection Hs as <-.
    apply elem_of_union in Hp as [[]%not_elem_of_empty|Hp].
    by apply elem_of_packages_of.
  - intros Hin. rewrite decide_True.
    + eexists. split; [done|]. apply elem_of_union_r. by apply elem_of_packages_of.
    + apply list_elem_of_fmap. by exists (repo, package).
Qed.

Lemma add_pairs_nonempty `{Countable R, Countable P} (pairs : list (R * P)) repo s :
  add_pairs pairs ∅ !! repo = Some s → s ≠ ∅.
Proof.
  rewrite lookup_add_pairs, lookup_empty. case_decide as Hin; [|done].
  intros [= <-]. apply list_elem_of_fmap in Hin as ([r p] & -> & Hin).
  apply elem_of_packages_of in Hin. set_solver.
Qed.

Lemma repo_rows_membership input rows :
  csv_rows input = Ok rows →
  Forall (λ row, 2 ≤ length row) rows →
  ∃ m, parse_repo_to_package_file input = Ok m
       ∧ ∀ repo package,
           (∃ s, m !! repo = Some s ∧ package ∈ s)
           ↔ ∃ row, row ∈ rows ∧ row !! 1 = Some repo ∧ row !! 0 = Some package.
Proof.
  intros Hrows Hlong. unfold parse_repo_to_package_file.
  rewrite (for_each_row_csv_rows _ _ _ _ Hrows), fold_rows_repo_pairs by done.
  eexists. split; [done|]. intros repo package.
  by rewrite elem_of_add_pairs, elem_of_row_pairs.
Qed.

(** C8. When the reader splits the input into rows: if some row has
    fewer than two columns, [parse_repo_to_package_file] raises IndexError;
    if every row has two columns or more, it returns the dictionary built
    by adding, row after row, column 0 to the set under column 1, so that
    a package is in the set of a repository exactly when some row pairs
    them.  The set of a repository is created, with the package in it, on
    the repository's first occurrence, and extended afterwards. *)
Theorem parse_repo_to_package_file_rows input rows :
  csv_rows input = Ok rows →
  (Exists (λ row, length row < 2) rows →
     parse_repo_to_package_file input = Raise IndexError)
  ∧ (Forall (λ row, 2 ≤ length row) rows →
       ∃ m, parse_repo_to_package_file input = Ok m
            ∧ m = foldl (λ m rp, setdefault_add m rp.1 rp.2) ∅ (omap row_pair rows)
            ∧ ∀ repo package,
                (∃ s, m !! repo = Some s ∧ package ∈ s)
                ↔ ∃ row, row ∈ rows ∧ row !! 1 = Some repo ∧ row !! 0 = Some package)
  ∧ (∀ (m : gmap string (gset string)) repo package,
       (m !! repo = None → setdefault_add m repo package = <[repo := {[package]}]> m)
       ∧ (∀ s, m !! repo = Some s →
               setdefault_add m repo package = <[repo := s ∪ {[package]}]> m)).
Proof.
  intros Hrows. unfold parse_repo_to_package_file.
  rewrite (for_each_row_csv_rows _ _ _ _ Hrows). split; [|split].
  - apply fold_rows_repo_short.
  - intros Hlong. eexists. split; [by apply fold_rows_repo_pairs|]. split; [done|].
    intros repo package. by rewrite elem_of_add_pairs, elem_of_row_pairs.
  - intros m repo package. split; [apply setdefault_add_new|].
    intros s. apply setdefault_add_old.
Qed.

(** The three pairs of [csv_pairs]. *)
Lemma parse_repo_to_package_file_rows_witness :
  ∃ m, parse_repo_to_package_file (readlines csv_pairs) = Ok m
       ∧ ∀ repo package,
           (∃ s, m !! repo = Some s ∧ package ∈ s)
           ↔ ∃ row, row ∈ [["p1"; "r1"]; ["p1"; "r2"]; ["p2"; "r2"]]
                    ∧ row !! 1 = Some repo ∧ row !! 0 = Some package.
Proof.
  destruct (parse_repo_to_package_file_rows (readlines csv_pairs)
              [["p1"; "r1"]; ["p1"; "r2"]; ["p2"; "r2"]]) as (_ & Hlong & _).
  - vm_compute. reflexivity.
  - destruct Hlong as (m & Hm & _ & Hspec).
    + repeat constructor.
    + eauto.
Defined.

(** C10. No value of a returned dictionary is empty: the lists of
    [parse_package_to_repos_file] have at least one piece, and the sets of
    [invert_mapping] and of [parse_repo_to_package_file] at least one
    member. *)
Theorem values_nonempty `{Countable R, Countable P} :
  (∀ input m key repos,
     parse_package_to_repos_file input = Ok m → m !! key = Some repos → repos ≠ [])
  ∧ (∀ (packages : gmap P (list R)) repo s,
       invert_mapping packages !! repo = Some s → s ≠ ∅)
  ∧ (∀ input m repo s,
       parse_repo_to_package_file input = Ok m → m !! repo = Some s → s ≠ ∅).
Proof.
  split; [|split].
  - intros input m key repos Hparse. unfold parse_package_to_repos_file in Hparse.
    apply res_bind_Ok in Hparse as ([fieldnames m'] & Hloop & [= <-]).
    apply for_each_row_Ok_csv_rows in Hloop as (rows & _ & Hfold).
    revert key repos.
    refine (fold_rows_invariant _
              (λ acc, ∀ key repos, acc.2 !! key = Some repos → repos ≠ [])
              rows _ _ _ _ Hfold).
    1: { clear. intros [fieldnames m] row acc' Hm. unfold package_to_repos_body.
      cbn [fst snd]. destruct fieldnames as [fieldnames|]; [|by intros [= <-]].
      destruct row as [|f row]; [by intros [= <-]|].
      intros (package & _ & Hrest)%res_bind_Ok.
      apply res_bind_Ok in Hrest as (all_repos & _ & Hrest).
      apply res_bind_Ok in Hrest as (repos & Hsplit & Hrest).
      apply res_bind_Ok in Hrest as (key & _ & [= <-]).
      intros key' repos'. cbn [snd]. rewrite lookup_insert. case_decide; [|apply Hm].
      intros [= <-]. destruct all_repos; try done. injection Hsplit as <-.
      apply split_nonempty. }
    cbn. intros key repos. by rewrite lookup_empty.
  - intros packages repo s. unfold invert_mapping. rewrite invert_items_add_pairs.
    apply add_pairs_nonempty.
  - intros input m repo s Hparse. unfold parse_repo_to_package_file in Hparse.
    apply for_each_row_Ok_csv_rows in Hparse as (rows & _ & Hfold).
    revert repo s.
    refine (fold_rows_invariant _ (λ m, ∀ repo s, m !! repo = Some s → s ≠ ∅)
              rows _ _ _ _ Hfold).
    1: { clear. intros m row m' Hm. unfold repo_to_package_body.
      destruct (row !! 1) as [repo|]; [|done]. destruct (row !! 0) as [package|]; [|done].
      intros [= <-] repo' s. rewrite lookup_setdefault_add. case_decide; [|apply Hm].
      intros [= <-]. set_solver. }
    cbn. intros repo s. by rewrite lookup_empty.
Qed.

(** The lists read from [csv_empty_field], one of them for an empty field. *)
Lemma values_nonempty_witness :
  ∃ m, parse_package_to_repos_file (readlines csv_empty_field) = Ok m
       ∧ ∀ key repos, m !! key = Some repos → repos ≠ [].
Proof.
  eexists. split; [vm_compute; reflexivity|]. intros key repos.
  apply (proj1 (values_nonempty (R := string) (P := string))
           (readlines csv_empty_field)).
  vm_compute. reflexivity.
Defined.

Lemma elem_of_invert_mapping `{Countable R, Countable P} (packages : gmap P (list R))
    repo package :
  (∃ s, invert_mapping packages !! repo = Some s ∧ package ∈ s)
  ↔ ∃ repos, packages !! package = Some repos ∧ repo ∈ repos.
Proof.
  unfold invert_mapping. rewrite invert_items_add_pairs, elem_of_add_pairs.
  rewrite elem_of_item_pairs. by setoid_rewrite elem_of_map_to_list.
Qed.

(** C4. [invert_mapping packages] maps a repository to a set that holds a
    package exactly when the repository occurs in the sequence of that
    package; a repository that occurs in no sequence has no entry; no
    entry is an empty set; and two mappings whose sequences have the same
    elements, whatever their order and repetitions, have the same
    inverse. *)
Theorem invert_mapping_spec `{Countable R, Countable P} (packages : gmap P (list R)) :
  (∀ repo package,
     (∃ s, invert_mapping packages !! repo = Some s ∧ package ∈ s)
     ↔ ∃ repos, packages !! package = Some repos ∧ repo ∈ repos)
  ∧ (∀ repo,
       invert_mapping packages !! repo = None
       ↔ ∀ package repos, packages !! package = Some repos → repo ∉ repos)
  ∧ (∀ repo s, invert_mapping packages !! repo = Some s → s ≠ ∅)
  ∧ (∀ packages' : gmap P (list R),
       (∀ package,
          option_Forall2 (λ repos repos', ∀ repo, repo ∈ repos ↔ repo ∈ repos')
            (packages !! package) (packages' !! package)) →
       invert_mapping packages' = invert_mapping packages).
Proof.
  assert (∀ (M : gmap P (list R)) repo s,
            invert_mapping M !! repo = Some s → s ≠ ∅) as Hnonempty.
  { intros M repo s. unfold invert_mapping. rewrite invert_items_add_pairs.
    apply add_pairs_nonempty. }
  split; [apply elem_of_invert_mapping|]. split; [|split; [apply Hnonempty|]].
  - intros repo. split.
    + intros Hnone package repos Hpackage Hrepo.
      destruct (proj2 (elem_of_invert_mapping packages repo package)) as (s & Hs & _);
        [eauto|congruence].
    + intros Habsent. destruct (invert_mapping packages !! repo) as [s|] eqn:Hs; [|done].
      destruct (set_choose_L s) as [package Hpackage]; [by eapply Hnonempty|].
      destruct (proj1 (elem_of_invert_mapping packages repo package)) as (repos & ? & ?);
        [eauto|]. by destruct (Habsent package repos).
  - intros packages' Hsame.
    assert (∀ repo package,
              (∃ s, invert_mapping packages' !! repo = Some s ∧ package ∈ s)
              ↔ (∃ s, invert_mapping packages !! repo = Some s ∧ package ∈ s)) as Hiff.
    { intros repo package. rewrite !elem_of_invert_mapping.
      specialize (Hsame package).
      destruct (packages !! package) as [repos|], (packages' !! package) as [repos'|];
        inversion Hsame as [?? Hiff|]; subst.
      - split; intros (? & [= <-] & ?); eexists; (split; [done|]); by apply Hiff.
      - split; by intros (? & [=] & ?). }
    apply map_eq. intros repo.
    destruct (invert_mapping packages' !! repo) as [s'|] eqn:Hs';
      destruct (invert_mapping packages !! repo) as [s|] eqn:Hs; [|exfalso..|done].
    + f_equal. apply set_eq. intros package. split; intros Hin.
      * destruct (proj1 (Hiff repo package)) as (? & Heq & ?); [eauto|]. congruence.
      * destruct (proj2 (Hiff repo package)) as (? & Heq & ?); [eauto|]. congruence.
    + destruct (set_choose_L s') as [package Hpackage]; [by eapply Hnonempty|].
      destruct (proj1 (Hiff repo package)) as (? & Heq & ?); [eauto|]. congruence.
    + destruct (set_choose_L s) as [package Hpackage]; [by eapply Hnonempty|].
      destruct (proj2 (Hiff repo package)) as (? & Heq & ?); [eauto|]. congruence.
Qed.

(** A sequence reordered and with a repetition has the same inverse. *)
Lemma invert_mapping_spec_witness :
  invert_mapping (P := string) (<["p1" := ["r2"; "r1"; "r2"]]> {["p2" := ["r2"]]})
  = invert_mapping (<["p1" := ["r1"; "r2"]]> {["p2" := ["r2"]]}).
Proof.
  apply (invert_mapping_spec (<["p1" := ["r1"; "r2"]]> {["p2" := ["r2"]]})).
  intros package.
  destruct (decide (package = "p1")) as [->|Hp1];
    [|destruct (decide (package = "p2")) as [->|Hp2]].
  - rewrite !lookup_insert_eq. constructor. intros repo. set_solver.
  - rewrite !lookup_insert_ne, !lookup_singleton_eq by done. by constructor.
  - rewrite !lookup_insert_ne, !lookup_singleton_ne by done. constructor.
Defined.

(** ** [parse_package_to_repos_file] on rows *)
Lemma parse_package_to_repos_file_entries input header rows entries :
  csv_rows input = Ok (header :: rows) →
  Forall2 (λ row e, row_entry header row = Ok e) (data_rows rows) entries →
  parse_package_to_repos_file input = Ok (foldl put ∅ entries).
Proof.
  intros Hrows Hentries. unfold parse_package_to_repos_file.
  rewrite (for_each_row_csv_rows _ _ _ _ Hrows). cbn [fold_rows].
  change (package_to_repos_body (None, ∅) header) with
    (Ok (A := option (list string) * gmap (option string) (list string)) (Some header, ∅)).
  res_simpl. by rewrite (fold_rows_package_to_repos _ _ _ _ Hentries).
Qed.

Lemma entry_of_row_entry header row e : entry_of header row e → row_entry header row = Ok e.
Proof.
  intros (Hkey & all_repos & Hvalue & Hsplit). unfold row_entry.
  apply res_bind_Ok in Hkey as (package & -> & Hkey). rewrite Hvalue.
  destruct e as [key repos]. cbn in *. rewrite Hkey. by subst.
Qed.

Lemma entries_exist header rows :
  "package" ∈ header →
  (∀ row, row ∈ rows →
     ∃ all_repos, row_value header row "all_repos" = Ok (VStr all_repos)) →
  ∃ entries, Forall2 (entry_of header) rows entries.
Proof.
  intros Hpackage. induction rows as [|row rows IH]; intros Hrows.
  - exists []. constructor.
  - destruct IH as [entries Hentries]; [intros; apply Hrows; by right|].
    destruct (row_key_Ok header row Hpackage) as [key Hkey].
    destruct (Hrows row) as [all_repos Hvalue]; [by left|].
    exists ((key, split "," all_repos) :: entries). constructor; [|done].
    split; [done|]. eauto.
Qed.

(** C5. For an input the reader splits into a header with a [package]
    column and rows that each have an [all_repos] field:
    [parse_package_to_repos_file] returns a dictionary; every row that is
    not empty stands for an entry, its [package] value with the pieces of
    its [all_repos] value split on the comma; the dictionary binds a key
    to the pieces of the last row with that key, and to nothing else.
    The pieces joined by commas give the field back and contain no comma,
    so order and repetitions are kept. *)
Theorem package_to_repos_last_row_wins input header rows :
  csv_rows input = Ok (header :: rows) →
  "package" ∈ header →
  (∀ row, row ∈ data_rows rows →
     ∃ all_repos, row_value header row "all_repos" = Ok (VStr all_repos)) →
  ∃ entries m,
    Forall2 (λ row e,
               row_key header row = Ok e.1
               ∧ ∃ all_repos, row_value header row "all_repos" = Ok (VStr all_repos)
                              ∧ e.2 = split "," all_repos)
      (data_rows rows) entries
    ∧ parse_package_to_repos_file input = Ok m
    ∧ (∀ key, m !! key = snd <$> last (filter (λ e, e.1 = key) entries))
    ∧ (∀ s, str_join "," (split "," s) = s
            ∧ Forall (λ piece, ","%char ∉ chars piece) (split "," s)).
Proof.
  intros Hrows Hpackage Hvalues.
  destruct (entries_exist header (data_rows rows) Hpackage Hvalues) as [entries Hentries].
  exists entries, (foldl put ∅ entries). split; [done|]. split; [|split].
  - apply (parse_package_to_repos_file_entries _ _ _ _ Hrows).
    eapply Forall2_impl; [done|]. apply entry_of_row_entry.
  - intros key. rewrite lookup_foldl_put, lookup_empty. by destruct (last _).
  - intros s. split; [apply str_join_split|apply split_no_sep].
Qed.

(** [csv_repeated]: the package [p] occurs twice, an empty line is passed
    over, and a quoted field keeps its order and its repetition. *)
Lemma package_to_repos_last_row_wins_witness :
  ∃ m, parse_package_to_repos_file
         (readlines csv_repeated) = Ok m
       ∧ m !! Some "p" = Some ["b"] ∧ m !! Some "q" = Some ["r2"; "r1"; "r2"].
Proof.
  destruct (package_to_repos_last_row_wins
              (readlines csv_repeated)
              ["package"; "all_repos"] [["p"; "a"]; ["q"; "r2,r1,r2"]; []; ["p"; "b"]])
    as (entries & m & Hentries & Hm & Hlast & _).
  - vm_compute. reflexivity.
  - set_solver.
  - intros row Hrow. vm_compute in Hrow.
    repeat (apply elem_of_cons in Hrow as [->|Hrow]; [vm_compute; eauto|]).
    by apply elem_of_nil in Hrow.
  - exists m. split; [done|]. vm_compute in Hm. injection Hm as <-.
    split; vm_compute; reflexivity.
Defined.

Lemma data_rows_app rows rows' : data_rows (rows ++ rows') = data_rows rows ++ data_rows rows'.
Proof. apply filter_app. Qed.

Lemma data_rows_cons row rows : row ≠ [] → data_rows (row :: rows) = row :: data_rows rows.
Proof. intros Hrow. unfold data_rows. by rewrite filter_cons_True. Qed.

(** C7. In an input as in C5, a row whose [all_repos] field is the empty
    string is entered with the one-element list of the empty string: the
    comprehension binds its key to that list, and the returned dictionary
    has it under the key when no later row has the same key. *)
Theorem empty_all_repos_gives_empty_string input header before row after key :
  csv_rows input = Ok (header :: before ++ row :: after) →
  "package" ∈ header →
  (∀ row', row' ∈ data_rows (before ++ row :: after) →
     ∃ all_repos, row_value header row' "all_repos" = Ok (VStr all_repos)) →
  row ≠ [] →
  row_key header row = Ok key →
  row_value header row "all_repos" = Ok (VStr "") →
  (∀ m, package_to_repos_body (Some header, m) row = Ok (Some header, <[key := [""]]> m))
  ∧ ∃ m, parse_package_to_repos_file input = Ok m
         ∧ ((∀ row', row' ∈ data_rows after → row_key header row' ≠ Ok key) →
            m !! key = Some [""]).
Proof.
  intros Hrows Hpackage Hvalues Hrow Hkey Hempty.
  assert (row_entry header row = Ok (key, [""])) as Hentry.
  { unfold row_entry. apply res_bind_Ok in Hkey as (package & -> & Hkey).
    rewrite Hempty. cbn. by rewrite Hkey. }
  split.
  { intros m. by rewrite package_to_repos_body_row, Hentry. }
  destruct (entries_exist header _ Hpackage Hvalues) as [entries Hentries].
  rewrite data_rows_app, data_rows_cons in Hentries by done.
  apply Forall2_app_inv_l in Hentries as (eb & entries' & Hbefore & Hrest & ->).
  apply Forall2_cons_inv_l in Hrest as (e & ea & He & Hafter & ->).
  apply entry_of_row_entry in He. rewrite Hentry in He. injection He as <-.
  exists (foldl put ∅ (eb ++ (key, [""]) :: ea)). split.
  - apply (parse_package_to_repos_file_entries _ _ _ _ Hrows).
    rewrite data_rows_app, data_rows_cons by done.
    apply Forall2_app; [|constructor; [done|]];
      (eapply Forall2_impl; [done|apply entry_of_row_entry]).
  - intros Hlast. rewrite lookup_foldl_put, filter_app, filter_cons_True by done.
    replace (filter (λ e, e.1 = key) ea) with (@nil (option string * list string)).
    + by rewrite last_snoc.
    + symmetry. apply elem_of_nil_inv. intros e [Heq He]%list_elem_of_filter.
      apply list_elem_of_lookup in He as [i Hi].
      destruct (Forall2_lookup_r _ _ _ _ _ Hafter Hi) as (row' & Hrow' & Hkey' & _).
      apply (Hlast row'); [by eapply list_elem_of_lookup_2|]. by rewrite Hkey', Heq.
Qed.

(** [csv_empty_field]: the second row of [p] has an empty [all_repos]. *)
Lemma empty_all_repos_gives_empty_string_witness :
  ∃ m, parse_package_to_repos_file
         (readlines csv_empty_field) = Ok m
       ∧ m !! Some "p" = Some [""].
Proof.
  destruct (empty_all_repos_gives_empty_string
              (readlines csv_empty_field)
              ["package"; "all_repos"] [["p"; "a"]] ["p"; ""] [["q"; "b"]] (Some "p"))
    as (_ & m & Hm & Hlast).
  - vm_compute. reflexivity.
  - set_solver.
  - intros row Hrow. vm_compute in Hrow.
    repeat (apply elem_of_cons in Hrow as [->|Hrow]; [vm_compute; eauto|]).
    by apply elem_of_nil in Hrow.
  - done.
  - vm_compute. reflexivity.
  - vm_compute. reflexivity.
  - exists m. split; [exact Hm|]. apply Hlast. clear. intros row Hrow.
    vm_compute in Hrow.
    apply elem_of_cons in Hrow as [->|Hrow]; [|by apply elem_of_nil in Hrow].
    vm_compute. discriminate.
Defined.

Lemma fold_rows_package_to_repos_Raise header rows : ∀ m e,
  fold_rows package_to_repos_body rows (Some header, m) = Raise e →
  ∃ row, row ∈ rows ∧ row ≠ [].
Proof.
  induction rows as [|row rows IH]; intros m e; [done|]. cbn [fold_rows].
  destruct (decide (row = [])) as [->|Hrow].
  - cbn. intros (row & ? & ?)%IH. exists row. split; [by right|done].
  - intros _. exists row. split; [by left|done].
Qed.

(** C9. [parse_package_to_repos_file] returns the empty dictionary for an
    input without lines and for an input the reader splits into a header
    alone, whatever the columns of the header; a header line of fewer
    characters than the field limit and without a line break inside is
    such an input, with or without its line feed.  A KeyError, the failure
    for a missing column, needs a row after the header that is not
    empty. *)
Theorem header_only_gives_empty_mapping :
  parse_package_to_repos_file [] = Ok ∅
  ∧ (∀ input header,
       csv_rows input = Ok [header] → parse_package_to_repos_file input = Ok ∅)
  ∧ (∀ input rows key,
       csv_rows input = Ok rows →
       parse_package_to_repos_file input = Raise (KeyError key) →
       ∃ header row rest, rows = header :: rest ∧ row ∈ rest ∧ row ≠ [])
  ∧ (∀ line,
       plain_line line → (N.of_nat (String.length line) < field_limit)%N →
       parse_package_to_repos_file (readlines (line +:+ nl)) = Ok ∅
       ∧ parse_package_to_repos_file (readlines line) = Ok ∅).
Proof.
  split; [done|]. split; [|split; [|exact header_line_gives_empty_mapping]].
  - intros input header Hrows. unfold parse_package_to_repos_file.
    by rewrite (for_each_row_csv_rows _ _ _ _ Hrows).
  - intros input rows key Hrows. unfold parse_package_to_repos_file.
    rewrite (for_each_row_csv_rows _ _ _ _ Hrows).
    destruct rows as [|header rest]; [done|]. cbn [fold_rows].
    change (package_to_repos_body (None, ∅) header) with
      (Ok (A := option (list string) * gmap (option string) (list string)) (Some header, ∅)).
    res_simpl.
    destruct (fold_rows _ rest _) as [acc|e] eqn:Hfold; [done|]. intros _.
    apply fold_rows_package_to_repos_Raise in Hfold as (row & ? & ?).
    by exists header, row, rest.
Qed.

(** A header without the two columns, and nothing after it. *)
Lemma header_only_gives_empty_mapping_witness :
  parse_package_to_repos_file (readlines csv_header_only) = Ok ∅.
Proof.
  apply (proj1 (proj2 header_only_gives_empty_mapping) _ ["name"; "url"]).
  vm_compute. reflexivity.
Defined.

(** ** The round trip of the specification *)

(** On the texts of the specification the two results differ: the reader
    splits [p1,r1,r2] into three fields, so [all_repos] is [r1] alone and
    [r2] is left with the package [p2] only. *)
Lemma roundtrip_unquoted_differs : ¬ roundtrip_agrees csv_unquoted csv_pairs.
Proof.
  intros (packages & repos & Hpackages & Hrepos & Heq).
  assert (packages !! Some "p1" = Some ["r1"]) as Hp1.
  { assert ((m ← parse_package_to_repos_file (readlines csv_unquoted);
             Ok (m !! Some "p1")) = Ok (Some ["r1"])) as Hlookup
      by (vm_compute; reflexivity).
    rewrite Hpackages in Hlookup. clear Hpackages Hrepos Heq.
    change (Ok (packages !! Some "p1") = Ok (Some ["r1"])) in Hlookup.
    injection Hlookup as Hlookup. exact Hlookup. }
  assert (∃ s, repos !! "r2" = Some s ∧ "p1" ∈ s) as (s & Hs & Hin).
  { destruct (repo_rows_membership (readlines csv_pairs)
                [["p1"; "r1"]; ["p1"; "r2"]; ["p2"; "r2"]]) as (m & Hm & Hspec).
    - vm_compute. reflexivity.
    - clear. repeat constructor.
    - rewrite Hrepos in Hm. injection Hm as <-. apply Hspec. clear.
      exists ["p1"; "r2"]. split; [set_solver|done]. }
  clear Hpackages Hrepos.
  destruct (proj1 (elem_of_invert_mapping packages "r2" (Some "p1")))
    as (repos' & Hrepos' & Hr2).
  - rewrite Heq, lookup_fmap, Hs. eexists. split; [done|]. set_solver.
  - rewrite Hp1 in Hrepos'. injection Hrepos' as <-. set_solver.
Qed.

(** C2, amended. With the [all_repos] field of the first row quoted, the
    inverse of what [parse_package_to_repos_file] reads is the dictionary
    [parse_repo_to_package_file] reads from the three pairs. *)
Theorem roundtrip_quoted_agrees : roundtrip_agrees csv_quoted csv_pairs.
Proof.
  unfold roundtrip_agrees. eexists _, _. split; [|split].
  - vm_compute. reflexivity.
  - vm_compute. reflexivity.
  - vm_compute. reflexivity.
Qed.

(** ** The generator *)

Lemma take_app_replicate {A} n m (l : list A) x :
  n ≤ m → take n (l ++ replicate m x) = take n (l ++ replicate n x).
Proof.
  revert n m. induction l as [|a l IH]; intros n m Hn.
  - rewrite !app_nil_l, !take_replicate. f_equal. lia.
  - destruct n as [|n]; [done|]. cbn [app take]. f_equal.
    rewrite (IH n m), (IH n (S n)) by lia. done.
Qed.

Section generator.
Context {J : Type} (json_loads : string → option J) (fs : filesystem).

(** The step of [run_loop] at a regular file. *)
Lemma run_loop_file path paths :
  isfile fs path = true →
  run_loop json_loads fs (path :: paths)
  = match open_file fs path with
    | Raise e => ([], Raised e, Finished)
    | Ok details_file =>
        match visit json_loads fs path with
        | Ok found => (open_block path, yield_pair found, Suspended path paths)
        | Raise e => (visited_block path, Raised e, Finished)
        end
    end.
Proof.
  intros Hfile. cbn [run_loop]. rewrite Hfile. unfold visit.
  destruct (open_file fs path) as [details_file|e]; [|done]. res_simpl.
  by destruct (json_load json_loads details_file).
Qed.

Lemma visit_open_Raise path e :
  open_file fs path = Raise e → visit json_loads fs path = Raise e.
Proof. intros Hopen. unfold visit. by rewrite Hopen. Qed.

Lemma visit_Ok_name path found :
  visit json_loads fs path = Ok found → found.1 = (splitext (basename path)).1.
Proof.
  unfold visit. intros (details_file & _ & (details & _ & [= <-])%res_bind_Ok)%res_bind_Ok.
  done.
Qed.

Lemma run_loop_outcome paths :
  match outcomes_of json_loads fs paths with
  | [] =>
      (run_loop json_loads fs paths).1.2 = StopIteration
      ∧ (run_loop json_loads fs paths).2 = Finished
  | out :: outs =>
      (run_loop json_loads fs paths).1.2 = out
      ∧ outcomes_of json_loads fs (remaining fs (run_loop json_loads fs paths).2) = outs
  end.
Proof.
  induction paths as [|path paths IH]; [done|]. cbn [outcomes_of].
  destruct (isfile fs path) eqn:Hfile; [|cbn [run_loop]; by rewrite Hfile].
  rewrite run_loop_file by done.
  destruct (open_file fs path) as [details_file|e] eqn:Hopen.
  - by destruct (visit json_loads fs path).
  - by rewrite (visit_open_Raise _ _ Hopen).
Qed.

Lemma next_outcome gen :
  match outcomes_of json_loads fs (remaining fs gen) with
  | [] => (next json_loads fs gen).1.2 = StopIteration ∧ (next json_loads fs gen).2 = Finished
  | out :: outs =>
      (next json_loads fs gen).1.2 = out
      ∧ outcomes_of json_loads fs (remaining fs (next json_loads fs gen).2) = outs
  end.
Proof.
  destruct gen as [details_dir|details_file paths|]; cbn [remaining next].
  - apply run_loop_outcome.
  - pose proof (run_loop_outcome paths) as Hloop.
    by destruct (run_loop json_loads fs paths) as [[evs out] gen'].
  - done.
Qed.

Lemma iterate_S n gen :
  iterate json_loads fs (S n) gen
  = ((next json_loads fs gen).1.1 ++ (iterate json_loads fs n (next json_loads fs gen).2).1.1,
     (next json_loads fs gen).1.2 :: (iterate json_loads fs n (next json_loads fs gen).2).1.2,
     (iterate json_loads fs n (next json_loads fs gen).2).2).
Proof.
  simpl. destruct (next json_loads fs gen) as [[evs out] gen1]. simpl.
  by destruct (iterate json_loads fs n gen1) as [[evs' outs] gen2].
Qed.

(** The outcomes of [n] calls of [next]: those of the paths still to
    visit json_loads fs, then StopIteration for ever. *)
Lemma iterate_outcomes n : ∀ gen,
  (iterate json_loads fs n gen).1.2
  = take n (outcomes_of json_loads fs (remaining fs gen) ++ replicate n StopIteration).
Proof.
  induction n as [|n IH]; intros gen; [done|]. rewrite iterate_S. cbn [fst snd].
  rewrite IH. pose proof (next_outcome gen) as Hnext.
  destruct (outcomes_of json_loads fs (remaining fs gen)) as [|out outs].
  - destruct Hnext as [-> ->]. cbn [remaining outcomes_of app].
    by rewrite replicate_S.
  - destruct Hnext as [-> ->]. cbn [app take]. f_equal.
    symmetry. apply take_app_replicate. lia.
Qed.

Lemma run_loop_trace paths :
  ∃ closed,
    (run_loop json_loads fs paths).1.1
    = (closed ≫= visited_block) ++ (held (run_loop json_loads fs paths).2 ≫= open_block)
    ∧ closed ++ held (run_loop json_loads fs paths).2
        ++ remaining fs (run_loop json_loads fs paths).2 `sublist_of` paths
    ∧ (is_yield (run_loop json_loads fs paths).1.2 = true
       ↔ held (run_loop json_loads fs paths).2 ≠ [])
    ∧ ∀ name v, (run_loop json_loads fs paths).1.2 = Yield name v →
        ∃ path, held (run_loop json_loads fs paths).2 = [path]
                ∧ name = (splitext (basename path)).1.
Proof.
  induction paths as [|path paths IH].
  - exists []. cbn. split; [done|]. split; [done|]. split; [by split|done].
  - destruct (isfile fs path) eqn:Hfile.
    + rewrite run_loop_file by done.
      destruct (open_file fs path) as [details_file|e];
        [destruct (visit json_loads fs path) as [found|e] eqn:Hvisit|].
      * exists []. cbn. split; [done|]. split; [done|]. split; [by split|].
        intros name v [= <- _]. exists path. split; [done|].
        by apply visit_Ok_name in Hvisit.
      * exists [path]. cbn. split; [done|]. split; [|split; [by split|done]].
        apply sublist_skip, sublist_nil_l.
      * exists []. cbn. split; [done|]. split; [apply sublist_nil_l|].
        split; [by split|done].
    + cbn [run_loop]. rewrite Hfile.
      destruct IH as (closed & Htrace & Hsub & Hyield). exists closed.
      split; [done|]. split; [by apply sublist_cons|done].
Qed.

Lemma next_trace gen :
  trace_inv fs gen (next json_loads fs gen).1.1 (Some (next json_loads fs gen).1.2)
    (next json_loads fs gen).2.
Proof.
  destruct gen as [details_dir|details_file paths|]; cbn [next].
  - destruct (run_loop_trace (iglob fs details_dir)) as (closed & Htrace & Hsub & Hyield).
    exists closed. cbn [held mbind list_bind app remaining].
    split; [done|]. split; [done|]. by intros o [= <-].
  - destruct (run_loop_trace paths) as (closed & Htrace & Hsub & Hyield).
    destruct (run_loop json_loads fs paths) as [[evs out] gen']. cbn [fst snd] in *.
    exists (details_file :: closed). split; [|split].
    + cbn. by rewrite Htrace.
    + cbn. by apply sublist_skip.
    + by intros o [= <-].
  - exists []. cbn. split; [done|]. split; [done|]. intros o [= <-]. by split.
Qed.

Lemma iterate_trace n : ∀ gen,
  trace_inv fs gen (iterate json_loads fs n gen).1.1
    (last (iterate json_loads fs n gen).1.2) (iterate json_loads fs n gen).2
  ∧ ((iterate json_loads fs n gen).1.2 = [] → (iterate json_loads fs n gen).2 = gen).
Proof.
  induction n as [|n IH]; intros gen.
  - split; [|done]. exists []. cbn. rewrite app_nil_r. by split.
  - rewrite iterate_S. cbn [fst snd]. split; [|done].
    destruct (next_trace gen) as (closed1 & Htrace1 & Hsub1 & Hout1).
    destruct (IH (next json_loads fs gen).2) as [(closed2 & Htrace2 & Hsub2 & Hout2) Hsame].
    exists (closed1 ++ closed2). split; [|split].
    + rewrite app_assoc, Htrace1, <- app_assoc, Htrace2, bind_app, app_assoc. done.
    + etrans; [|exact Hsub1]. rewrite <- app_assoc. by apply sublist_app.
    + intros o. rewrite last_cons.
      destruct (last (iterate json_loads fs n (next json_loads fs gen).2).1.2) as [o'|] eqn:Hlast.
      * intros [= <-]. by apply Hout2.
      * intros [= <-]. apply last_None in Hlast. rewrite (Hsame Hlast). by apply Hout1.
Qed.

End generator.

(** ** Handles and counts *)
Lemma open_after_closed closed trace :
  open_after [] ((closed ≫= visited_block) ++ trace) = open_after [] trace.
Proof.
  induction closed as [|path closed IH]; [done|]. cbn.
  rewrite decide_False by naive_solver. apply IH.
Qed.

Lemma open_after_held gen : open_after [] (held gen ≫= open_block) = held gen.
Proof. by destruct gen. Qed.

Lemma occurrences_app ev trace trace' :
  occurrences ev (trace ++ trace') = occurrences ev trace + occurrences ev trace'.
Proof. unfold occurrences. by rewrite filter_app, length_app. Qed.

Lemma occurrences_open path (closed current : list string) :
  occurrences (EvOpen path) ((closed ≫= visited_block) ++ (current ≫= open_block))
  = length (filter (λ p, p = path) (closed ++ current)).
Proof.
  rewrite occurrences_app, filter_app, length_app. f_equal.
  - induction closed as [|p closed IH]; [done|]. cbn -[occurrences visited_block].
    rewrite occurrences_app, IH. unfold occurrences, visited_block.
    rewrite !filter_cons, filter_nil. clear.
    destruct (decide (p = path)) as [->|Hne]; repeat case_decide; naive_solver.
  - induction current as [|p current IH]; [done|]. cbn -[occurrences open_block].
    rewrite occurrences_app, IH. unfold occurrences, open_block.
    rewrite !filter_cons, filter_nil. clear.
    destruct (decide (p = path)) as [->|Hne]; repeat case_decide; naive_solver.
Qed.

Lemma occurrences_read path (closed current : list string) :
  occurrences (EvRead path) ((closed ≫= visited_block) ++ (current ≫= open_block))
  = length (filter (λ p, p = path) (closed ++ current)).
Proof.
  rewrite occurrences_app, filter_app, length_app. f_equal.
  - induction closed as [|p closed IH]; [done|]. cbn -[occurrences visited_block].
    rewrite occurrences_app, IH. unfold occurrences, visited_block.
    rewrite !filter_cons, filter_nil. clear.
    destruct (decide (p = path)) as [->|Hne]; repeat case_decide; naive_solver.
  - induction current as [|p current IH]; [done|]. cbn -[occurrences open_block].
    rewrite occurrences_app, IH. unfold occurrences, open_block.
    rewrite !filter_cons, filter_nil. clear.
    destruct (decide (p = path)) as [->|Hne]; repeat case_decide; naive_solver.
Qed.

Lemma NoDup_filter_eq_length (l : list string) path :
  NoDup l → length (filter (λ p, p = path) l) ≤ 1.
Proof.
  induction 1 as [|p l Hp Hl IH]; [cbn; lia|]. rewrite filter_cons.
  case_decide as Heq; [|apply IH]. subst p.
  rewrite (elem_of_nil_inv (filter (λ p, p = path) l)); [done|].
  by intros p [-> ?]%list_elem_of_filter.
Qed.

Section generator_theorems.
Context {J : Type} (json_loads : string → option J) (fs : filesystem).

Lemma outcomes_of_app_found before : ∀ founds rest,
  Forall2 (λ path found, visit json_loads fs path = Ok found)
    (filter (λ path, isfile fs path = true) before) founds →
  outcomes_of json_loads fs (before ++ rest)
  = (yield_pair <$> founds) ++ outcomes_of json_loads fs rest.
Proof.
  induction before as [|path before IH]; intros founds rest Hfounds.
  - by apply Forall2_nil_inv_l in Hfounds as ->.
  - cbn [app outcomes_of]. rewrite filter_cons in Hfounds.
    destruct (isfile fs path) eqn:Hfile.
    + rewrite decide_True in Hfounds by done.
      apply Forall2_cons_inv_l in Hfounds as (found & founds' & -> & Hfounds & ->).
      cbn. f_equal. by apply IH.
    + rewrite decide_False in Hfounds by done. by apply IH.
Qed.

Lemma visit_Ok_inv path found :
  visit json_loads fs path = Ok found →
  ∃ s, resolve fs path = Some (RegularFile (Text s)) ∧ json_loads s = Some found.2.
Proof.
  unfold visit.
  intros (details_file & Hopen & (details & Hload & [= <-])%res_bind_Ok)%res_bind_Ok.
  unfold json_load in Hload. destruct details_file as [s|]; [|done].
  destruct (json_loads s) as [v|] eqn:Hs; [|done]. injection Hload as <-.
  exists s. split; [|done]. unfold open_file in Hopen.
  destruct (resolve fs path) as [[[]| |]|]; try done. by injection Hopen as <-.
Qed.

Lemma details_of_found details_dir name found :
  "/"%char ∉ chars name →
  glob_match name = true →
  visit json_loads fs (join details_dir name) = Ok found →
  details_of json_loads fs details_dir name = Some found.
Proof.
  intros Hslash Hmatch Hvisit. unfold details_of. rewrite <- glob_match_spec, Hmatch.
  destruct (visit_Ok_inv _ _ Hvisit) as (s & -> & ->). cbn [fmap option_fmap option_map].
  apply visit_Ok_name in Hvisit. rewrite basename_join in Hvisit by done.
  unfold glob_match in Hmatch. apply andb_true_iff in Hmatch as [Hhidden Hjson].
  apply negb_true_iff in Hhidden. apply fnmatch_star_json in Hjson as [stem ->].
  rewrite splitext_json in Hvisit by done. cbn [fst] in Hvisit.
  rewrite str_length_app. replace (String.length stem + String.length ".json" - 5)
    with (String.length stem) by (cbn; lia).
  rewrite str_take_app, <- Hvisit. by destruct found.
Qed.

Lemma details_of_not_file details_dir name :
  isfile fs (join details_dir name) = false →
  details_of json_loads fs details_dir name = None.
Proof.
  unfold isfile, details_of. intros Hfile.
  destruct (_ && _); [|done]. by destruct (resolve fs _) as [[]|].
Qed.

Lemma outcomes_of_listing details_dir names :
  (∀ name, name ∈ names → "/"%char ∉ chars name) →
  (∀ name, name ∈ names → glob_match name = true →
     isfile fs (join details_dir name) = true →
     ∃ found, visit json_loads fs (join details_dir name) = Ok found) →
  outcomes_of json_loads fs (join details_dir <$> filter (λ name, glob_match name = true) names)
  = yield_pair <$> omap (details_of json_loads fs details_dir) names.
Proof.
  induction names as [|name names IH]; intros Hslash Hload; [done|].
  rewrite filter_cons. cbn [omap list_omap].
  assert (outcomes_of json_loads fs
            (join details_dir <$> filter (λ name, glob_match name = true) names)
          = yield_pair <$> omap (details_of json_loads fs details_dir) names) as IH'.
  { apply IH; intros; [apply Hslash|apply Hload]; by try right. }
  destruct (glob_match name) eqn:Hmatch.
  - rewrite decide_True by done. cbn [fmap list_fmap outcomes_of].
    destruct (isfile fs (join details_dir name)) eqn:Hfile.
    + destruct (Hload name) as [found Hfound]; [by left|done..|].
      rewrite Hfound, (details_of_found _ _ found) by (done || apply Hslash; by left).
      cbn. f_equal. apply IH'.
    + rewrite details_of_not_file by done. apply IH'.
  - rewrite decide_False by done.
    unfold details_of at 1. rewrite <- glob_match_spec, Hmatch. apply IH'.
Qed.

(** X21. What the code selects.  For a directory glob takes as it is
    written, whose listed names have no slash and whose selected regular
    files all open and parse: the names glob keeps are those that end with
    [.json] and do not start with a dot, and the calls of [next] give, in
    listing order, the pair of every such name that is a regular file, the
    name without [.json] with the parsed text, and StopIteration after
    them. *)
Theorem details_of_selected_files details_dir names :
  literal_dir details_dir →
  scandir fs details_dir = Some names →
  (∀ name, name ∈ names → "/"%char ∉ chars name) →
  (∀ name, name ∈ names → glob_match name = true →
     isfile fs (join details_dir name) = true →
     ∃ found, visit json_loads fs (join details_dir name) = Ok found) →
  (∀ name, glob_match name = str_endswith ".json" name && negb (str_startswith "." name))
  ∧ ∀ n, (iterate json_loads fs n (parse_package_details details_dir)).1.2
         = take n ((yield_pair <$> omap (details_of json_loads fs details_dir) names)
                   ++ replicate n StopIteration).
Proof.
  intros _ Hscan Hslash Hload. split; [apply glob_match_spec|]. intros n.
  rewrite iterate_outcomes. cbn [remaining parse_package_details]. unfold iglob.
  by rewrite Hscan, outcomes_of_listing.
Qed.

(** C6. When the paths of the directory are [before], then [bad], then
    [after], the regular files of [before] give the pairs [founds], and
    [bad] is a regular file whose visit raises [e]: creating the generator
    does nothing; the calls of [next] give the pairs of [founds] first,
    then raise [e] at the call that reaches [bad], and give StopIteration
    ever after, so no path of [after] is visited. *)
Theorem failure_surfaces_at_its_step details_dir before bad after founds e :
  iglob fs details_dir = before ++ bad :: after →
  Forall2 (λ path found, visit json_loads fs path = Ok found)
    (filter (λ path, isfile fs path = true) before) founds →
  isfile fs bad = true →
  visit json_loads fs bad = Raise e →
  (iterate json_loads fs 0 (parse_package_details details_dir)).1 = ([], [])
  ∧ ∀ n, (iterate json_loads fs n (parse_package_details details_dir)).1.2
         = take n ((yield_pair <$> founds) ++ Raised e :: replicate n StopIteration).
Proof.
  intros Hglob Hfounds Hfile Hbad. split; [done|]. intros n.
  rewrite iterate_outcomes. cbn [remaining parse_package_details].
  rewrite Hglob, (outcomes_of_app_found _ _ _ Hfounds). cbn [outcomes_of].
  by rewrite Hfile, Hbad, <- app_assoc.
Qed.

(** C1, amended. After any number of calls of [next]: the trace is made of
    the blocks open, read, close of the files visited and closed, followed
    by open, read of the file the generator holds; the handles the trace
    leaves open are the file the generator holds; the generator holds a
    file exactly when the last call has yielded, and it is the file the
    yielded name comes from; [close] leaves no handle open; and in a
    directory listed without repetition no path is opened more than once,
    is read as often as it is opened, and is not opened while it is still
    to visit. *)
Theorem handle_held_across_yield details_dir n trace outs gen :
  iterate json_loads fs n (parse_package_details details_dir) = (trace, outs, gen) →
  ∃ closed,
    trace = (closed ≫= visited_block) ++ (held gen ≫= open_block)
    ∧ closed ++ held gen ++ remaining fs gen `sublist_of` iglob fs details_dir
    ∧ open_after [] trace = held gen
    ∧ ((∃ name v, last outs = Some (Yield name v)) ↔ ∃ path, held gen = [path])
    ∧ (∀ name v, last outs = Some (Yield name v) →
         ∃ path, held gen = [path] ∧ name = (splitext (basename path)).1)
    ∧ open_after [] (trace ++ (close gen).1) = []
    ∧ (NoDup (iglob fs details_dir) →
       ∀ path, occurrences (EvOpen path) trace ≤ 1
               ∧ occurrences (EvRead path) trace = occurrences (EvOpen path) trace
               ∧ (path ∈ remaining fs gen → occurrences (EvOpen path) trace = 0)).
Proof.
  intros Hrun.
  destruct (iterate_trace json_loads fs n (parse_package_details details_dir))
    as [(closed & Htrace & Hsub & Hlast) Hsame].
  rewrite Hrun in Htrace, Hsub, Hlast, Hsame. cbn [fst snd] in *.
  cbn [parse_package_details held mbind list_bind app remaining] in Htrace, Hsub.
  exists closed. split; [done|]. subst trace.
  split; [done|]. split; [by rewrite open_after_closed, open_after_held|].
  split; [|split; [|split]].
  - split.
    + intros (name & v & Hout). destruct (Hlast _ Hout) as [_ Hname].
      destruct (Hname name v eq_refl) as (path & ? & _). eauto.
    + intros [path Hpath]. destruct (last outs) as [o|] eqn:Hout.
      * destruct (Hlast o eq_refl) as [[_ Hyield] _]. rewrite Hpath in Hyield.
        destruct o as [name v| |e']; [by eauto|exfalso..];
          by discriminate Hyield.
      * apply last_None in Hout. rewrite (Hsame Hout) in Hpath. done.
  - intros name v Hout. destruct (Hlast _ Hout) as [_ Hname]. apply (Hname name v eq_refl).
  - destruct gen as [|details_file paths|]; cbn [close held fst mbind list_bind] in *.
    + by rewrite !app_nil_r, <- (app_nil_r (_ ≫= _)), open_after_closed.
    + rewrite <- app_assoc, open_after_closed. cbn. by rewrite decide_False by naive_solver.
    + by rewrite !app_nil_r, <- (app_nil_r (_ ≫= _)), open_after_closed.
  - intros Hnodup path. rewrite occurrences_open, occurrences_read.
    assert (NoDup ((closed ++ held gen) ++ remaining fs gen)) as Hall.
    { rewrite <- app_assoc. by eapply sublist_NoDup. }
    apply NoDup_app in Hall as (Hvisited & Hfresh & _).
    split; [by apply NoDup_filter_eq_length|]. split; [done|].
    intros Hpath. rewrite (elem_of_nil_inv (filter _ _)); [done|].
    intros p [-> Hp]%list_elem_of_filter. by apply (Hfresh path).
Qed.
End generator_theorems.

(** With one JSON file in the directory, the first call of [next] yields
    and the trace leaves the file open. *)
Lemma handle_held_counterexample : ¬ closed_before_yield loads dir_one "d".
Proof.
  intros Hclosed.
  specialize (Hclosed 1 _ _ _ _ _ eq_refl eq_refl). vm_compute in Hclosed. done.
Qed.

(** The first call of [next] in [dir_one]. *)
Lemma handle_held_across_yield_witness :
  open_after [] [EvOpen "d/a.json"; EvRead "d/a.json"] = ["d/a.json"].
Proof.
  destruct (handle_held_across_yield loads dir_one "d" 1 _ _ _ eq_refl)
    as (closed & _ & _ & Hopen & _).
  exact Hopen.
Defined.

(** A regular file [.hidden.json] with a JSON text in it is never
    yielded. *)
Lemma hidden_file_counterexample : ¬ emits_every_json_file loads dir_hidden "d".
Proof.
  intros Hemits.
  destruct (Hemits [".hidden.json"] ".hidden.json" "1" (JInt 1)) as [n Hin];
    [done|set_solver|done..|].
  rewrite iterate_outcomes in Hin.
  change (remaining dir_hidden (parse_package_details "d")) with (@nil string) in Hin.
  cbn [outcomes_of app] in Hin. rewrite take_replicate in Hin.
  by apply elem_of_replicate in Hin as [[=] _].
Qed.

(** [dir_mixed]: two JSON files, a directory named like one, and a text
    file. *)
Lemma details_of_selected_files_witness :
  (iterate loads dir_mixed 3 (parse_package_details "d")).1.2
  = [Yield "a" (JObj [("x", JInt 1)]); Yield "b" (JArr [JInt 1; JInt 2; JInt 3]);
     StopIteration].
Proof.
  destruct (details_of_selected_files loads dir_mixed "d"
              ["a.json"; "sub.json"; "notes.txt"; "b.json"]) as [_ Hout].
  - vm_compute. reflexivity.
  - reflexivity.
  - intros name Hname.
    repeat (apply elem_of_cons in Hname as [->|Hname];
            [apply (bool_decide_unpack _); vm_compute; exact I|]).
    by apply elem_of_nil in Hname.
  - intros name Hname.
    repeat (apply elem_of_cons in Hname as [->|Hname];
            [vm_compute; by (eauto || discriminate)|]).
    by apply elem_of_nil in Hname.
  - rewrite Hout. vm_compute. reflexivity.
Defined.

(** [dir_broken]: the second of three files is not JSON. *)
Lemma failure_surfaces_at_its_step_witness :
  (iterate loads dir_broken 4 (parse_package_details "d")).1.2
  = [Yield "a" (JObj [("x", JInt 1)]); Raised JSONDecodeError;
     StopIteration; StopIteration].
Proof.
  destruct (failure_surfaces_at_its_step loads dir_broken "d"
              ["d/a.json"] "d/c.json" ["d/b.json"]
              [("a", JObj [("x", JInt 1)])] JSONDecodeError) as [_ Hout].
  - vm_compute. reflexivity.
  - replace (filter (λ path, isfile dir_broken path = true) ["d/a.json"])
      with ["d/a.json"] by (vm_compute; reflexivity).
    constructor; [vm_compute; reflexivity|constructor].
  - vm_compute. reflexivity.
  - vm_compute. reflexivity.
  - rewrite Hout. vm_compute. reflexivity.
Defined.

(** * Further properties *)

(** ** [invert_mapping] and [parse_repo_to_package_file] on rows *)

(** ** Dictionaries of sets given by their members *)

(** Two dictionaries of sets without empty sets are equal when they pair
    the same keys with the same members. *)
Lemma dict_of_sets_eq `{Countable K, Countable V} (m1 m2 : gmap K (gset V)) :
  (∀ k s, m1 !! k = Some s → s ≠ ∅) →
  (∀ k s, m2 !! k = Some s → s ≠ ∅) →
  (∀ k v, (∃ s, m1 !! k = Some s ∧ v ∈ s) ↔ (∃ s, m2 !! k = Some s ∧ v ∈ s)) →
  m1 = m2.
Proof.
  intros Hne1 Hne2 Hiff. apply map_eq. intros k.
  destruct (m1 !! k) as [s1|] eqn:Hs1, (m2 !! k) as [s2|] eqn:Hs2; [|exfalso..|done].
  - f_equal. apply set_eq. intros v. split; intros Hin.
    + destruct (proj1 (Hiff k v)) as (? & Heq & ?); [eauto|]. congruence.
    + destruct (proj2 (Hiff k v)) as (? & Heq & ?); [eauto|]. congruence.
  - destruct (set_choose_L s1) as [v Hv]; [by eapply Hne1|].
    destruct (proj1 (Hiff k v)) as (? & Heq & ?); [eauto|]. congruence.
  - destruct (set_choose_L s2) as [v Hv]; [by eapply Hne2|].
    destruct (proj2 (Hiff k v)) as (? & Heq & ?); [eauto|]. congruence.
Qed.

Lemma invert_mapping_nonempty `{Countable R, Countable P} (packages : gmap P (list R))
    repo s :
  invert_mapping packages !! repo = Some s → s ≠ ∅.
Proof. unfold invert_mapping. rewrite invert_items_add_pairs. apply add_pairs_nonempty. Qed.

(** X1. [parse_repo_to_package_file] depends on the set of rows only: two
    inputs whose rows are the same up to order and repetition give the
    same result, dictionary or exception. *)
Theorem repo_to_package_rows_as_a_set input input' rows rows' :
  csv_rows input = Ok rows →
  csv_rows input' = Ok rows' →
  (∀ row, row ∈ rows ↔ row ∈ rows') →
  parse_repo_to_package_file input = parse_repo_to_package_file input'.
Proof.
  intros Hrows Hrows' Hsame. unfold parse_repo_to_package_file.
  rewrite (for_each_row_csv_rows _ _ _ _ Hrows), (for_each_row_csv_rows _ _ _ _ Hrows').
  destruct (decide (Forall (λ row, 2 ≤ length row) rows)) as [Hlong|Hshort].
  - assert (Forall (λ row, 2 ≤ length row) rows') as Hlong'.
    { rewrite Forall_forall in Hlong |- *. intros row Hrow. by apply Hlong, Hsame. }
    rewrite !fold_rows_repo_pairs by done. f_equal.
    apply dict_of_sets_eq; try apply @add_pairs_nonempty.
    intros repo package. rewrite !elem_of_add_pairs, !elem_of_row_pairs.
    by setoid_rewrite Hsame.
  - apply not_Forall_Exists in Hshort; [|apply _].
    assert (Exists (λ row, length row < 2) rows) as Hex.
    { eapply Exists_impl; [done|]. cbn. lia. }
    assert (Exists (λ row, length row < 2) rows') as Hex'.
    { rewrite Exists_exists in Hex |- *. destruct Hex as (row & Hrow & Hlen).
      exists row. split; [by apply Hsame|done]. }
    by rewrite !fold_rows_repo_short.
Qed.

Lemma repo_to_package_rows_as_a_set_witness :
  parse_repo_to_package_file ["p1,r1" +:+ nl; "p2,r2" +:+ nl; "p1,r1" +:+ nl]
  = parse_repo_to_package_file ["p2,r2" +:+ nl; "p1,r1" +:+ nl].
Proof.
  apply (repo_to_package_rows_as_a_set _ _
           [["p1"; "r1"]; ["p2"; "r2"]; ["p1"; "r1"]] [["p2"; "r2"]; ["p1"; "r1"]]).
  - vm_compute. reflexivity.
  - vm_compute. reflexivity.
  - clear. intros row. set_solver.
Defined.

(** X2. On rows of two fields or more that pair a repository with a
    package exactly when the mapping [packages] lists the repository for
    the package, [parse_repo_to_package_file] returns
    [invert_mapping packages]. *)
Theorem repo_file_of_mapping (packages : gmap string (list string)) input rows :
  csv_rows input = Ok rows →
  Forall (λ row, 2 ≤ length row) rows →
  (∀ repo package,
     (∃ row, row ∈ rows ∧ row !! 1 = Some repo ∧ row !! 0 = Some package)
     ↔ ∃ repos, packages !! package = Some repos ∧ repo ∈ repos) →
  parse_repo_to_package_file input = Ok (invert_mapping packages).
Proof.
  intros Hrows Hlong Hpairs. unfold parse_repo_to_package_file.
  rewrite (for_each_row_csv_rows _ _ _ _ Hrows), fold_rows_repo_pairs by done.
  f_equal. apply dict_of_sets_eq.
  - apply @add_pairs_nonempty.
  - apply @invert_mapping_nonempty.
  - intros repo package.
    by rewrite elem_of_add_pairs, elem_of_row_pairs, Hpairs, elem_of_invert_mapping.
Qed.

Lemma repo_file_of_mapping_witness :
  parse_repo_to_package_file (readlines csv_pairs)
  = Ok (invert_mapping (<["p1" := ["r1"; "r2"]]> {["p2" := ["r2"]]})).
Proof.
  apply (repo_file_of_mapping _ _ [["p1"; "r1"]; ["p1"; "r2"]; ["p2"; "r2"]]).
  - vm_compute. reflexivity.
  - clear. repeat constructor.
  - clear. intros repo package. split.
    + intros (row & Hrow & Hrepo & Hpackage).
      repeat (apply elem_of_cons in Hrow as [->|Hrow];
              [injection Hrepo as <-; injection Hpackage as <-|]).
      * exists ["r1"; "r2"]. split; [done|set_solver].
      * exists ["r1"; "r2"]. split; [done|set_solver].
      * exists ["r2"]. split; [done|set_solver].
      * by apply elem_of_nil in Hrow.
    + intros (repos & Hrepos & Hrepo).
      apply lookup_insert_Some in Hrepos as [[<- <-]|[_ Hrepos]].
      * apply elem_of_cons in Hrepo as [->|Hrepo].
        { exists ["p1"; "r1"]. split; [set_solver|done]. }
        apply elem_of_cons in Hrepo as [->|Hrepo]; [|by apply elem_of_nil in Hrepo].
        exists ["p1"; "r2"]. split; [set_solver|done].
      * apply lookup_singleton_Some in Hrepos as [<- <-].
        apply elem_of_cons in Hrepo as [->|Hrepo]; [|by apply elem_of_nil in Hrepo].
        exists ["p2"; "r2"]. split; [set_solver|done].
Defined.

(** X3. Inverting the inverse gives the mapping back as sets: every
    package with a non-empty sequence is bound to the set of the elements
    of its sequence, and a package with an empty sequence is dropped. *)
Theorem invert_mapping_twice `{Countable R, Countable P} (packages : gmap P (list R)) :
  invert_mapping (elements <$> invert_mapping packages)
  = list_to_set <$> filter (λ item, item.2 ≠ []) packages.
Proof.
  apply dict_of_sets_eq.
  - apply @invert_mapping_nonempty.
  - intros package s. rewrite lookup_fmap, fmap_Some.
    intros (repos & [Hrepos Hne]%map_lookup_filter_Some & ->). cbn in Hne.
    destruct repos as [|repo repos]; [done|]. set_solver.
  - intros package repo. rewrite elem_of_invert_mapping. split.
    + intros (packages' & Hlookup & Hin).
      rewrite lookup_fmap, fmap_Some in Hlookup. destruct Hlookup as (s & Hs & ->).
      apply elem_of_elements in Hin.
      destruct (proj1 (elem_of_invert_mapping packages repo package)) as (repos & Hrepos & Hrepo);
        [eauto|].
      exists (list_to_set repos). split; [|by apply elem_of_list_to_set].
      rewrite lookup_fmap, fmap_Some. exists repos. split; [|done].
      apply map_lookup_filter_Some. split; [done|]. cbn. by intros ->; apply elem_of_nil in Hrepo.
    + intros (s & Hs & Hin). rewrite lookup_fmap, fmap_Some in Hs.
      destruct Hs as (repos & [Hrepos _]%map_lookup_filter_Some & ->).
      apply elem_of_list_to_set in Hin.
      destruct (proj2 (elem_of_invert_mapping packages repo package)) as (s & Hs & Hpackage);
        [eauto|].
      exists (elements s). split; [|by apply elem_of_elements].
      by rewrite lookup_fmap, Hs.
Qed.

(** X4. The inverse of the union of two mappings with no package in common
    binds a repository to the union of the sets the two inverses bind it
    to. *)
Theorem invert_mapping_union `{Countable R, Countable P} (packages1 packages2 : gmap P (list R)) :
  packages1 ##ₘ packages2 →
  invert_mapping (packages1 ∪ packages2)
  = union_with (λ s1 s2, Some (s1 ∪ s2)) (invert_mapping packages1) (invert_mapping packages2).
Proof.
  intros Hdisj. apply dict_of_sets_eq.
  - apply @invert_mapping_nonempty.
  - intros repo s. rewrite lookup_union_with.
    destruct (invert_mapping packages1 !! repo) as [s1|] eqn:Hs1,
             (invert_mapping packages2 !! repo) as [s2|] eqn:Hs2; cbn; intros [= <-].
    + apply invert_mapping_nonempty in Hs1. set_solver.
    + by eapply invert_mapping_nonempty.
    + by eapply invert_mapping_nonempty.
  - intros repo package. rewrite elem_of_invert_mapping.
    setoid_rewrite lookup_union_Some; [|done]. rewrite lookup_union_with. split.
    + intros (repos & [Hrepos|Hrepos] & Hrepo).
      * destruct (proj2 (elem_of_invert_mapping packages1 repo package)) as (s1 & -> & Hin);
          [eauto|].
        destruct (invert_mapping packages2 !! repo); cbn; eexists; (split; [done|]); set_solver.
      * destruct (proj2 (elem_of_invert_mapping packages2 repo package)) as (s2 & -> & Hin);
          [eauto|].
        destruct (invert_mapping packages1 !! repo); cbn; eexists; (split; [done|]); set_solver.
    + intros (s & Hs & Hin).
      destruct (invert_mapping packages1 !! repo) as [s1|] eqn:Hs1,
               (invert_mapping packages2 !! repo) as [s2|] eqn:Hs2;
        cbn in Hs; try done; injection Hs as <-.
      * apply elem_of_union in Hin as [Hin|Hin].
        -- destruct (proj1 (elem_of_invert_mapping packages1 repo package)) as (repos & ? & ?);
             [eauto|]. eauto.
        -- destruct (proj1 (elem_of_invert_mapping packages2 repo package)) as (repos & ? & ?);
             [eauto|]. eauto.
      * destruct (proj1 (elem_of_invert_mapping packages1 repo package)) as (repos & ? & ?);
          [eauto|]. eauto.
      * destruct (proj1 (elem_of_invert_mapping packages2 repo package)) as (repos & ? & ?);
          [eauto|]. eauto.
Qed.

Lemma invert_mapping_union_witness :
  invert_mapping (P := string) ({["p1" := ["r1"; "r2"]]} ∪ {["p2" := ["r2"]]})
  = union_with (λ s1 s2, Some (s1 ∪ s2))
      (invert_mapping {["p1" := ["r1"; "r2"]]}) (invert_mapping {["p2" := ["r2"]]}).
Proof.
  apply invert_mapping_union. apply map_disjoint_singleton_l_2.
  by apply lookup_singleton_ne.
Defined.


(** ** Rows of the [DictReader], once more *)

(** ** Rows that do not fit the header *)

Lemma zip_rows_absent (kvs : list (string * string)) (d : gmap (option string) value) k :
  k ∉ kvs.*1 →
  foldl (λ d kv, <[Some kv.1 := VStr kv.2]> d) d kvs !! Some k = d !! Some k.
Proof.
  revert d. induction kvs as [|[k' s] kvs IH]; intros d Hk; [done|].
  cbn [foldl]. rewrite fmap_cons, not_elem_of_cons in Hk. destruct Hk as [Hne Hk].
  rewrite IH by done. apply lookup_insert_ne. cbn in *. congruence.
Qed.

Lemma restval_absent (keys : list string) (d : gmap (option string) value) k :
  k ∉ keys →
  foldl (λ d key, <[Some key := VNone]> d) d keys !! Some k = d !! Some k.
Proof.
  revert d. induction keys as [|k' keys IH]; intros d Hk; [done|].
  cbn [foldl]. rewrite not_elem_of_cons in Hk. destruct Hk as [Hne Hk].
  rewrite IH by done. apply lookup_insert_ne. congruence.
Qed.

Lemma restval_present (keys : list string) (d : gmap (option string) value) k :
  k ∈ keys →
  foldl (λ d key, <[Some key := VNone]> d) d keys !! Some k = Some VNone.
Proof.
  revert d. induction keys as [|k' keys IH]; intros d Hk; [by apply elem_of_nil in Hk|].
  cbn [foldl]. destruct (decide (k ∈ keys)) as [Hin|Hout]; [by apply IH|].
  apply elem_of_cons in Hk as [->|Hk]; [|done].
  rewrite restval_absent by done. apply lookup_insert_eq.
Qed.

(** A column the header does not have is not a key of the row. *)
Lemma row_value_KeyError header row key :
  key ∉ header → row_value header row key = Raise (KeyError key).
Proof.
  intros Hkey. unfold row_value, getitem, DictReader_row.
  assert (foldl (λ d kv, <[Some kv.1 := VStr kv.2]> d)
            (∅ : gmap (option string) value) (zip header row) !! Some key
          = None) as Hzip.
  { rewrite zip_rows_absent, lookup_empty; [done|]. rewrite fst_zip_take.
    intros Hin. apply Hkey. by eapply (sublist_subseteq _ _ (sublist_take _ _)). }
  case_bool_decide; [|case_bool_decide].
  - by rewrite lookup_insert_ne, Hzip.
  - rewrite restval_absent, Hzip; [done|].
    intros Hin. apply Hkey. by eapply (sublist_subseteq _ _ (sublist_drop _ _)).
  - by rewrite Hzip.
Qed.

(** A column beyond the end of a short row has the value [None]. *)
Lemma row_value_restval header row key :
  key ∈ drop (length row) header → row_value header row key = Ok VNone.
Proof.
  intros Hkey. unfold row_value, getitem, DictReader_row.
  assert (length row < length header) as Hshort.
  { destruct (decide (length row < length header)); [done|].
    rewrite drop_ge in Hkey by lia. by apply elem_of_nil in Hkey. }
  rewrite bool_decide_eq_false_2, bool_decide_eq_true_2 by lia.
  by rewrite restval_present.
Qed.

Lemma zip_take_r {A B} (l : list A) (k : list B) : zip l k = zip l (take (length l) k).
Proof.
  revert k. induction l as [|x l IH]; intros [|y k]; cbn; try done. by rewrite <- IH.
Qed.

(** The fields of a row beyond the columns of the header do not count. *)
Lemma row_value_surplus header row key :
  row_value header row key = row_value header (take (length header) row) key.
Proof.
  destruct (decide (length header < length row)) as [Hlong|Hfit];
    [|by rewrite take_ge by lia].
  unfold row_value, getitem, DictReader_row.
  rewrite length_take, Nat.min_l by lia.
  rewrite (bool_decide_eq_true_2 (length header < length row)) by done.
  rewrite !(bool_decide_eq_false_2 (length header < length header)) by lia.
  by rewrite lookup_insert_ne, <- zip_take_r.
Qed.


(** ** [parse_package_to_repos_file] on rows that do not fit the header *)

Lemma fold_rows_first_data_row header rows row rest e : ∀ m,
  data_rows rows = row :: rest →
  package_to_repos_body (Some header, m) row = Raise e →
  fold_rows package_to_repos_body rows (Some header, m) = Raise e.
Proof.
  unfold data_rows. induction rows as [|row' rows IH]; intros m; [done|].
  cbn [fold_rows]. destruct (decide (row' = [])) as [->|Hrow'].
  - rewrite filter_cons_False by naive_solver. cbn. apply IH.
  - rewrite filter_cons_True by done. intros [= -> _] ->. done.
Qed.

Lemma parse_package_to_repos_file_fold input header rows :
  csv_rows input = Ok (header :: rows) →
  parse_package_to_repos_file input
  = acc ← fold_rows package_to_repos_body rows (Some header, ∅); Ok acc.2.
Proof.
  intros Hrows. unfold parse_package_to_repos_file.
  by rewrite (for_each_row_csv_rows _ _ _ _ Hrows).
Qed.

(** X5. When the header lacks a column and there is a row that is not
    empty, [parse_package_to_repos_file] raises KeyError: for [package]
    when that column is missing, and for [all_repos] when only that one
    is. *)
Theorem missing_column_KeyError input header rows :
  csv_rows input = Ok (header :: rows) →
  data_rows rows ≠ [] →
  ("package" ∉ header → parse_package_to_repos_file input = Raise (KeyError "package"))
  ∧ ("package" ∈ header → "all_repos" ∉ header →
     parse_package_to_repos_file input = Raise (KeyError "all_repos")).
Proof.
  intros Hrows Hdata. rewrite (parse_package_to_repos_file_fold _ _ _ Hrows).
  destruct (data_rows rows) as [|row rest] eqn:Hfirst; [done|].
  assert (row ≠ []) as Hrow.
  { assert (row ∈ data_rows rows) as Hin by (rewrite Hfirst; left).
    unfold data_rows in Hin. by apply list_elem_of_filter in Hin as [? _]. }
  split.
  - intros Hpackage. rewrite (fold_rows_first_data_row _ _ _ _ (KeyError "package") _ Hfirst);
      [done|].
    rewrite package_to_repos_body_row by done. unfold row_entry.
    rewrite (row_value_KeyError header row "package") by done. reflexivity.
  - intros Hpackage Hall. rewrite (fold_rows_first_data_row _ _ _ _ (KeyError "all_repos") _ Hfirst);
      [done|].
    rewrite package_to_repos_body_row by done. unfold row_entry.
    destruct (DictReader_row_lookup header row "package" Hpackage) as (v & Hv & _).
    assert (row_value header row "package" = Ok v) as ->
      by (unfold row_value, getitem; by rewrite Hv).
    res_simpl.
    rewrite (row_value_KeyError header row "all_repos") by done. reflexivity.
Qed.

Lemma missing_column_KeyError_witness :
  parse_package_to_repos_file (readlines ("name,url" +:+ nl +:+ "p,r" +:+ nl))
  = Raise (KeyError "package").
Proof.
  destruct (missing_column_KeyError
              (readlines ("name,url" +:+ nl +:+ "p,r" +:+ nl))
              ["name"; "url"] [["p"; "r"]]) as [Hmissing _].
  - vm_compute. reflexivity.
  - done.
  - apply Hmissing. clear. set_solver.
Defined.

(** X6. A row that ends before the [all_repos] column has [None] there,
    and [parse_package_to_repos_file] raises AttributeError at it, when
    the rows before it have a field in that column. *)
Theorem short_row_AttributeError input header before row after :
  csv_rows input = Ok (header :: before ++ row :: after) →
  "package" ∈ header →
  (∀ row', row' ∈ data_rows before →
     ∃ all_repos, row_value header row' "all_repos" = Ok (VStr all_repos)) →
  row ≠ [] →
  "all_repos" ∈ drop (length row) header →
  parse_package_to_repos_file input = Raise AttributeError.
Proof.
  intros Hrows Hpackage Hbefore Hrow Hshort.
  rewrite (parse_package_to_repos_file_fold _ _ _ Hrows), fold_rows_app.
  destruct (entries_exist header _ Hpackage Hbefore) as [entries Hentries].
  rewrite (fold_rows_package_to_repos header before ∅ entries).
  2: { eapply Forall2_impl; [done|apply entry_of_row_entry]. }
  res_simpl. cbn [fold_rows]. rewrite package_to_repos_body_row by done.
  unfold row_entry.
  destruct (DictReader_row_lookup header row "package" Hpackage) as (v & Hv & _).
  assert (row_value header row "package" = Ok v) as ->
    by (unfold row_value, getitem; by rewrite Hv).
  res_simpl.
  rewrite (row_value_restval header row "all_repos") by done. reflexivity.
Qed.

Lemma short_row_AttributeError_witness :
  parse_package_to_repos_file
    (readlines ("package,all_repos" +:+ nl +:+ "p,a" +:+ nl +:+ "q" +:+ nl))
  = Raise AttributeError.
Proof.
  apply (short_row_AttributeError _ ["package"; "all_repos"] [["p"; "a"]] ["q"] []).
  - vm_compute. reflexivity.
  - clear. set_solver.
  - clear. intros row Hrow. vm_compute in Hrow.
    apply elem_of_cons in Hrow as [->|Hrow]; [|by apply elem_of_nil in Hrow].
    vm_compute. eauto.
  - done.
  - clear. cbn. set_solver.
Defined.

Lemma package_to_repos_body_surplus header m row :
  header ≠ [] →
  package_to_repos_body (Some header, m) row
  = package_to_repos_body (Some header, m) (take (length header) row).
Proof.
  intros Hheader. destruct row as [|f row]; [by rewrite take_nil|].
  assert (take (length header) (f :: row) ≠ []) as Htake by by destruct header.
  rewrite !package_to_repos_body_row by done. unfold row_entry.
  by rewrite <- !row_value_surplus.
Qed.

Lemma package_to_repos_body_fieldnames header m row acc :
  package_to_repos_body (Some header, m) row = Ok acc → acc.1 = Some header.
Proof.
  destruct (decide (row = [])) as [->|Hrow]; [by intros [= <-]|].
  rewrite package_to_repos_body_row by done.
  by intros (e & _ & [= <-])%res_bind_Ok.
Qed.

(** X7. When the header row is not empty, fields beyond its columns do
    not count: [parse_package_to_repos_file] gives the same result when
    every row is cut to the length of the header. *)
Theorem surplus_fields_ignored input input' header rows :
  csv_rows input = Ok (header :: rows) →
  csv_rows input' = Ok (header :: (take (length header) <$> rows)) →
  header ≠ [] →
  parse_package_to_repos_file input = parse_package_to_repos_file input'.
Proof.
  intros Hrows Hrows' Hheader.
  rewrite (parse_package_to_repos_file_fold _ _ _ Hrows),
    (parse_package_to_repos_file_fold _ _ _ Hrows'). f_equal.
  generalize (∅ : gmap (option string) (list string)).
  clear Hrows Hrows'. induction rows as [|row rows IH]; intros m; [done|].
  cbn [fold_rows fmap list_fmap]. rewrite <- package_to_repos_body_surplus by done.
  destruct (package_to_repos_body (Some header, m) row) as [[fieldnames m']|e] eqn:Hbody;
    [|done].
  apply package_to_repos_body_fieldnames in Hbody. cbn in Hbody. subst fieldnames.
  res_simpl. apply IH.
Qed.

Lemma surplus_fields_ignored_witness :
  parse_package_to_repos_file (readlines csv_unquoted)
  = parse_package_to_repos_file
      (readlines ("package,all_repos" +:+ nl +:+ "p1,r1" +:+ nl +:+ "p2,r2")).
Proof.
  apply (surplus_fields_ignored _ _ ["package"; "all_repos"]
           [["p1"; "r1"; "r2"]; ["p2"; "r2"]]).
  - vm_compute. reflexivity.
  - vm_compute. reflexivity.
  - done.
Defined.

(** X8. Empty rows after the header do not count:
    [parse_package_to_repos_file] gives the same result without them. *)
Theorem empty_rows_skipped input input' header rows :
  csv_rows input = Ok (header :: rows) →
  csv_rows input' = Ok (header :: data_rows rows) →
  parse_package_to_repos_file input = parse_package_to_repos_file input'.
Proof.
  intros Hrows Hrows'.
  rewrite (parse_package_to_repos_file_fold _ _ _ Hrows),
    (parse_package_to_repos_file_fold _ _ _ Hrows'). f_equal.
  generalize (∅ : gmap (option string) (list string)).
  clear Hrows Hrows'. unfold data_rows. induction rows as [|row rows IH]; intros m; [done|].
  cbn [fold_rows]. destruct (decide (row = [])) as [->|Hrow].
  - rewrite filter_cons_False by naive_solver. cbn. apply IH.
  - rewrite filter_cons_True by done. cbn [fold_rows].
    destruct (package_to_repos_body (Some header, m) row) as [[fieldnames m']|e] eqn:Hbody;
      [|done].
    apply package_to_repos_body_fieldnames in Hbody. cbn in Hbody. subst fieldnames.
    res_simpl. apply IH.
Qed.

Lemma empty_rows_skipped_witness :
  parse_package_to_repos_file (readlines csv_repeated)
  = parse_package_to_repos_file
      (readlines ("package,all_repos" +:+ nl +:+ "p,a" +:+ nl +:+ "q," +:+ dq
                  +:+ "r2,r1,r2" +:+ dq +:+ nl +:+ "p,b")).
Proof.
  apply (empty_rows_skipped _ _ ["package"; "all_repos"]
           [["p"; "a"]; ["q"; "r2,r1,r2"]; []; ["p"; "b"]]).
  - vm_compute. reflexivity.
  - vm_compute. reflexivity.
Defined.

(** X9. A row that ends before the [package] column is entered under the
    key [None]: when every row has a field in the [all_repos] column, the
    returned dictionary has that key. *)
Theorem row_without_package_has_key_None input header before row after :
  csv_rows input = Ok (header :: before ++ row :: after) →
  (∀ row', row' ∈ data_rows (before ++ row :: after) →
     ∃ all_repos, row_value header row' "all_repos" = Ok (VStr all_repos)) →
  row ≠ [] →
  "package" ∈ drop (length row) header →
  ∃ m, parse_package_to_repos_file input = Ok m ∧ is_Some (m !! None).
Proof.
  intros Hrows Hvalues Hrow Hshort.
  assert ("package" ∈ header) as Hpackage by by eapply subseteq_drop.
  destruct (entries_exist header _ Hpackage Hvalues) as [entries Hentries].
  exists (foldl put ∅ entries). split.
  - apply (parse_package_to_repos_file_entries _ _ _ _ Hrows).
    eapply Forall2_impl; [done|apply entry_of_row_entry].
  - rewrite data_rows_app, data_rows_cons in Hentries by done.
    apply Forall2_app_inv_l in Hentries as (eb & entries' & _ & Hrest & ->).
    apply Forall2_cons_inv_l in Hrest as (e & ea & [Hkey _] & _ & ->).
    unfold row_key in Hkey. rewrite row_value_restval in Hkey by done.
    injection Hkey as Hkey.
    rewrite lookup_foldl_put, filter_app, filter_cons_True by done.
    rewrite last_app, last_cons. by destruct (last (filter _ ea)).
Qed.

Lemma row_without_package_has_key_None_witness :
  ∃ m, parse_package_to_repos_file
         (readlines ("all_repos,package" +:+ nl +:+ "r1" +:+ nl)) = Ok m
       ∧ is_Some (m !! None).
Proof.
  apply (row_without_package_has_key_None _ ["all_repos"; "package"] [] ["r1"] []).
  - vm_compute. reflexivity.
  - clear. intros row Hrow. vm_compute in Hrow.
    apply elem_of_cons in Hrow as [->|Hrow]; [|by apply elem_of_nil in Hrow].
    vm_compute. eauto.
  - done.
  - clear. cbn. set_solver.
Defined.


(** ** Input without quotes *)

(** ** Input without quote characters *)

Lemma comma_free_snoc s c : comma_free s → c ≠ ","%char → comma_free (s +:+ String c "").
Proof.
  unfold comma_free. rewrite chars_app. cbn. intros Hs Hc Hin.
  apply elem_of_app in Hin as [Hin|Hin]; [done|].
  apply elem_of_cons in Hin as [Hin|Hin]; [done|by apply elem_of_nil in Hin].
Qed.

Lemma comma_free_empty : comma_free "".
Proof. apply not_elem_of_nil. Qed.

Lemma parse_add_char_inv self c self' :
  parse_add_char self c = Ok self' →
  self' = {| state := state self; fields := fields self;
             field := field self +:+ String c "" |}.
Proof. unfold parse_add_char. destruct (_ <=? _)%N; [done|]. by intros [= <-]. Qed.

Lemma parse_process_char_unquoted self c self' :
  unquoted_inv self → c ≠ Some "034"%char →
  parse_process_char excel self c = Ok self' → unquoted_inv self'.
Proof.
  intros (Hstate & Hfields & Hfield) Hc. destruct self as [st fs f].
  cbn in Hstate, Hfields, Hfield.
  assert (Forall comma_free (fs ++ [f])) as Hsaved.
  { apply Forall_app. split; [done|by constructor]. }
  unfold parse_process_char, process_start_field, process_in_field.
  repeat (apply elem_of_cons in Hstate as [->|Hstate]); [..|by apply elem_of_nil in Hstate];
    cbn -[parse_add_char]; destruct c as [c|]; try destruct (is_newline c);
    cbn -[parse_add_char]; repeat (case_bool_decide; cbn -[parse_add_char]);
    try congruence;
    try (intros [= <-]; split; [cbn; set_solver|]; split; cbn;
         solve [done | apply comma_free_empty]);
    try (intros (self1 & ->%parse_add_char_inv & [= <-])%res_bind_Ok;
         split; [cbn; set_solver|]; split; cbn; [done|];
         apply comma_free_snoc; [done|congruence]);
    try (intros ->%parse_add_char_inv;
         split; [cbn; set_solver|]; split; cbn; [done|];
         apply comma_free_snoc; [done|congruence]).
Qed.

Lemma process_line_unquoted line : ∀ self self',
  unquoted line → unquoted_inv self →
  process_line excel self line = Ok self' → unquoted_inv self'.
Proof.
  induction line as [|c line IH]; intros self self' Hline Hself; cbn [process_line].
  - by intros [= <-].
  - unfold unquoted in Hline. cbn [chars] in Hline.
    apply not_elem_of_cons in Hline as [Hc Hline].
    intros (self1 & Hstep & Hrest)%res_bind_Ok.
    apply (IH self1 self'); [done| |done].
    apply (parse_process_char_unquoted self (Some c)); [done|congruence|done].
Qed.

Lemma unquoted_inv_reset : unquoted_inv parse_reset.
Proof.
  split; [cbn; set_solver|]. split; [constructor|apply comma_free_empty].
Qed.

(** The reader never puts a comma into a field of input that has no quote
    character. *)
Lemma for_each_row_unquoted input : ∀ self rows0 rows,
  Forall unquoted input → unquoted_inv self →
  Forall (Forall comma_free) rows0 →
  for_each_row excel collect self input rows0 = Ok rows →
  Forall (Forall comma_free) rows.
Proof.
  induction input as [|line input IH]; intros self rows0 rows Hinput Hself Hrows0;
    cbn [for_each_row].
  - destruct (pending self); [cbn|by intros [= <-]].
    intros [= <-]. apply Forall_app. split; [done|]. constructor; [|done].
    destruct Hself as (_ & Hfields & Hfield). cbn. apply Forall_app.
    split; [done|by constructor].
  - apply Forall_cons in Hinput as [Hline Hinput].
    intros (self1 & Hself1 & Hrest)%res_bind_Ok.
    apply res_bind_Ok in Hrest as (self2 & Hself2 & Hrest).
    assert (unquoted_inv self2) as Hinv2.
    { apply (parse_process_char_unquoted self1 None); [|done|done].
      by apply (process_line_unquoted line self). }
    case_bool_decide.
    + unfold collect at 1 in Hrest. cbn in Hrest.
      apply (IH parse_reset (rows0 ++ [fields self2])); [done|apply unquoted_inv_reset| |done].
      apply Forall_app. split; [done|]. constructor; [|done]. by destruct Hinv2 as (_ & ? & _).
    + by apply (IH self2 rows0).
Qed.

Lemma csv_rows_unquoted input rows :
  Forall unquoted input → csv_rows input = Ok rows → Forall (Forall comma_free) rows.
Proof.
  intros Hinput. apply for_each_row_unquoted; [done|apply unquoted_inv_reset|constructor].
Qed.

Lemma split_comma_free sep s : sep ∉ chars s → split sep s = [s].
Proof.
  induction s as [|c s IH]; [done|]. cbn [chars split].
  intros [Hc Hs]%not_elem_of_cons. rewrite bool_decide_eq_false_2 by congruence.
  by rewrite IH.
Qed.

Lemma snd_zip_take {A B} (l : list A) (k : list B) : (zip l k).*2 = take (length l) k.
Proof.
  revert k. induction l as [|x l IH]; intros [|y k]; cbn; try done. by rewrite <- IH.
Qed.

Lemma zip_rows_values (kvs : list (string * string)) (d : gmap (option string) value) k a :
  foldl (λ d kv, <[Some kv.1 := VStr kv.2]> d) d kvs !! Some k = Some (VStr a) →
  a ∈ kvs.*2 ∨ d !! Some k = Some (VStr a).
Proof.
  revert d. induction kvs as [|[k' s] kvs IH]; intros d; [by right|].
  cbn [foldl]. intros [Hin|Hd]%IH; [left; by right|].
  rewrite lookup_insert in Hd. case_decide; [|by right].
  injection Hd as <-. left. by left.
Qed.

Lemma restval_values (keys : list string) (d : gmap (option string) value) k a :
  foldl (λ d key, <[Some key := VNone]> d) d keys !! Some k = Some (VStr a) →
  d !! Some k = Some (VStr a).
Proof.
  revert d. induction keys as [|k' keys IH]; intros d; [done|].
  cbn [foldl]. intros Hd%IH. rewrite lookup_insert in Hd. by case_decide.
Qed.

(** A field value of a row dictionary is a field of the row. *)
Lemma row_value_VStr header row key a :
  row_value header row key = Ok (VStr a) → a ∈ row.
Proof.
  unfold row_value, getitem.
  destruct (DictReader_row header row !! Some key) as [v|] eqn:Hv; [|done].
  intros [= ->]. unfold DictReader_row in Hv.
  assert (∀ d : gmap (option string) value,
            foldl (λ d kv, <[Some kv.1 := VStr kv.2]> d) ∅ (zip header row) = d →
            d !! Some key = Some (VStr a) → a ∈ row) as Hzip.
  { intros d <- [Hin|Hd]%zip_rows_values; [|by rewrite lookup_empty in Hd].
    rewrite snd_zip_take in Hin. by eapply subseteq_take. }
  case_bool_decide; [|case_bool_decide].
  - rewrite lookup_insert_ne in Hv by done. by eapply Hzip.
  - apply restval_values in Hv. by eapply Hzip.
  - by eapply Hzip.
Qed.

Lemma fold_rows_invariant_rows {A} (body : A → list string → res A)
    (I : A → Prop) (R : list string → Prop) rows :
  (∀ acc row acc', I acc → R row → body acc row = Ok acc' → I acc') →
  Forall R rows →
  ∀ acc r, I acc → fold_rows body rows acc = Ok r → I r.
Proof.
  intros Hbody. induction 1 as [|row rows Hrow Hrows IH]; intros acc r Hacc; cbn [fold_rows].
  - by intros [= <-].
  - intros (acc' & Hstep & Hrest)%res_bind_Ok. eauto.
Qed.

(** X10. When no line of the input holds a double quote, every list of the
    dictionary [parse_package_to_repos_file] returns has exactly one
    element, and that element holds no comma: a list of several
    repositories needs a quoted field. *)
Theorem unquoted_input_gives_single_repos input m :
  Forall unquoted input →
  parse_package_to_repos_file input = Ok m →
  ∀ key repos, m !! key = Some repos → ∃ repo, repos = [repo] ∧ comma_free repo.
Proof.
  intros Hinput Hparse. unfold parse_package_to_repos_file in Hparse.
  apply res_bind_Ok in Hparse as ([fieldnames m'] & Hloop & [= <-]).
  apply for_each_row_Ok_csv_rows in Hloop as (rows & Hrows & Hfold).
  apply (csv_rows_unquoted _ _ Hinput) in Hrows. clear Hinput.
  refine (fold_rows_invariant_rows _
            (λ acc, ∀ key repos, acc.2 !! key = Some repos →
                                 ∃ repo, repos = [repo] ∧ comma_free repo)
            (Forall comma_free) rows _ Hrows _ _ _ Hfold).
  - clear. intros [fieldnames m] row acc' Hm Hrow.
    destruct fieldnames as [header|]; [|by intros [= <-]].
    destruct (decide (row = [])) as [->|Hne]; [by intros [= <-]|].
    rewrite package_to_repos_body_row by done.
    intros ([key repos] & Hentry & [= <-])%res_bind_Ok.
    unfold row_entry in Hentry.
    apply res_bind_Ok in Hentry as (package & _ & Hentry).
    apply res_bind_Ok in Hentry as (all_repos & Hvalue & Hentry).
    apply res_bind_Ok in Hentry as (repos' & Hsplit & Hentry).
    apply res_bind_Ok in Hentry as (key' & _ & [= <- <-]).
    intros key0 repos0. unfold put. cbn [fst snd]. rewrite lookup_insert.
    case_decide; [|apply Hm]. intros [= <-].
    destruct all_repos as [|a|]; try done. injection Hsplit as <-.
    apply row_value_VStr in Hvalue.
    assert (comma_free a) as Ha by (rewrite Forall_forall in Hrow; by apply Hrow).
    exists a. by rewrite split_comma_free.
  - cbn. intros key repos. by rewrite lookup_empty.
Qed.

Lemma unquoted_input_gives_single_repos_witness :
  ∃ repo, ["r1"] = [repo] ∧ comma_free repo.
Proof.
  apply (unquoted_input_gives_single_repos (readlines csv_unquoted)
           (<[Some "p2" := ["r2"]]> {[Some "p1" := ["r1"]]})) with (key := Some "p1").
  - apply (bool_decide_unpack _). vm_compute. exact I.
  - vm_compute. reflexivity.
  - vm_compute. reflexivity.
Defined.


(** ** The rows of lines without quotes *)

Lemma split_app_sep sep s t :
  sep ∉ chars s → split sep (s +:+ String sep t) = s :: split sep t.
Proof.
  induction s as [|c s IH]; cbn [chars].
  - intros _. rewrite append_empty_l. cbn [split]. by rewrite bool_decide_eq_true_2.
  - intros [Hc Hs]%not_elem_of_cons. rewrite append_String. cbn [split].
    rewrite bool_decide_eq_false_2 by congruence. by rewrite IH.
Qed.

Lemma length_split_sep sep s : sep ∈ chars s → 2 ≤ length (split sep s).
Proof.
  induction s as [|c s IH]; cbn [chars split]; [by intros ?%elem_of_nil|].
  pose proof (split_nonempty sep s) as Hne.
  case_bool_decide as Hc.
  - intros _. destruct (split sep s); [done|cbn; lia].
  - intros [->|Hs%IH]%elem_of_cons; [done|].
    destruct (split sep s); [done|]. cbn in *. lia.
Qed.

Lemma process_line_simple body : ∀ self,
  state self ∈ [START_FIELD; IN_FIELD] →
  comma_free (field self) →
  Forall (λ c, c ≠ "034"%char ∧ is_newline c = false) (chars body) →
  (N.of_nat (String.length (field self) + String.length body) ≤ field_limit)%N →
  ∃ self', process_line excel self body = Ok self'
           ∧ state self' ∈ [START_FIELD; IN_FIELD]
           ∧ String.length (field self') ≤ String.length (field self) + String.length body
           ∧ fields self' ++ [field self'] = fields self ++ split "," (field self +:+ body).
Proof.
  induction body as [|c body IH]; intros self Hstate Hfield Hbody Hlen.
  - exists self. split; [done|]. split; [done|]. split; [lia|].
    rewrite append_empty_r. by rewrite split_comma_free.
  - apply Forall_cons in Hbody as [[Hquote Hnewline] Hbody].
    cbn [String.length] in Hlen. cbn [process_line].
    destruct (decide (c = ","%char)) as [->|Hcomma].
    + assert (parse_process_char excel self (Some ","%char)
              = Ok {| state := START_FIELD; fields := fields self ++ [field self];
                      field := "" |}) as ->.
      { destruct self as [st fs f]. cbn in Hstate.
        repeat (apply elem_of_cons in Hstate as [->|Hstate]);
          [..|by apply elem_of_nil in Hstate]; done. }
      res_simpl.
      edestruct IH as (self' & Hrest & Hstate' & Hlen' & Hsplit);
        [| |done| |exists self'; split; [done|]; split; [done|]]; cbn.
      * set_solver.
      * apply comma_free_empty.
      * lia.
      * cbn in Hlen', Hsplit. cbn [String.length]. split; [lia|].
        rewrite Hsplit, append_empty_l, split_app_sep by done.
        by rewrite <- app_assoc.
    + assert (parse_process_char excel self (Some c)
              = Ok {| state := IN_FIELD; fields := fields self;
                      field := field self +:+ String c "" |}) as ->.
      { destruct self as [st fs f]. cbn in Hstate, Hlen.
        unfold parse_process_char, process_start_field, process_in_field.
        repeat (apply elem_of_cons in Hstate as [->|Hstate]);
          [..|by apply elem_of_nil in Hstate];
          cbn -[parse_add_char]; rewrite Hnewline; cbn -[parse_add_char];
          rewrite ?(bool_decide_eq_false_2 (c = "034"%char)) by done;
          rewrite ?andb_false_r;
          cbn -[parse_add_char];
          rewrite ?(bool_decide_eq_false_2 (c = ","%char)) by done;
          rewrite (parse_add_char_Ok _ _ (String.length f)) by (cbn; lia); done. }
      res_simpl.
      edestruct IH as (self' & Hrest & Hstate' & Hlen' & Hsplit);
        [| |done| |exists self'; split; [done|]; split; [done|]]; cbn.
      * set_solver.
      * by apply comma_free_snoc.
      * rewrite length_snoc. lia.
      * cbn in Hlen', Hsplit. rewrite length_snoc in Hlen'. cbn [String.length].
        split; [lia|]. by rewrite Hsplit, append_assoc.
Qed.

(** One line without a quote gives the row of its pieces, and a blank line
    the empty row; the reader is ready for the next record after it. *)
Lemma simple_line_row body line :
  simple_body body → line_of body line →
  ∃ self1 self2, process_line excel parse_reset line = Ok self1
                 ∧ parse_process_char excel self1 None = Ok self2
                 ∧ state self2 = START_RECORD
                 ∧ fields self2 = simple_row body.
Proof.
  intros [Hchars Hlen] Hline. unfold simple_row.
  destruct body as [|c body].
  - rewrite bool_decide_eq_true_2 by done.
    destruct Hline as [->| ->]; [by exists parse_reset, parse_reset|].
    by eexists _, _.
  - rewrite bool_decide_eq_false_2 by done.
    assert (process_line excel parse_reset (String c body)
            = process_line excel (set_state parse_reset START_FIELD) (String c body)) as Hstart.
    { apply Forall_cons in Hchars as [[_ Hnewline] _]. cbn [process_line].
      f_equal. unfold parse_process_char. cbn [state parse_reset set_state].
      by rewrite Hnewline. }
    destruct (process_line_simple (String c body) (set_state parse_reset START_FIELD))
      as (self1 & Hself1 & Hstate & Hfield & Hsplit);
      [cbn; set_solver|apply comma_free_empty|done|cbn in *; lia|].
    cbn [fields field set_state parse_reset app] in Hsplit, Hfield.
    rewrite append_empty_l in Hsplit. rewrite <- Hsplit.
    destruct self1 as [st fs f]. cbn in Hstate, Hfield |- *.
    destruct Hline as [->| ->].
    + rewrite Hstart, Hself1. eexists _, _. split; [done|].
      repeat (apply elem_of_cons in Hstate as [->|Hstate]);
        [..|by apply elem_of_nil in Hstate]; done.
    + rewrite process_line_app, Hstart, Hself1. res_simpl.
      repeat (apply elem_of_cons in Hstate as [->|Hstate]);
        [..|by apply elem_of_nil in Hstate]; by eexists _, _.
Qed.

Lemma for_each_row_simple {A} (body : A → list string → res A) bodies :
  Forall simple_body bodies →
  ∀ input acc, Forall2 line_of bodies input →
  for_each_row excel body parse_reset input acc = fold_rows body (simple_row <$> bodies) acc.
Proof.
  induction 1 as [|b bodies Hb Hbodies IH]; intros input acc Hinput.
  - by apply Forall2_nil_inv_l in Hinput as ->.
  - apply Forall2_cons_inv_l in Hinput as (line & input' & Hline & Hinput & ->).
    destruct (simple_line_row b line Hb Hline) as (self1 & self2 & H1 & H2 & Hstate & Hrow).
    cbn [for_each_row fmap list_fmap fold_rows]. rewrite H1. res_simpl.
    rewrite H2. res_simpl. rewrite bool_decide_eq_true_2 by done. rewrite Hrow.
    destruct (body acc (simple_row b)); res_simpl; [by apply IH|done].
Qed.

Lemma fold_rows_collect rows : ∀ rows0, fold_rows collect rows rows0 = Ok (rows0 ++ rows).
Proof.
  induction rows as [|row rows IH]; intros rows0; cbn [fold_rows].
  - by rewrite app_nil_r.
  - unfold collect at 2. res_simpl. rewrite IH. by rewrite <- app_assoc.
Qed.

Lemma csv_rows_simple bodies input :
  Forall simple_body bodies → Forall2 line_of bodies input →
  csv_rows input = Ok (simple_row <$> bodies).
Proof.
  intros Hbodies Hinput. unfold csv_rows.
  by rewrite (for_each_row_simple collect bodies Hbodies), fold_rows_collect.
Qed.

Lemma length_simple_row body : length (simple_row body) < 2 ↔ comma_free body.
Proof.
  unfold simple_row, comma_free. case_bool_decide as Hempty.
  - subst body. cbn. split; [intros _; apply not_elem_of_nil|lia].
  - split.
    + intros Hlen Hcomma%length_split_sep. lia.
    + intros Hfree. rewrite split_comma_free by done. cbn. lia.
Qed.

Lemma simple_row_lookup body (i : nat) :
  ¬ comma_free body → simple_row body !! i = split "," body !! i.
Proof.
  intros Hcomma. unfold simple_row. rewrite bool_decide_eq_false_2; [done|].
  intros ->. apply Hcomma, comma_free_empty.
Qed.

(** X11. [parse_repo_to_package_file] on lines that hold no double quote
    and no line break inside and are each shorter than the field limit of
    the reader: it raises IndexError when some line, a blank one included,
    has no comma; otherwise it returns a dictionary in which a package is
    in the set of a repository exactly when some line has the package as
    its first piece and the repository as its second. *)
Theorem repo_file_of_simple_lines bodies input :
  Forall simple_body bodies → Forall2 line_of bodies input →
  (Exists comma_free bodies → parse_repo_to_package_file input = Raise IndexError)
  ∧ (Forall (λ body, ¬ comma_free body) bodies →
     ∃ m, parse_repo_to_package_file input = Ok m
          ∧ ∀ repo package,
              (∃ s, m !! repo = Some s ∧ package ∈ s)
              ↔ ∃ body, body ∈ bodies ∧ split "," body !! 0 = Some package
                        ∧ split "," body !! 1 = Some repo).
Proof.
  intros Hbodies Hinput.
  pose proof (csv_rows_simple bodies input Hbodies Hinput) as Hrows. split.
  - intros Hshort. unfold parse_repo_to_package_file.
    rewrite (for_each_row_csv_rows _ _ _ _ Hrows). apply fold_rows_repo_short.
    apply Exists_fmap. eapply Exists_impl; [done|]. intros body. cbn.
    by rewrite length_simple_row.
  - intros Hlong.
    destruct (repo_rows_membership input _ Hrows) as (m & Hm & Hmem).
    { apply Forall_fmap. eapply Forall_impl; [done|]. intros body Hbody. cbn.
      apply Nat.nlt_ge. by rewrite length_simple_row. }
    exists m. split; [done|]. intros repo package. rewrite Hmem. clear Hm Hmem Hrows.
    rewrite Forall_forall in Hlong. split.
    + intros (row & (body & -> & Hin)%list_elem_of_fmap & H1 & H0).
      exists body. by rewrite <- !(simple_row_lookup body) by auto.
    + intros (body & Hin & H0 & H1). exists (simple_row body).
      split; [by apply list_elem_of_fmap_2|].
      by rewrite !(simple_row_lookup body) by auto.
Qed.

Lemma repo_file_of_simple_lines_witness :
  parse_repo_to_package_file ["p1,r1" +:+ nl; nl; "p2,r1"] = Raise IndexError
  ∧ ∃ m, parse_repo_to_package_file ["p1,r1" +:+ nl; "p2,r1"] = Ok m
         ∧ ∀ repo package,
             (∃ s, m !! repo = Some s ∧ package ∈ s)
             ↔ ∃ body, body ∈ ["p1,r1"; "p2,r1"] ∧ split "," body !! 0 = Some package
                       ∧ split "," body !! 1 = Some repo.
Proof.
  assert (∀ body, bool_decide (Forall (λ c, c ≠ "034"%char ∧ is_newline c = false)
                                      (chars body)) = true →
                  (N.of_nat (String.length body) <? field_limit)%N = true →
                  simple_body body) as Hsimple.
  { intros body Hchars%bool_decide_eq_true_1 Hlen%N.ltb_lt. by split. }
  split.
  - apply (repo_file_of_simple_lines ["p1,r1"; ""; "p2,r1"]).
    + repeat (apply Forall_cons_2; [apply Hsimple; reflexivity|]). apply Forall_nil_2.
    + repeat (apply Forall2_cons_2; [first [by left|by right]|]). apply Forall2_nil_2.
    + apply Exists_cons_tl, Exists_cons_hd, comma_free_empty.
  - apply (repo_file_of_simple_lines ["p1,r1"; "p2,r1"]).
    + repeat (apply Forall_cons_2; [apply Hsimple; reflexivity|]). apply Forall_nil_2.
    + repeat (apply Forall2_cons_2; [first [by left|by right]|]). apply Forall2_nil_2.
    + repeat (apply Forall_cons_2; [apply (bool_decide_eq_false_1 _); reflexivity|]).
      apply Forall_nil_2.
Defined.


(** ** The exceptions of the two readers of CSV *)

Lemma parse_add_char_Raise self c e :
  parse_add_char self c = Raise e → reader_error e.
Proof.
  unfold parse_add_char. case_match; [|done]. intros [= <-]. by eexists.
Qed.

Lemma parse_process_char_Raise self c e :
  parse_process_char excel self c = Raise e → reader_error e.
Proof.
  assert (∀ self c st e, (parse_add_char self c ≫= λ self', Ok (set_state self' st)) = Raise e →
                         reader_error e) as Hadd.
  { intros self0 c0 st e0. destruct (parse_add_char self0 c0) eqn:Hc; [done|].
    intros [= <-]. by eapply parse_add_char_Raise. }
  destruct self as [st fs f].
  unfold parse_process_char, process_start_field, process_in_field.
  destruct st, c as [c|]; cbn -[parse_add_char];
    repeat (match goal with
            | |- context [if ?b then _ else _] => destruct b
            end; cbn -[parse_add_char]);
    try done; try apply parse_add_char_Raise; try apply Hadd.
  intros [= <-]. by eexists.
Qed.

Lemma process_line_Raise line : ∀ self e,
  process_line excel self line = Raise e → reader_error e.
Proof.
  induction line as [|c line IH]; intros self e; cbn [process_line]; [done|].
  destruct (parse_process_char excel self (Some c)) as [self'|e'] eqn:Hc.
  - res_simpl. apply IH.
  - intros [= <-]. by eapply parse_process_char_Raise.
Qed.

Lemma for_each_row_Raise {A} (body : A → list string → res A) input : ∀ self acc e,
  for_each_row excel body self input acc = Raise e →
  reader_error e ∨ ∃ acc' row, body acc' row = Raise e.
Proof.
  induction input as [|line input IH]; intros self acc e; cbn [for_each_row].
  - destruct (pending self); [|done]. cbn. intros Hbody. right. eauto.
  - destruct (process_line excel self line) as [self1|e1] eqn:H1.
    2: { intros [= <-]. left. by eapply process_line_Raise. }
    res_simpl.
    destruct (parse_process_char excel self1 None) as [self2|e2] eqn:H2.
    2: { intros [= <-]. left. by eapply parse_process_char_Raise. }
    res_simpl. case_bool_decide; [|apply IH].
    destruct (body acc (fields self2)) as [acc'|e'] eqn:Hbody.
    + res_simpl. apply IH.
    + intros [= <-]. right. eauto.
Qed.

(** X12. [parse_repo_to_package_file] raises nothing but IndexError and the
    errors of the reader. *)
Theorem parse_repo_to_package_file_exceptions input e :
  parse_repo_to_package_file input = Raise e →
  e = IndexError ∨ reader_error e.
Proof.
  unfold parse_repo_to_package_file.
  intros [Hreader|(m & row & Hbody)]%for_each_row_Raise; [by right|left].
  unfold repo_to_package_body in Hbody.
  destruct (row !! 1); [|congruence]. destruct (row !! 0); [done|congruence].
Qed.

Lemma parse_repo_to_package_file_exceptions_witness :
  IndexError = IndexError ∨ reader_error IndexError.
Proof. apply (parse_repo_to_package_file_exceptions ["p1"]). reflexivity. Defined.

Lemma package_to_repos_body_Raise acc row e :
  package_to_repos_body acc row = Raise e →
  e = KeyError "package" ∨ e = KeyError "all_repos" ∨ e = AttributeError.
Proof.
  destruct acc as [[header|] m]; [|done].
  destruct (decide (row = [])) as [->|Hrow]; [done|].
  rewrite package_to_repos_body_row by done. unfold row_entry.
  destruct (row_value header row "package") as [package|e1] eqn:Hpackage.
  2: { res_simpl. intros [= <-]. unfold row_value, getitem in Hpackage.
       destruct (_ !! _); [done|]. left. congruence. }
  res_simpl.
  destruct (row_value header row "all_repos") as [all_repos|e2] eqn:Hrepos.
  2: { res_simpl. intros [= <-]. unfold row_value, getitem in Hrepos.
       destruct (_ !! _); [done|]. right. left. congruence. }
  res_simpl.
  destruct (value_split all_repos) as [repos|e3] eqn:Hsplit.
  2: { res_simpl. intros [= <-]. destruct all_repos; cbn in Hsplit; try done;
         right; right; congruence. }
  res_simpl.
  destruct (as_key package) as [key|e4] eqn:Hkey; [by res_simpl|].
  exfalso. unfold row_value, getitem in Hpackage.
  destruct (DictReader_row header row !! Some "package") as [v|] eqn:Hv; [|done].
  injection Hpackage as ->.
  destruct (decide ("package" ∈ header)) as [Hin|Hout].
  - destruct (DictReader_row_lookup header row "package" Hin) as (v & Hv' & Hplain).
    rewrite Hv in Hv'. injection Hv' as <-. by destruct package.
  - pose proof (row_value_KeyError header row "package" Hout) as Herr.
    unfold row_value, getitem in Herr. by rewrite Hv in Herr.
Qed.

(** X13. [parse_package_to_repos_file] raises nothing but KeyError for
    [package] or [all_repos], AttributeError and the errors of the reader;
    in particular the key of an entry is always hashable. *)
Theorem parse_package_to_repos_file_exceptions input e :
  parse_package_to_repos_file input = Raise e →
  e = KeyError "package" ∨ e = KeyError "all_repos" ∨ e = AttributeError
  ∨ reader_error e.
Proof.
  unfold parse_package_to_repos_file.
  destruct (for_each_row excel package_to_repos_body parse_reset input (None, ∅))
    as [acc|e'] eqn:Hloop; [done|].
  res_simpl. intros [= <-].
  apply for_each_row_Raise in Hloop as [Hreader|(acc & row & Hbody)]; [by do 3 right|].
  apply package_to_repos_body_Raise in Hbody. tauto.
Qed.

Lemma parse_package_to_repos_file_exceptions_witness :
  KeyError "all_repos" = KeyError "package" ∨ KeyError "all_repos" = KeyError "all_repos"
  ∨ KeyError "all_repos" = AttributeError ∨ reader_error (KeyError "all_repos").
Proof.
  apply (parse_package_to_repos_file_exceptions ["package,repos" +:+ nl; "p,r"]).
  vm_compute. reflexivity.
Defined.

Lemma between_lines_mid_line n self : between_lines n self → mid_line n self.
Proof. intros [Hstate Hlen]. split; [set_solver|done]. Qed.

Lemma text_line_between n self line :
  between_lines n self → text_line line →
  (N.of_nat (n + String.length line) < field_limit)%N →
  ∃ self1 self2, process_line excel self line = Ok self1
                 ∧ parse_process_char excel self1 None = Ok self2
                 ∧ between_lines (n + String.length line) self2.
Proof.
  intros Hself%between_lines_mid_line (body & Hbody & Hline) Hlen.
  assert (String.length body ≤ String.length line) as Hle.
  { destruct Hline as [->| ->]; [done|]. rewrite str_length_app. lia. }
  destruct (process_line_plain body n self Hself Hbody) as (self1 & H1 & [Hstate Hfield] & _);
    [lia|].
  destruct self1 as [st fs f]. cbn in Hstate, Hfield.
  destruct Hline as [->| ->].
  - rewrite H1.
    repeat (apply elem_of_cons in Hstate as [->|Hstate]);
      [..|by apply elem_of_nil in Hstate];
      (eexists _, _; split; [done|]);
      cbn; (split; [done|]); (split; cbn; [set_solver|lia]).
  - rewrite process_line_app, H1. res_simpl. rewrite str_length_app. cbn [String.length nl].
    unfold parse_process_char, process_start_field, process_in_field.
    repeat (apply elem_of_cons in Hstate as [->|Hstate]);
      [..|by apply elem_of_nil in Hstate];
      cbn -[parse_add_char];
      rewrite ?(parse_add_char_Ok _ _ (n + String.length body)) by (cbn; lia); cbn;
      (eexists _, _; split; [done|]); cbn; (split; [done|]);
      (split; cbn; [set_solver|rewrite ?length_snoc; lia]).
Qed.

Lemma for_each_row_text input : ∀ n self rows0,
  between_lines n self → Forall text_line input →
  (N.of_nat (n + sum_list (String.length <$> input)) < field_limit)%N →
  ∃ rows, for_each_row excel collect self input rows0 = Ok rows.
Proof.
  induction input as [|line input IH]; intros n self rows0 Hself Hinput Hlen;
    cbn [for_each_row].
  - destruct (pending self); by eexists.
  - apply Forall_cons in Hinput as [Hline Hinput]. change (sum_list (String.length <$> line :: input))
      with (String.length line + sum_list (String.length <$> input)) in Hlen.
    destruct (text_line_between n self line Hself Hline) as (self1 & self2 & -> & H2 & Hself2);
      [lia|].
    res_simpl. rewrite H2. res_simpl. case_bool_decide.
    + unfold collect at 1. res_simpl. apply (IH 0); [by split; [set_solver|]|done|lia].
    + apply (IH (n + String.length line)); [done|done|lia].
Qed.

(** X14. On lines without a line break inside that are together shorter
    than the field limit the reader raises no error, whatever quotes they
    hold: the rows exist, [parse_repo_to_package_file] can only raise
    IndexError, and [parse_package_to_repos_file] only KeyError for one
    of its two columns or AttributeError. *)
Theorem reader_accepts_text input :
  Forall text_line input →
  (N.of_nat (sum_list (String.length <$> input)) < field_limit)%N →
  (∃ rows, csv_rows input = Ok rows)
  ∧ (∀ e, parse_repo_to_package_file input = Raise e → e = IndexError)
  ∧ (∀ e, parse_package_to_repos_file input = Raise e →
          e = KeyError "package" ∨ e = KeyError "all_repos" ∨ e = AttributeError).
Proof.
  intros Hinput Hlen.
  destruct (for_each_row_text input 0 parse_reset [] ) as [rows Hrows];
    [by split; [set_solver|]|done|done|].
  split; [by exists rows|]. split.
  - intros e. unfold parse_repo_to_package_file.
    rewrite (for_each_row_csv_rows _ _ _ _ Hrows). clear. revert e.
    generalize (∅ : gmap string (gset string)).
    induction rows as [|row rows IH]; intros m e; cbn [fold_rows]; [done|].
    destruct (repo_to_package_body m row) as [m'|e'] eqn:Hbody; res_simpl; [apply IH|].
    intros [= <-]. unfold repo_to_package_body in Hbody.
    destruct (row !! 1); [|congruence]. destruct (row !! 0); [done|congruence].
  - intros e. unfold parse_package_to_repos_file.
    rewrite (for_each_row_csv_rows _ _ _ _ Hrows). clear.
    generalize (None : option (list string), ∅ : gmap (option string) (list string)).
    induction rows as [|row rows IH]; intros acc; cbn [fold_rows]; [done|].
    destruct (package_to_repos_body acc row) as [acc'|e'] eqn:Hbody; res_simpl; [apply IH|].
    intros [= <-]. by eapply package_to_repos_body_Raise.
Qed.

Lemma reader_accepts_text_witness :
  (∃ rows, csv_rows ["p" +:+ dq +:+ "q,r" +:+ nl; "s,t"] = Ok rows)
  ∧ (∀ e, parse_repo_to_package_file ["p" +:+ dq +:+ "q,r" +:+ nl; "s,t"] = Raise e →
          e = IndexError)
  ∧ (∀ e, parse_package_to_repos_file ["p" +:+ dq +:+ "q,r" +:+ nl; "s,t"] = Raise e →
          e = KeyError "package" ∨ e = KeyError "all_repos" ∨ e = AttributeError).
Proof.
  apply (reader_accepts_text ["p" +:+ dq +:+ "q,r" +:+ nl; "s,t"]).
  - apply Forall_cons_2; [|apply Forall_cons_2; [|apply Forall_nil_2]].
    + exists ("p" +:+ dq +:+ "q,r"). split; [|by right].
      apply (bool_decide_unpack _). vm_compute. exact I.
    + exists "s,t". split; [|by left].
      apply (bool_decide_unpack _). vm_compute. exact I.
  - vm_compute. reflexivity.
Defined.


(** ** More on the generator *)

(** *** The directory of the pattern *)
Lemma rstrip_snoc c s : rstrip c (s +:+ String c "") = rstrip c s.
Proof.
  induction s as [|d s IH].
  - rewrite append_empty_l. cbn. by rewrite bool_decide_eq_true_2.
  - rewrite append_String. cbn [rstrip]. by rewrite IH.
Qed.

Lemma length_rstrip c s : String.length (rstrip c s) ≤ String.length s.
Proof.
  induction s as [|d s IH]; [done|]. cbn [rstrip String.length].
  destruct (rstrip c s) as [|e t]; [case_bool_decide; cbn; lia|].
  cbn [String.length] in *. lia.
Qed.

Lemma rstrip_id c s : rstrip c s = s ↔ ¬ ∃ stem, s = stem +:+ String c "".
Proof.
  split.
  - intros Hid [stem ->]. rewrite rstrip_snoc in Hid.
    pose proof (length_rstrip c stem) as Hlen. rewrite Hid, length_snoc in Hlen. lia.
  - induction s as [|d s IH]; [done|]. intros Hend. cbn [rstrip].
    destruct s as [|e s].
    + cbn. rewrite bool_decide_eq_false_2; [done|]. intros ->. apply Hend. by exists "".
    + rewrite IH; [done|]. intros [stem Hstem]. apply Hend. exists (String d stem).
      by rewrite append_String, <- Hstem.
Qed.

Lemma forallb_chars_snoc (f : ascii → bool) s c :
  forallb f (chars (s +:+ String c "")) = forallb f (chars s) && f c.
Proof. rewrite chars_app, forallb_app. cbn. by rewrite andb_true_r. Qed.

Lemma path_split_pattern details_dir :
  path_split (details_dir +:+ "/*.json")
  = (if forallb (λ c, bool_decide (c = "/"%char)) (chars details_dir)
     then details_dir +:+ "/" else rstrip "/" details_dir,
     "*.json").
Proof.
  unfold path_split. rewrite rfind_app.
  assert (rfind "/" "/*.json" = Some 0) as -> by done. cbn [from_option].
  rewrite Nat.add_0_r.
  assert (str_take (S (String.length details_dir)) (details_dir +:+ "/*.json")
          = details_dir +:+ "/") as ->.
  { change "/*.json" with ("/" +:+ "*.json"). rewrite <- append_assoc.
    rewrite <- (str_take_app (details_dir +:+ "/") "*.json") at 2.
    by rewrite length_snoc. }
  change "/*.json" with (String "/" "*.json"). rewrite str_drop_sep. f_equal.
  rewrite forallb_chars_snoc. cbn beta.
  rewrite (bool_decide_eq_true_2 ("/"%char = "/"%char)), andb_true_r by done.
  rewrite bool_decide_eq_false_2
    by (intros Hempty%(f_equal String.length); by rewrite length_snoc in Hempty).
  cbn [negb andb].
  destruct (forallb _ _); [done|]. cbn. apply rstrip_snoc.
Qed.

(** What makes a directory literal: no pattern character in it, not
    empty, and no slash at its end. *)
Lemma literal_dir_spec details_dir :
  literal_dir details_dir
  ↔ has_magic details_dir = false ∧ details_dir ≠ ""
    ∧ str_endswith "/" details_dir = false.
Proof.
  unfold literal_dir, glob_dirname. rewrite path_split_pattern. cbn [fst].
  destruct (forallb (λ c, bool_decide (c = "/"%char)) (chars details_dir)) eqn:Hslashes.
  - split.
    + intros Hdir. exfalso. destruct (has_magic _); [done|]. injection Hdir as Hdir.
      apply (f_equal String.length) in Hdir. rewrite length_snoc in Hdir. lia.
    + intros (_ & Hne & Hend). exfalso. destruct details_dir as [|c s]; [done|].
      assert (str_endswith "/" (String c s) = true) as Hslash; [|congruence].
      apply str_endswith_true. clear Hne Hend. revert c Hslashes.
      induction s as [|d s IH]; intros c Hall; cbn in Hall.
      * apply andb_true_iff in Hall as [->%bool_decide_eq_true _]. by exists "".
      * apply andb_true_iff in Hall as [_ Hall]. destruct (IH d Hall) as [stem Hstem].
        exists (String c stem). by rewrite append_String, <- Hstem.
  - split.
    + intros Hdir. destruct (has_magic (rstrip "/" details_dir)) eqn:Hmagic; [done|].
      injection Hdir as Hdir. rewrite Hdir in Hmagic. split; [done|].
      split; [by intros ->|].
      apply rstrip_id in Hdir. apply not_true_is_false. intros Hend%str_endswith_true.
      by apply Hdir.
    + intros (Hmagic & _ & Hend).
      assert (rstrip "/" details_dir = details_dir) as ->; [|by rewrite Hmagic].
      apply rstrip_id. intros Hstem%str_endswith_true. congruence.
Qed.

Section generator_more.
Context {J : Type} (json_loads : string → option J) (fs : filesystem).

Lemma iterate_Finished n :
  iterate json_loads fs n Finished = ([], replicate n StopIteration, Finished).
Proof. induction n as [|n IH]; [done|]. rewrite iterate_S. cbn [next fst snd]. by rewrite IH. Qed.


Lemma length_outcomes_of paths :
  length (outcomes_of json_loads fs paths) ≤ length paths.
Proof.
  induction paths as [|path paths IH]; [done|]. cbn [outcomes_of].
  destruct (isfile fs path); [|cbn; lia].
  destruct (visit json_loads fs path); cbn; lia.
Qed.

Lemma iterate_finished n : ∀ gen,
  length (outcomes_of json_loads fs (remaining fs gen)) < n →
  (iterate json_loads fs n gen).2 = Finished.
Proof.
  induction n as [|n IH]; intros gen Hlen; [lia|]. rewrite iterate_S. cbn [snd].
  pose proof (next_outcome json_loads fs gen) as Hnext.
  destruct (outcomes_of json_loads fs (remaining fs gen)) as [|out outs].
  - destruct Hnext as [_ ->]. by rewrite iterate_Finished.
  - destruct Hnext as [_ Hrest]. apply IH. rewrite Hrest. cbn in Hlen. lia.
Qed.

(** X16. After more calls of [next] than the listing has paths the
    generator is finished, every file it opened is closed again, and the
    last outcome is not a pair. *)
Theorem exhausted_generator_holds_nothing details_dir n :
  length (iglob fs details_dir) < n →
  (iterate json_loads fs n (parse_package_details details_dir)).2 = Finished
  ∧ open_after [] (iterate json_loads fs n (parse_package_details details_dir)).1.1 = []
  ∧ ∀ name v, last (iterate json_loads fs n (parse_package_details details_dir)).1.2
              ≠ Some (Yield name v).
Proof.
  intros Hn.
  assert ((iterate json_loads fs n (parse_package_details details_dir)).2 = Finished)
    as Hfinished.
  { apply iterate_finished. cbn [remaining parse_package_details].
    pose proof (length_outcomes_of (iglob fs details_dir)). lia. }
  destruct (iterate_trace json_loads fs n (parse_package_details details_dir))
    as [(closed & Htrace & _ & Hout) _].
  rewrite Hfinished in Htrace, Hout. cbn [held mbind list_bind app] in Htrace, Hout.
  rewrite app_nil_r in Htrace. split; [done|]. split.
  - assert ((iterate json_loads fs n (parse_package_details details_dir)).1.1
            = (closed ≫= visited_block) ++ []) as ->
      by (rewrite app_nil_r; exact Htrace).
    by rewrite open_after_closed.
  - intros name v Hlast. destruct (Hout _ Hlast) as [Hyield _].
    cbn in Hyield. by apply Hyield.
Qed.

(** The name a path is yielded under. *)
Lemma package_name_of_path details_dir name :
  "/"%char ∉ chars name → glob_match name = true →
  (splitext (basename (join details_dir name))).1 +:+ ".json" = name.
Proof.
  intros Hslash Hmatch. rewrite basename_join by done.
  unfold glob_match in Hmatch. apply andb_true_iff in Hmatch as [Hhidden Hjson].
  apply negb_true_iff in Hhidden. apply fnmatch_star_json in Hjson as [stem ->].
  by rewrite splitext_json.
Qed.

Lemma elem_of_iglob details_dir path :
  path ∈ iglob fs details_dir
  ↔ ∃ names name, scandir fs details_dir = Some names ∧ name ∈ names
                  ∧ glob_match name = true ∧ path = join details_dir name.
Proof.
  unfold iglob. destruct (scandir fs details_dir) as [names|].
  - rewrite list_elem_of_fmap. split.
    + intros (name & -> & [Hmatch Hname]%list_elem_of_filter). by exists names, name.
    + intros (names' & name & [= <-] & Hname & Hmatch & ->). exists name.
      split; [done|]. by apply list_elem_of_filter.
  - split; [by intros ?%elem_of_nil|]. by intros (? & ? & ? & _).
Qed.

Lemma outcomes_of_yield paths name v :
  Yield name v ∈ outcomes_of json_loads fs paths →
  ∃ path, path ∈ paths ∧ isfile fs path = true
          ∧ visit json_loads fs path = Ok (name, v).
Proof.
  induction paths as [|path paths IH]; cbn [outcomes_of]; [by intros ?%elem_of_nil|].
  destruct (isfile fs path) eqn:Hfile.
  - destruct (visit json_loads fs path) as [[name' v']|e] eqn:Hvisit.
    + intros [[= <- <-]|(p & Hp & Hrest)%IH]%elem_of_cons.
      * exists path. split; [by left|done].
      * exists p. split; [by right|done].
    + intros [[=]|[]%elem_of_nil]%elem_of_cons.
  - intros (p & Hp & Hrest)%IH. exists p. split; [by right|done].
Qed.

Lemma elem_of_iterate_outcomes n gen out :
  out ∈ (iterate json_loads fs n gen).1.2 →
  out ∈ outcomes_of json_loads fs (remaining fs gen) ∨ out = StopIteration.
Proof.
  rewrite iterate_outcomes. intros Hout. apply subseteq_take in Hout.
  apply elem_of_app in Hout as [?|Hout]; [by left|right].
  by apply elem_of_replicate in Hout as [-> _].
Qed.

(** X17. For a directory glob takes as it is written, every pair the
    generator gives comes from the listing: its name followed by [.json]
    is a listed name that does not start with a dot, the path of that name
    is a regular file with a readable text, and the value is what
    [json.loads] makes of that text. *)
Theorem yielded_pair_is_a_listed_file details_dir names n name v :
  literal_dir details_dir →
  scandir fs details_dir = Some names →
  (∀ name, name ∈ names → "/"%char ∉ chars name) →
  Yield name v ∈ (iterate json_loads fs n (parse_package_details details_dir)).1.2 →
  ∃ s, name +:+ ".json" ∈ names
       ∧ ishidden (name +:+ ".json") = false
       ∧ resolve fs (join details_dir (name +:+ ".json")) = Some (RegularFile (Text s))
       ∧ json_loads s = Some v.
Proof.
  intros _ Hscan Hslash [Hout|[=]]%elem_of_iterate_outcomes.
  cbn [remaining parse_package_details] in Hout.
  apply outcomes_of_yield in Hout as (path & Hpath & _ & Hvisit).
  apply elem_of_iglob in Hpath as (names' & file & Hscan' & Hfile & Hmatch & ->).
  assert (names' = names) as -> by congruence.
  pose proof (visit_Ok_name _ _ _ _ Hvisit) as Hname. cbn [fst] in Hname.
  pose proof (package_name_of_path details_dir file (Hslash _ Hfile) Hmatch) as Hstem.
  rewrite <- Hname in Hstem. subst file.
  destruct (visit_Ok_inv _ _ _ _ Hvisit) as (s & Hs & Hv). exists s.
  split; [done|]. split; [|done].
  unfold glob_match in Hmatch. apply andb_true_iff in Hmatch as [Hhidden _].
  by apply negb_true_iff in Hhidden.
Qed.

Lemma yield_names_outcomes_of paths :
  yield_names (outcomes_of json_loads fs paths)
    `sublist_of` (λ path, (splitext (basename path)).1) <$> paths.
Proof.
  induction paths as [|path paths IH]; [done|]. cbn [outcomes_of fmap list_fmap].
  destruct (isfile fs path); [|by apply sublist_cons].
  destruct (visit json_loads fs path) as [found|e] eqn:Hvisit.
  - cbn. rewrite (visit_Ok_name _ _ _ _ Hvisit). by apply sublist_skip.
  - cbn. apply sublist_nil_l.
Qed.

Lemma yield_names_app (outs outs' : list (outcome J)) :
  yield_names (outs ++ outs') = yield_names outs ++ yield_names outs'.
Proof. apply omap_app. Qed.

Lemma yield_names_replicate n : yield_names (replicate n (@StopIteration J)) = [].
Proof. induction n as [|n IH]; [done|]. by cbn. Qed.

Lemma yield_names_sublist (outs outs' : list (outcome J)) :
  outs `sublist_of` outs' → yield_names outs `sublist_of` yield_names outs'.
Proof.
  induction 1 as [|out outs outs' _ IH|out outs outs' _ IH]; [done| |].
  - unfold yield_names. cbn. destruct out; [by apply sublist_skip|done..].
  - unfold yield_names. cbn. destruct out; [by apply sublist_cons|done..].
Qed.

(** X18. For a directory glob takes as it is written, when the listing
    has no name twice, no package name is given twice, and there are at
    most as many pairs as listed names. *)
Theorem yielded_names_are_distinct details_dir names n :
  literal_dir details_dir →
  scandir fs details_dir = Some names →
  (∀ name, name ∈ names → "/"%char ∉ chars name) →
  NoDup names →
  NoDup (yield_names (iterate json_loads fs n (parse_package_details details_dir)).1.2)
  ∧ length (yield_names (iterate json_loads fs n (parse_package_details details_dir)).1.2)
    ≤ length names.
Proof.
  intros _ Hscan Hslash Hnames.
  assert (yield_names (iterate json_loads fs n (parse_package_details details_dir)).1.2
            `sublist_of` (λ name, (splitext (basename (join details_dir name))).1)
                           <$> filter (λ name, glob_match name = true) names) as Hsub.
  { rewrite iterate_outcomes. cbn [remaining parse_package_details].
    etrans; [apply yield_names_sublist, sublist_take|].
    rewrite yield_names_app, yield_names_replicate, app_nil_r.
    etrans; [apply yield_names_outcomes_of|]. unfold iglob. rewrite Hscan.
    by rewrite <- list_fmap_compose. }
  split.
  - eapply sublist_NoDup; [|exact Hsub]. apply NoDup_fmap_2_strong; [|by apply NoDup_filter].
    intros name name' [Hmatch Hname]%list_elem_of_filter [Hmatch' Hname']%list_elem_of_filter Heq.
    rewrite <- (package_name_of_path details_dir name), Heq by auto.
    by apply package_name_of_path; auto.
  - etrans; [eapply sublist_length; exact Hsub|]. rewrite length_fmap. apply length_filter.
Qed.

Lemma run_loop_state paths :
  (∀ ev, ev ∈ (run_loop json_loads fs paths).1.1 →
         event_path ev ∈ paths ∧ isfile fs (event_path ev) = true)
  ∧ (∀ path, path ∈ held (run_loop json_loads fs paths).2 →
             path ∈ paths ∧ isfile fs path = true)
  ∧ remaining fs (run_loop json_loads fs paths).2 ⊆ paths.
Proof.
  induction paths as [|path paths (IHev & IHheld & IHrest)].
  - cbn. split; [by intros ? ?%elem_of_nil|]. split; [by intros ? ?%elem_of_nil|done].
  - destruct (isfile fs path) eqn:Hfile.
    + rewrite run_loop_file by done.
      assert (∀ ev, ev ∈ visited_block path →
                    event_path ev ∈ path :: paths ∧ isfile fs (event_path ev) = true)
        as Hblock.
      { intros ev Hev. unfold visited_block in Hev.
        repeat (apply elem_of_cons in Hev as [->|Hev]); [..|by apply elem_of_nil in Hev];
          (split; [by left|done]). }
      destruct (open_file fs path) as [details_file|e].
      * destruct (visit json_loads fs path) as [found|e]; cbn [fst snd held remaining].
        -- split; [|split].
           ++ intros ev Hev. apply Hblock. unfold visited_block, open_block in *. set_solver.
           ++ intros p ->%list_elem_of_singleton. split; [by left|done].
           ++ set_solver.
        -- split; [done|]. split; [by intros ? ?%elem_of_nil|set_solver].
      * cbn. split; [by intros ? ?%elem_of_nil|].
        split; [by intros ? ?%elem_of_nil|set_solver].
    + cbn [run_loop]. rewrite Hfile. split; [|split].
      * intros ev [Hin Hev]%IHev. split; [by right|done].
      * intros p [Hin Hp]%IHheld. split; [by right|done].
      * set_solver.
Qed.

Lemma iterate_events n : ∀ gen ev,
  ev ∈ (iterate json_loads fs n gen).1.1 →
  event_path ev ∈ held gen
  ∨ (event_path ev ∈ remaining fs gen ∧ isfile fs (event_path ev) = true).
Proof.
  induction n as [|n IH]; intros gen ev; [by intros ?%elem_of_nil|].
  rewrite iterate_S. cbn [fst snd].
  assert ((∀ ev, ev ∈ (next json_loads fs gen).1.1 →
                 event_path ev ∈ held gen
                 ∨ (event_path ev ∈ remaining fs gen ∧ isfile fs (event_path ev) = true))
          ∧ (∀ path, path ∈ held (next json_loads fs gen).2 →
                     path ∈ remaining fs gen ∧ isfile fs path = true)
          ∧ remaining fs (next json_loads fs gen).2 ⊆ remaining fs gen)
    as (Hev & Hheld & Hrest).
  { destruct gen as [details_dir|details_file paths|]; cbn [next remaining held].
    - destruct (run_loop_state (iglob fs details_dir)) as (? & ? & ?). auto.
    - destruct (run_loop_state paths) as (Hev & Hheld & Hrest).
      destruct (run_loop json_loads fs paths) as [[evs out] gen']. cbn [fst snd] in *.
      split; [|done]. intros ev' [->|Hin]%elem_of_cons; [left; by left|right; auto].
    - cbn. split; [by intros ? ?%elem_of_nil|]. split; [by intros ? ?%elem_of_nil|done]. }
  intros [Hin|Hin]%elem_of_app; [by apply Hev|].
  right. apply IH in Hin as [Hin|[Hin Hfile]]; [by apply Hheld|]. split; [|done].
  by apply Hrest.
Qed.

(** X19. For a directory glob takes as it is written, every file the
    generator opens, reads or closes is a regular file of the directory
    with a listed name the pattern keeps. *)
Theorem only_matching_files_are_touched details_dir n ev :
  literal_dir details_dir →
  ev ∈ (iterate json_loads fs n (parse_package_details details_dir)).1.1 →
  ∃ names name,
    scandir fs details_dir = Some names ∧ name ∈ names
    ∧ glob_match name = true
    ∧ event_path ev = join details_dir name
    ∧ isfile fs (join details_dir name) = true.
Proof.
  intros _ [[]%elem_of_nil|[Hin Hfile]]%iterate_events.
  cbn [remaining parse_package_details] in Hin.
  apply elem_of_iglob in Hin as (names & name & Hscan & Hname & Hmatch & Hpath).
  exists names, name. by rewrite <- Hpath.
Qed.

Section failure.
Variables (bad : string) (after : list string) (e : exception).
Hypothesis bad_is_file : isfile fs bad = true.
Hypothesis bad_fails : visit json_loads fs bad = Raise e.

Lemma run_loop_before before :
  (∀ ev, ev ∈ (run_loop json_loads fs (before ++ bad :: after)).1.1 →
         event_path ev ∈ before ++ [bad])
  ∧ ((run_loop json_loads fs (before ++ bad :: after)).2 = Finished
     ∨ ∃ before1 path before2,
         before = before1 ++ path :: before2
         ∧ (run_loop json_loads fs (before ++ bad :: after)).2
           = Suspended path (before2 ++ bad :: after)).
Proof.
  assert (∀ path paths ev, ev ∈ visited_block path → event_path ev ∈ path :: paths)
    as Hblock.
  { intros path paths ev Hev. unfold visited_block in Hev.
    repeat (apply elem_of_cons in Hev as [->|Hev]); [..|by apply elem_of_nil in Hev];
      by left. }
  induction before as [|path before [IHev IHgen]].
  - rewrite app_nil_l, run_loop_file, bad_fails by done.
    destruct (open_file fs bad); cbn [fst snd]; (split; [|by left]).
    + apply Hblock.
    + by intros ? ?%elem_of_nil.
  - rewrite <- app_comm_cons. destruct (isfile fs path) eqn:Hfile.
    + rewrite run_loop_file by done.
      destruct (open_file fs path) as [details_file|e'].
      * destruct (visit json_loads fs path) as [found|e']; cbn [fst snd].
        -- split.
           ++ intros ev Hev. apply Hblock. unfold visited_block, open_block in *. set_solver.
           ++ right. by exists [], path, before.
        -- split; [apply Hblock|by left].
      * cbn. split; [by intros ? ?%elem_of_nil|by left].
    + cbn [run_loop]. rewrite Hfile. split.
      * intros ev Hev%IHev. by right.
      * destruct IHgen as [?|(before1 & p & before2 & -> & ?)]; [by left|right].
        by exists (path :: before1), p, before2.
Qed.

Lemma iterate_before n : ∀ gen before ev,
  remaining fs gen = before ++ bad :: after →
  ev ∈ (iterate json_loads fs n gen).1.1 →
  event_path ev ∈ held gen ++ before ++ [bad].
Proof.
  induction n as [|n IH]; intros gen before ev Hgen; [by intros ?%elem_of_nil|].
  rewrite iterate_S. cbn [fst snd].
  assert ((∀ ev, ev ∈ (next json_loads fs gen).1.1 →
                 event_path ev ∈ held gen ++ before ++ [bad])
          ∧ ((next json_loads fs gen).2 = Finished
             ∨ ∃ before1 path before2,
                 before = before1 ++ path :: before2
                 ∧ (next json_loads fs gen).2 = Suspended path (before2 ++ bad :: after)))
    as [Hev Hnext].
  { destruct (run_loop_before before) as [Hev Hnext].
    destruct gen as [details_dir|details_file paths|]; cbn [next remaining held] in *.
    - by rewrite Hgen.
    - subst paths.
      destruct (run_loop json_loads fs (before ++ bad :: after)) as [[evs out] gen'].
      cbn [fst snd] in *. split; [|done].
      intros ev' [->|Hin]%elem_of_cons; [by left|]. right. by apply Hev.
    - by destruct before. }
  intros [Hin|Hin]%elem_of_app; [by apply Hev|].
  destruct Hnext as [Hnext|(before1 & path & before2 & -> & Hnext)]; rewrite Hnext in Hin.
  - rewrite iterate_Finished in Hin. by apply elem_of_nil in Hin.
  - apply (IH _ before2) in Hin; [|done]. cbn [held] in Hin.
    apply elem_of_app. right. rewrite <- app_assoc. apply elem_of_app. right. done.
Qed.
End failure.

(** X20. When visiting a listed regular file fails, the paths listed after
    it are never touched: every event of the run is about a path listed
    before it or about the file itself. *)
Theorem nothing_touched_after_failure details_dir before bad after e n ev :
  iglob fs details_dir = before ++ bad :: after →
  isfile fs bad = true →
  visit json_loads fs bad = Raise e →
  ev ∈ (iterate json_loads fs n (parse_package_details details_dir)).1.1 →
  event_path ev ∈ before ++ [bad].
Proof.
  intros Hglob Hfile Hbad Hev.
  by apply (iterate_before bad after e Hfile Hbad n (parse_package_details details_dir)).
Qed.
End generator_more.


Lemma exhausted_generator_holds_nothing_witness :
  (iterate loads dir_mixed 4 (parse_package_details "d")).2 = Finished
  ∧ open_after [] (iterate loads dir_mixed 4 (parse_package_details "d")).1.1 = []
  ∧ ∀ name v, last (iterate loads dir_mixed 4 (parse_package_details "d")).1.2
              ≠ Some (Yield name v).
Proof.
  apply (exhausted_generator_holds_nothing loads dir_mixed "d" 4).
  vm_compute. lia.
Defined.

Lemma yielded_pair_is_a_listed_file_witness :
  ∃ s, "b" +:+ ".json" ∈ ["a.json"; "sub.json"; "notes.txt"; "b.json"]
       ∧ ishidden ("b" +:+ ".json") = false
       ∧ resolve dir_mixed (join "d" ("b" +:+ ".json")) = Some (RegularFile (Text s))
       ∧ loads s = Some (JArr [JInt 1; JInt 2; JInt 3]).
Proof.
  apply (yielded_pair_is_a_listed_file loads dir_mixed "d" _ 2).
  - vm_compute. reflexivity.
  - reflexivity.
  - intros name Hname.
    repeat (apply elem_of_cons in Hname as [->|Hname];
            [apply (bool_decide_unpack _); vm_compute; exact I|]).
    by apply elem_of_nil in Hname.
  - vm_compute. apply list_elem_of_further, list_elem_of_here.
Defined.

Lemma yielded_names_are_distinct_witness :
  NoDup (yield_names (iterate loads dir_mixed 3 (parse_package_details "d")).1.2)
  ∧ length (yield_names (iterate loads dir_mixed 3 (parse_package_details "d")).1.2)
    ≤ length ["a.json"; "sub.json"; "notes.txt"; "b.json"].
Proof.
  apply (yielded_names_are_distinct loads dir_mixed "d").
  - vm_compute. reflexivity.
  - reflexivity.
  - intros name Hname.
    repeat (apply elem_of_cons in Hname as [->|Hname];
            [apply (bool_decide_unpack _); vm_compute; exact I|]).
    by apply elem_of_nil in Hname.
  - apply (bool_decide_unpack _). vm_compute. exact I.
Defined.

Lemma only_matching_files_are_touched_witness :
  ∃ names name,
    scandir dir_mixed "d" = Some names ∧ name ∈ names
    ∧ glob_match name = true
    ∧ event_path (EvClose "d/a.json") = join "d" name
    ∧ isfile dir_mixed (join "d" name) = true.
Proof.
  apply (only_matching_files_are_touched loads dir_mixed "d" 2).
  - vm_compute. reflexivity.
  - vm_compute. do 2 apply list_elem_of_further. apply list_elem_of_here.
Defined.

Lemma nothing_touched_after_failure_witness :
  event_path (EvClose "d/c.json") ∈ ["d/a.json"] ++ ["d/c.json"].
Proof.
  apply (nothing_touched_after_failure loads dir_broken "d" _ _ ["d/b.json"]
           JSONDecodeError 3).
  - vm_compute. reflexivity.
  - vm_compute. reflexivity.
  - vm_compute. reflexivity.
  - vm_compute. do 5 apply list_elem_of_further. apply list_elem_of_here.
Defined.

(** C3. The claim fails on the code at a hidden file.  In the directory
    [d] of [dir_hidden] the one listed name is [.hidden.json]; it ends
    with [.json], its path is a regular file with the JSON text [1], and
    [d] is taken as it is written.  The claim has the pair of that file
    emitted; the code gives StopIteration at every call of [next] and
    touches no file, because the pattern [*.json] passes over names that
    start with a dot. *)
Theorem hidden_file_never_yielded :
  literal_dir "d"
  ∧ scandir dir_hidden "d" = Some [".hidden.json"]
  ∧ str_endswith ".json" ".hidden.json" = true
  ∧ resolve dir_hidden (join "d" ".hidden.json") = Some (RegularFile (Text "1"))
  ∧ loads "1" = Some (JInt 1)
  ∧ ∀ n, (iterate loads dir_hidden n (parse_package_details "d")).1
         = ([], replicate n StopIteration).
Proof.
  split; [vm_compute; reflexivity|]. split; [reflexivity|].
  split; [vm_compute; reflexivity|]. split; [vm_compute; reflexivity|].
  split; [vm_compute; reflexivity|].
  intros [|n]; [done|]. rewrite iterate_S.
  change (next loads dir_hidden (parse_package_details "d"))
    with (@nil event, @StopIteration json, Finished).
  cbn [fst snd]. by rewrite iterate_Finished.
Qed.
